(** * pytato: call transformations and loopy lowering

    A shallow embedding of the parts of [pytato/transform/calls.py],
    [pytato/codegen.py], [pytato/target/loopy/codegen.py] and
    [pytato/array.py] that the properties below are about.

    Conventions.
    - A Python exception is a value of [exn]; a function that may raise
      returns [res A].
    - A [dict] or [Mapping] is an association list in insertion order, the
      order in which the code iterates it.
    - A [frozenset] of tags is a list without a meaningful order; membership
      is all that is ever asked of it.  A [set] that the code iterates is a
      list together with the order of iteration, which Python does not fix.
    - Arrays of [pytato/transform/calls.py] and of the lowering are compared
      by structure, as its dictionaries keyed by arrays need.
    - Shape components are integers.  Symbolic (size-parameter) shape
      components are outside this development. *)

From Stdlib Require Import ZArith Lia DecimalString DecimalNat.
From stdpp Require Import base option list strings sorting.

#[local] Set Warnings "-register-all".
Local Open Scope Z_scope.

(** ** Part I: definitions *)

(** *** Python exceptions and the result monad *)

Module Py.

Inductive exn : Type :=
| KeyError
| IndexError
| AttributeError
| StopIteration
| ValueError
| AssertionError
| NotImplementedError
| NonConcatableExpression
| InvalidConcatenatability
| UnsupportedArrayError.

Inductive res (A : Type) : Type :=
| Ok (a : A)
| Raise (e : exn).
Arguments Ok {A} a.
Arguments Raise {A} e.

Definition bind {A B} (c : res A) (k : A -> res B) : res B :=
  match c with
  | Ok a => k a
  | Raise e => Raise e
  end.

(** [mapM f l]: run [f] on the elements from left to right, stop at the
    first exception. *)
Definition mapM {A B} (f : A -> res B) : list A -> res (list B) :=
  fix go l :=
    match l with
    | [] => Ok []
    | x :: l' => bind (f x) (fun y => bind (go l') (fun ys => Ok (y :: ys)))
    end.

(** [imapM f i l]: as [mapM], the function also gets the position
    ([enumerate]), counted from [i]. *)
Definition imapM {A B} (f : nat -> A -> res B) : nat -> list A -> res (list B) :=
  fix go i l :=
    match l with
    | [] => Ok []
    | x :: l' => bind (f i x) (fun y => bind (go (S i) l') (fun ys => Ok (y :: ys)))
    end.

(** [foldM f a l]: a [for] loop over [l] updating the accumulator [a]. *)
Definition foldM {A B} (f : A -> B -> res A) : A -> list B -> res A :=
  fix go a l :=
    match l with
    | [] => Ok a
    | x :: l' => bind (f a x) (fun a' => go a' l')
    end.

Definition is_ok {A} (r : res A) : bool :=
  match r with Ok _ => true | Raise _ => false end.

#[global] Arguments mapM : simpl never.
#[global] Arguments imapM : simpl never.
#[global] Arguments foldM : simpl never.

End Py.
Export Py.

#[export] Instance res_ret : MRet res := fun A a => Ok a.
#[export] Instance res_bind : MBind res := fun A B k c => Py.bind c k.

(** An insertion-ordered dictionary with string keys. *)
Module Dict.

Definition t (V : Type) := list (string * V).

Fixpoint get {V} (k : string) (d : t V) : option V :=
  match d with
  | [] => None
  | (k', v) :: d' => if String.eqb k k' then Some v else get k d'
  end.

Definition mem {V} (k : string) (d : t V) : bool :=
  match get k d with Some _ => true | None => false end.

(** [d[k] = v]: an existing key keeps its position. *)
Fixpoint set {V} (k : string) (v : V) (d : t V) : t V :=
  match d with
  | [] => [(k, v)]
  | (k', v') :: d' =>
      if String.eqb k k' then (k, v) :: d' else (k', v') :: set k v d'
  end.

Definition keys {V} (d : t V) : list string := map fst d.
Definition values {V} (d : t V) : list V := map snd d.

(** [d[k]], raising [KeyError]. *)
Definition item {V} (k : string) (d : t V) : res V :=
  match get k d with
  | Some v => Ok v
  | None => Raise KeyError
  end.

End Dict.

(** *** Scalar expressions and concatenatability
        ([pytato/transform/calls.py], [_ScalarExprConcatabilityMapper]) *)

Module ScalarExprs.

(** The arithmetic node classes of the scalar-expression algebra that the
    combine mapper treats alike: the values of the children are combined. *)
Inductive ArithOp : Type :=
| Sum | Product | Quotient | FloorDiv | Remainder | Power
| Comparison | LogicalAnd | LogicalOr | LogicalNot | If | Min | Max.

Inductive ScalarExpr : Type :=
| Constant (value : Z)
| Var (name : string)   (* [prim.Variable] *)
| Arith (op : ArithOp) (children : list ScalarExpr)
| Call (function : string) (parameters : list ScalarExpr)
| Subscript (aggregate : string) (index_tuple : list ScalarExpr).

(** [f"_{iaxis}"] *)
Definition index_name (iaxis : nat) : string :=
  String.append "_" (NilEmpty.string_of_uint (Nat.to_uint iaxis)).

(** [idx == prim.Variable(f"_{iaxis}")] *)
Definition is_index_variable (iaxis : nat) (idx : ScalarExpr) : bool :=
  match idx with
  | Var name => String.eqb name (index_name iaxis)
  | _ => false
  end.

Inductive Concatenatability : Type :=
| ConcatableAlongAxis (axis : nat)
| ConcatableIfConstant.

#[export] Instance Concatenatability_eq_dec : EqDecision Concatenatability.
Proof. solve_decision. Defined.

Fixpoint ScalarExpr_eq_dec (a b : ScalarExpr) : {a = b} + {a <> b}.
Proof.
  decide equality; try solve_decision.
  all: apply (List.list_eq_dec ScalarExpr_eq_dec).
Defined.

#[export] Instance ScalarExpr_EqDecision : EqDecision ScalarExpr :=
  ScalarExpr_eq_dec.

(** [Mapping[str, Concatenatability]] *)
Abbreviation BindingConcats := (Dict.t Concatenatability).

Section Mapper.
Variable iaxis : nat.
Variable allow_indirect_addr : bool.

(** The body of the inner loop of [combine]. *)
Definition combine_item (result : BindingConcats)
    (item : string * Concatenatability) : res BindingConcats :=
  let '(bnd_name, c) := item in
  match Dict.get bnd_name result with
  | Some c' =>
      if decide (c' = c) then Ok result
      else Raise NonConcatableExpression
  | None => Ok (result ++ [(bnd_name, c)])
  end.

Definition combine (values : list BindingConcats) : res BindingConcats :=
  foldM (fun result value => foldM combine_item result value) [] values.

Definition map_variable (name : string) : res BindingConcats :=
  if String.eqb name (index_name iaxis)
  then Raise NonConcatableExpression
  else Ok [].

(** One round of the loop of [map_subscript], given the mapper [rec]. *)
Definition subscript_index (rec : ScalarExpr -> res BindingConcats)
    (name : string) (i : nat) (idx : ScalarExpr) : res BindingConcats :=
  if is_index_variable iaxis idx
  then Ok [(name, ConcatableAlongAxis i)]
  else
    rec_idx ← rec idx;
    match rec_idx with
    | [] => Ok rec_idx
    | _ :: _ =>
        if allow_indirect_addr then Ok rec_idx
        else Raise NonConcatableExpression
    end.

Fixpoint rec (expr : ScalarExpr) : res BindingConcats :=
  match expr with
  | Constant _ => Ok []
  | Var name => map_variable name
  | Arith _ children =>
      values ← mapM rec children;
      combine values
  | Call function parameters =>
      f ← map_variable function;
      values ← mapM rec parameters;
      combine (f :: values)
  | Subscript name index_tuple =>
      rec_indices ← imapM (subscript_index rec name) 0%nat index_tuple;
      combined ← combine rec_indices;
      if Dict.mem name combined then Ok combined
      else Ok (combined ++ [(name, ConcatableIfConstant)])
  end.

End Mapper.

#[global] Arguments combine : simpl never.

(** [_get_binding_to_concatenatability]; a bare number is a [Constant]. *)
Definition _get_binding_to_concatenatability (expr : ScalarExpr)
    (iaxis : nat) (allow_indirect_addr : bool) : res BindingConcats :=
  match expr with
  | Constant _ => Ok []
  | _ => rec iaxis allow_indirect_addr expr
  end.

(** Occurrences of the index variable [_iaxis]. *)

(** [mentions iaxis e]: the variable [_iaxis] occurs somewhere in [e]. *)
Fixpoint mentions (iaxis : nat) (e : ScalarExpr) : bool :=
  match e with
  | Constant _ => false
  | Var name => String.eqb name (index_name iaxis)
  | Arith _ children => existsb (mentions iaxis) children
  | Call function parameters =>
      String.eqb function (index_name iaxis)
      || existsb (mentions iaxis) parameters
  | Subscript _ index_tuple => existsb (mentions iaxis) index_tuple
  end.

(** [bare iaxis e]: [_iaxis] occurs in [e] somewhere else than as a whole
    index of a subscript. *)
Fixpoint bare (iaxis : nat) (e : ScalarExpr) : bool :=
  match e with
  | Constant _ => false
  | Var name => String.eqb name (index_name iaxis)
  | Arith _ children => existsb (bare iaxis) children
  | Call function parameters =>
      String.eqb function (index_name iaxis)
      || existsb (bare iaxis) parameters
  | Subscript _ index_tuple =>
      existsb (fun idx => negb (is_index_variable iaxis idx) && bare iaxis idx)
              index_tuple
  end.

(** [visited iaxis s e]: the mapper, run on [e], is run on the
    sub-expression [s] (it is not run on an index that is [_iaxis]). *)
Inductive visited (iaxis : nat) : ScalarExpr -> ScalarExpr -> Prop :=
| visited_refl e : visited iaxis e e
| visited_arith s op children c :
    c ∈ children -> visited iaxis s c -> visited iaxis s (Arith op children)
| visited_call s function parameters p :
    p ∈ parameters -> visited iaxis s p ->
    visited iaxis s (Call function parameters)
| visited_subscript s name index_tuple idx :
    idx ∈ index_tuple -> is_index_variable iaxis idx = false ->
    visited iaxis s idx -> visited iaxis s (Subscript name index_tuple).

(** [entries_in v m]: every entry of [v] is an entry of [m]. *)
Definition entries_in (v m : BindingConcats) : Prop :=
  forall k c, Dict.get k v = Some c -> Dict.get k m = Some c.

End ScalarExprs.

(** *** Array expressions
        (the node classes of [pytato.array] and [pytato.function] that
        [pytato/transform/calls.py] works on) *)

Module Arrays.

Inductive Tag : Type :=
| ImplStored
| ImplInlined
| ImplSubstitution
| OtherImplementationStrategy (name : string)
| InlineCallTag
| FunctionIdentifier (identifier : string)
| ConcatenatedCallInputConcatAxisTag
| ConcatenatedCallOutputSliceAxisTag
| UseInputAxis (input : option nat) (axis : nat)
| Named (name : string)
| PrefixNamed (prefix : string)
| ForceValueArgTag
| OtherTag (name : string).

#[export] Instance Tag_eq_dec : EqDecision Tag.
Proof. solve_decision. Defined.

(** [isinstance(tag, ImplementationStrategy)] *)
Definition is_ImplementationStrategy (t : Tag) : bool :=
  match t with
  | ImplStored | ImplInlined | ImplSubstitution
  | OtherImplementationStrategy _ => true
  | _ => false
  end.

Record Axis : Type := MkAxis { axis_tags : list Tag }.

#[export] Instance Axis_eq_dec : EqDecision Axis.
Proof. solve_decision. Defined.

Record Meta : Type := MkMeta {
  axes : list Axis;
  tags : list Tag;
  non_equality_tags : list Tag
}.

#[export] Instance Meta_eq_dec : EqDecision Meta.
Proof. solve_decision. Defined.

(** An entry of the index tuple of a [BasicIndex]: [slice(None)] or
    [slice(start, stop)]. *)
Inductive IndexEntry : Type :=
| SliceAll
| Slice (start stop : Z).

#[export] Instance IndexEntry_eq_dec : EqDecision IndexEntry.
Proof. solve_decision. Defined.

Abbreviation DType := string (only parsing).
Abbreviation ShapeType := (list Z) (only parsing).

(** The nodes.  [Bindings] is an insertion-ordered [Mapping[str, Array]]
    (the bindings of an index lambda or of a call, the returns of a
    function); [Arrays] is a tuple of arrays.  Of the high-level operations
    [Concatenate] and [BasicIndex] are kept, the ones
    [concatenate_calls] creates; the mappers below treat the others as they
    treat [Concatenate].  Bindings of a call that are scalars, not arrays,
    are left out. *)
Inductive Array : Type :=
| Placeholder (name : string) (shape : ShapeType) (dtype : DType) (meta : Meta)
| DataWrapper (name : option string) (data : nat) (shape : ShapeType)
    (dtype : DType) (meta : Meta)
| SizeParam (name : string) (meta : Meta)
| IndexLambda (expr : ScalarExprs.ScalarExpr) (shape : ShapeType)
    (dtype : DType) (bindings : Bindings) (meta : Meta)
| Concatenate (arrays : Arrays) (axis : nat) (meta : Meta)
| BasicIndex (array : Array) (indices : list IndexEntry) (meta : Meta)
| NamedCallResult (container : Call) (name : string)
with Arrays : Type :=
| ANil
| ACons (a : Array) (rest : Arrays)
with Bindings : Type :=
| BNil
| BCons (name : string) (a : Array) (rest : Bindings)
with Call : Type :=
| MkCall (function : FunctionDefinition) (bindings : Bindings) (tags : list Tag)
with FunctionDefinition : Type :=
| MkFunctionDefinition (parameters : list string) (returns : Bindings)
    (tags : list Tag).

Scheme Array_mut := Induction for Array Sort Prop
with Arrays_mut := Induction for Arrays Sort Prop
with Bindings_mut := Induction for Bindings Sort Prop
with Call_mut := Induction for Call Sort Prop
with FunctionDefinition_mut := Induction for FunctionDefinition Sort Prop.

Combined Scheme Array_mutind from
  Array_mut, Arrays_mut, Bindings_mut, Call_mut, FunctionDefinition_mut.

(** Structural equality of nodes ([==]), field by field,
    [non_equality_tags] included: nodes that differ in these only are told
    apart here. *)
Fixpoint Array_eq_dec (a b : Array) {struct a} : {a = b} + {a <> b}
with Arrays_eq_dec (a b : Arrays) {struct a} : {a = b} + {a <> b}
with Bindings_eq_dec (a b : Bindings) {struct a} : {a = b} + {a <> b}
with Call_eq_dec (a b : Call) {struct a} : {a = b} + {a <> b}
with FunctionDefinition_eq_dec (a b : FunctionDefinition) {struct a} :
  {a = b} + {a <> b}.
Proof.
  all: decide equality; try (apply ScalarExprs.ScalarExpr_eq_dec || solve_decision).
Defined.

#[export] Instance Array_EqDecision : EqDecision Array := Array_eq_dec.
#[export] Instance Call_EqDecision : EqDecision Call := Call_eq_dec.
#[export] Instance FunctionDefinition_EqDecision : EqDecision FunctionDefinition :=
  FunctionDefinition_eq_dec.

(** [ArrayOrNames]: an array, a call or a [DictOfNamedArrays]. *)
Inductive ArrayOrNames : Type :=
| AnArray (a : Array)
| ACall (c : Call)
| DictOfNamedArrays (data : Bindings) (tags : list Tag).

Fixpoint items (bs : Bindings) : list (string * Array) :=
  match bs with
  | BNil => []
  | BCons name a rest => (name, a) :: items rest
  end.

Fixpoint of_items (l : list (string * Array)) : Bindings :=
  match l with
  | [] => BNil
  | (name, a) :: l' => BCons name a (of_items l')
  end.

Fixpoint to_list (l : Arrays) : list Array :=
  match l with
  | ANil => []
  | ACons a rest => a :: to_list rest
  end.

Fixpoint of_list (l : list Array) : Arrays :=
  match l with
  | [] => ANil
  | a :: l' => ACons a (of_list l')
  end.

(** [bs[name]] *)
Definition binding (name : string) (bs : Bindings) : res Array :=
  Dict.item name (items bs).

Definition function (c : Call) : FunctionDefinition :=
  match c with MkCall f _ _ => f end.
Definition bindings (c : Call) : Bindings :=
  match c with MkCall _ bs _ => bs end.
Definition call_tags (c : Call) : list Tag :=
  match c with MkCall _ _ t => t end.
Definition parameters (f : FunctionDefinition) : list string :=
  match f with MkFunctionDefinition ps _ _ => ps end.
Definition returns (f : FunctionDefinition) : Bindings :=
  match f with MkFunctionDefinition _ rs _ => rs end.
Definition function_tags (f : FunctionDefinition) : list Tag :=
  match f with MkFunctionDefinition _ _ t => t end.

(** [call[name]] *)
Definition call_result (c : Call) (name : string) : Array :=
  NamedCallResult c name.

(** [expr.tags_of_type(InlineCallTag)], as a truth value *)
Definition has_InlineCallTag (c : Call) : bool :=
  bool_decide (InlineCallTag ∈ call_tags c).

(** Modelled from the spec: the derived attributes of the node classes of
    [pytato.array]; the [pytato/array.py] among the sources is an earlier
    state of the module, without these classes.  "[shape]: ordered
    sequence of shape components"; a [Concatenate] has the shape of its
    first array with the lengths along [axis] summed (the scenario
    "Concatenate two calls": 4x3 and 7x3 along axis 0 give 11x3); a
    [BasicIndex] by a slice [start:stop] within bounds has [stop - start]
    entries on that axis (there: slices [0:4] and [4:11]); a
    [NamedCallResult] has the shape of the return it names. *)
Definition axis_len (s : ShapeType) (iaxis : nat) : Z := default 0 (s !! iaxis).

Definition concatenated_shape (shapes : list ShapeType) (iaxis : nat) : ShapeType :=
  match shapes with
  | [] => []
  | s :: _ => <[iaxis := foldr Z.add 0 (map (fun s' => axis_len s' iaxis) shapes)]> s
  end.

Definition sliced_len (len : Z) (idx : IndexEntry) : Z :=
  match idx with
  | SliceAll => len
  | Slice start stop => stop - start
  end.

Fixpoint sliced_shape (s : ShapeType) (indices : list IndexEntry) : ShapeType :=
  match s, indices with
  | len :: s', idx :: indices' => sliced_len len idx :: sliced_shape s' indices'
  | _, _ => s
  end.

Fixpoint shape (a : Array) : ShapeType :=
  match a with
  | Placeholder _ s _ _ => s
  | DataWrapper _ _ s _ _ => s
  | SizeParam _ _ => []
  | IndexLambda _ s _ _ _ => s
  | Concatenate arrays iaxis _ => concatenated_shape (shapes arrays) iaxis
  | BasicIndex a' indices _ => sliced_shape (shape a') indices
  | NamedCallResult c name => call_shape c name
  end
with shapes (l : Arrays) : list ShapeType :=
  match l with
  | ANil => []
  | ACons a rest => shape a :: shapes rest
  end
with return_shape (name : string) (bs : Bindings) : ShapeType :=
  match bs with
  | BNil => []
  | BCons name' a rest =>
      if String.eqb name name' then shape a else return_shape name rest
  end
with call_shape (c : Call) (name : string) : ShapeType :=
  match c with
  | MkCall f _ _ => function_shape f name
  end
with function_shape (f : FunctionDefinition) (name : string) : ShapeType :=
  match f with
  | MkFunctionDefinition _ rs _ => return_shape name rs
  end.

Definition ndim (a : Array) : nat := length (shape a).

Fixpoint dtype (a : Array) : DType :=
  match a with
  | Placeholder _ _ d _ => d
  | DataWrapper _ _ _ d _ => d
  | SizeParam _ _ => "int64"
  | IndexLambda _ _ d _ _ => d
  | Concatenate arrays _ _ => first_dtype arrays
  | BasicIndex a' _ _ => dtype a'
  | NamedCallResult c name => call_dtype c name
  end
with first_dtype (l : Arrays) : DType :=
  match l with
  | ANil => "float64"
  | ACons a _ => dtype a
  end
with return_dtype (name : string) (bs : Bindings) : DType :=
  match bs with
  | BNil => "float64"
  | BCons name' a rest =>
      if String.eqb name name' then dtype a else return_dtype name rest
  end
with call_dtype (c : Call) (name : string) : DType :=
  match c with
  | MkCall f _ _ => function_dtype f name
  end
with function_dtype (f : FunctionDefinition) (name : string) : DType :=
  match f with
  | MkFunctionDefinition _ rs _ => return_dtype name rs
  end.

(** [ary.shape[iaxis]] *)
Definition shape_at (a : Array) (iaxis : nat) : res Z :=
  match shape a !! iaxis with
  | Some len => Ok len
  | None => Raise IndexError
  end.

(** The axes and tags of a node; a [NamedCallResult] has those of the
    return it names, a size parameter has none that matter here. *)
Fixpoint meta_of (a : Array) : Meta :=
  match a with
  | Placeholder _ _ _ m | DataWrapper _ _ _ _ m | SizeParam _ m
  | IndexLambda _ _ _ _ m | Concatenate _ _ m | BasicIndex _ _ m => m
  | NamedCallResult c name => call_meta c name
  end
with return_meta (name : string) (bs : Bindings) : Meta :=
  match bs with
  | BNil => MkMeta [] [] []
  | BCons name' a rest =>
      if String.eqb name name' then meta_of a else return_meta name rest
  end
with call_meta (c : Call) (name : string) : Meta :=
  match c with
  | MkCall f _ _ => function_meta f name
  end
with function_meta (f : FunctionDefinition) (name : string) : Meta :=
  match f with
  | MkFunctionDefinition _ rs _ => return_meta name rs
  end.

Definition with_meta (a : Array) (m : Meta) : Array :=
  match a with
  | Placeholder n s d _ => Placeholder n s d m
  | DataWrapper n x s d _ => DataWrapper n x s d m
  | SizeParam n _ => SizeParam n m
  | IndexLambda e s d bs _ => IndexLambda e s d bs m
  | Concatenate l i _ => Concatenate l i m
  | BasicIndex a' idx _ => BasicIndex a' idx m
  | NamedCallResult c n => NamedCallResult c n
  end.

(** [_get_default_axes(ndim)] and the default (empty) tags of a new node *)
Definition default_meta (n : nat) : Meta :=
  MkMeta (replicate n (MkAxis [])) [] [].

(** [tags | frozenset({tag})] *)
Definition add_tag (t : Tag) (ts : list Tag) : list Tag :=
  if bool_decide (t ∈ ts) then ts else ts ++ [t].

(** Modelled from the spec: [Array.tagged], [Array.with_tagged_axis],
    [concatenate], [Array.__getitem__] with a tuple of slices and [zeros]
    come from [pytato.array]; the [pytato/array.py] among the sources is
    an earlier state of the module, where [tagged] is there but [copy]
    is not implemented and the others are missing.  [tagged]
    adds a tag to the tags of a copy of the node; [with_tagged_axis] adds
    tags to one axis of a copy; [concatenate] and [__getitem__] build a
    [Concatenate] and a [BasicIndex] node with untagged axes and no tags;
    [zeros] is "an all-zeros array of the same shape/dtype".  The checks
    [concatenate] and [__getitem__] make on their arguments are not
    modelled. *)
Definition tagged (a : Array) (t : Tag) : Array :=
  let m := meta_of a in
  with_meta a (MkMeta (axes m) (add_tag t (tags m)) (non_equality_tags m)).

Definition with_tagged_axis (a : Array) (iaxis : nat) (ts : list Tag) : res Array :=
  let m := meta_of a in
  match axes m !! iaxis with
  | Some ax =>
      Ok (with_meta a
            (MkMeta (<[iaxis := MkAxis (foldr add_tag (axis_tags ax) ts)]> (axes m))
                    (tags m) (non_equality_tags m)))
  | None => Raise IndexError
  end.

Definition concatenate (arrays : list Array) (iaxis : nat) : Array :=
  Concatenate (of_list arrays) iaxis
    (default_meta (length (concatenated_shape (map shape arrays) iaxis))).

Definition getitem (a : Array) (indices : list IndexEntry) : Array :=
  BasicIndex a indices (default_meta (ndim a)).

Definition zeros (s : ShapeType) (d : DType) : Array :=
  IndexLambda (ScalarExprs.Constant 0) s d BNil (default_meta (length s)).

(** [getattr(ary, field)] for the fields the concatenation checks compare *)
Inductive FieldValue : Type :=
| DTypeValue (d : DType)
| NameValue (name : option string).

#[export] Instance FieldValue_eq_dec : EqDecision FieldValue.
Proof. solve_decision. Defined.

Definition getattr (a : Array) (field : string) : res FieldValue :=
  if String.eqb field "dtype" then Ok (DTypeValue (dtype a))
  else if String.eqb field "name" then
    match a with
    | Placeholder name _ _ _ => Ok (NameValue (Some name))
    | DataWrapper name _ _ _ _ => Ok (NameValue name)
    | SizeParam name _ => Ok (NameValue (Some name))
    | _ => Raise AttributeError
    end
  else Raise AttributeError.

(** [isinstance(a, InputArgumentBase)] *)
Definition is_InputArgumentBase (a : Array) : bool :=
  match a with
  | Placeholder _ _ _ _ | DataWrapper _ _ _ _ _ | SizeParam _ _ => true
  | _ => false
  end.

End Arrays.

(** *** Call concatenation ([pytato/transform/calls.py]) *)

Module Calls.
Import Arrays.
Export ScalarExprs(Concatenatability, ConcatableAlongAxis, ConcatableIfConstant).

(** [all(f(x) for x in l)]: stops at the first [False]. *)
Definition allM {A} (f : A -> res bool) : list A -> res bool :=
  fix go l :=
    match l with
    | [] => Ok true
    | x :: l' => b ← f x; if b : bool then go l' else Ok false
    end.
#[global] Arguments allM : simpl never.

(** [are_shape_components_equal] on integer shape components *)
Definition are_shape_components_equal (a b : Z) : bool := Z.eqb a b.

Definition _have_same_axis_length (arrays : list Array) (iaxis : nat) : res bool :=
  match arrays with
  | [] => Raise StopIteration
  | template :: _ =>
      axis_length ← shape_at template iaxis;
      allM (fun other_ary =>
              len ← shape_at other_ary iaxis;
              Ok (are_shape_components_equal len axis_length))
           arrays
  end.

Definition _have_same_axis_length_except (arrays : list Array) (iaxis : nat)
    : res bool :=
  match arrays with
  | [] => Raise StopIteration
  | template :: _ =>
      let n := ndim template in
      if forallb (fun ary => Nat.eqb (ndim ary) n) arrays
      then allM (_have_same_axis_length arrays)
                (filter (fun idim => idim <> iaxis) (seq 0 n))
      else Ok false
  end.

(** [len({getattr(ary, field) for ary in arrays}) != 1] *)
Definition field_varies (arrays : list Array) (field : string) : res bool :=
  values ← mapM (fun ary => getattr ary field) arrays;
  Ok (negb (Nat.eqb (length (remove_dups values)) 1)).

Definition _verify_arrays_can_be_concated_along_axis (arrays : list Array)
    (fields_that_must_be_same : list string) (iaxis : nat) : res unit :=
  same ← _have_same_axis_length_except arrays iaxis;
  if negb same then Raise InvalidConcatenatability
  else
    foldM (fun _ field =>
             varies ← field_varies arrays field;
             if varies : bool then Raise InvalidConcatenatability else Ok tt)
          tt fields_that_must_be_same.

Definition _verify_arrays_same (arrays : list Array) : res unit :=
  if negb (Nat.eqb (length (remove_dups arrays)) 1)
  then Raise InvalidConcatenatability
  else Ok tt.

Definition _get_concatenated_shape (arrays : list Array) (iaxis : nat)
    : res ShapeType :=
  lens ← mapM (fun ary => shape_at ary iaxis) arrays;
  let concatenated_axis_length := foldl Z.add 0 lens in
  match arrays with
  | [] => Raise StopIteration
  | template_ary :: _ =>
      Ok (imap (fun idim dim =>
                  if decide (idim <> iaxis) then dim else concatenated_axis_length)
               (shape template_ary))
  end.

(** The checks [_ConcatabilityCollector] makes at an input argument
    ([_map_input_arg_base]), before it records the concatenatability. *)
Definition _map_input_arg_base_check (expr : Array)
    (concatenatability : Concatenatability)
    (exprs_from_other_calls : list Array) : res unit :=
  match concatenatability with
  | ConcatableIfConstant => _verify_arrays_same (expr :: exprs_from_other_calls)
  | ConcatableAlongAxis axis =>
      _verify_arrays_can_be_concated_along_axis
        (expr :: exprs_from_other_calls) ["dtype"; "name"] axis
  end.

(** A dictionary with keys of any type with a decidable equality, in
    insertion order. *)
Fixpoint kget {K V} `{EqDecision K} (k : K) (d : list (K * V)) : option V :=
  match d with
  | [] => None
  | (k', v) :: d' => if decide (k = k') then Some v else kget k d'
  end.

Fixpoint kset {K V} `{EqDecision K} (k : K) (v : V) (d : list (K * V))
    : list (K * V) :=
  match d with
  | [] => [(k, v)]
  | (k', v') :: d' =>
      if decide (k = k') then (k, v) :: d' else (k', v') :: kset k v d'
  end.

Definition kitem {K V} `{EqDecision K} (k : K) (d : list (K * V)) : res V :=
  match kget k d with
  | Some v => Ok v
  | None => Raise KeyError
  end.

(** [ArrayOnStackT] and [ary_to_concatenatability] *)
Abbreviation ArrayOnStackT := (list Call * Array)%type (only parsing).
Abbreviation AryToConcatenatability :=
  (list (ArrayOnStackT * Concatenatability)) (only parsing).

(** [_ConcatabilityCollector._record_concatability] *)
Definition _record_concatability (current_stack : list Call) (expr : Array)
    (concatenatability : Concatenatability)
    (ary_to_concatenatability : AryToConcatenatability)
    : res AryToConcatenatability :=
  let key := (current_stack, expr) in
  match kget key ary_to_concatenatability with
  | Some _ => Raise AssertionError
  | None => Ok (kset key concatenatability ary_to_concatenatability)
  end.

(** [ary.expr], an attribute of index lambdas *)
Definition expr_of (ary : Array) : res ScalarExprs.ScalarExpr :=
  match ary with
  | IndexLambda e _ _ _ _ => Ok e
  | _ => Raise AttributeError
  end.

(** [ary.expr for ary in arrays if ary.shape[axis] != 1], from left to
    right *)
Fixpoint exprs_where_longer (arrays : list Array) (axis : nat)
    : res (list ScalarExprs.ScalarExpr) :=
  match arrays with
  | [] => Ok []
  | ary :: rest =>
      len ← shape_at ary axis;
      if negb (len =? 1)
      then e ← expr_of ary;
           es ← exprs_where_longer rest axis;
           Ok (e :: es)
      else exprs_where_longer rest axis
  end.

Section ConcatabilityCollector.
#[local] Existing Instance ScalarExprs.ScalarExpr_EqDecision.

(** [to_index_lambda] is defined in
    [pytato/transform/lower_to_index_lambda.py], which is not among the
    sources; it is taken as given. *)
Variable to_index_lambda : Array -> Array.

(** [_ConcatabilityCollector._map_index_lambda_like], from its entry to the
    point where the concatenatabilities of the bindings are looked for: the
    concatenatability is recorded first, then the arrays are checked. *)
Definition _map_index_lambda_like_check (current_stack : list Call)
    (expr : Array) (concatenatability : Concatenatability)
    (exprs_from_other_calls : list Array)
    (ary_to_concatenatability : AryToConcatenatability)
    : res AryToConcatenatability :=
  ary_to_concatenatability ←
    _record_concatability current_stack expr concatenatability
      ary_to_concatenatability;
  let idx_lambda := to_index_lambda expr in
  let idx_lambdas_from_other_calls :=
    map to_index_lambda exprs_from_other_calls in
  match concatenatability with
  | ConcatableIfConstant =>
      _verify_arrays_same (idx_lambda :: idx_lambdas_from_other_calls);;
      Ok ary_to_concatenatability
  | ConcatableAlongAxis axis =>
      _verify_arrays_can_be_concated_along_axis
        (idx_lambda :: idx_lambdas_from_other_calls) ["dtype"] axis;;
      exprs ← exprs_where_longer
                (idx_lambda :: idx_lambdas_from_other_calls) axis;
      if negb (Nat.eqb (length (remove_dups exprs)) 1)
      then Raise InvalidConcatenatability
      else Ok ary_to_concatenatability
  end.

End ConcatabilityCollector.

(** [FunctionDefinition.get_placeholder] is defined in [pytato/function.py],
    which is not among the sources; [InputGatherer] in
    [pytato/transform/__init__.py], likewise.  Both are taken as given. *)
Class PytatoInterface : Type := {
  get_placeholder : FunctionDefinition -> string -> res Array;
  InputGatherer : Array -> list Array
}.

(** [_InputConcatenator.__call__] *)
Definition _InputConcatenator (inherit_axes : bool) (arrays : list Array)
    (axis : nat) : res Array :=
  let concat_axis_tag :=
    if inherit_axes then UseInputAxis (Some 0%nat) axis
    else ConcatenatedCallInputConcatAxisTag in
  a ← with_tagged_axis (concatenate arrays axis) axis [concat_axis_tag];
  Ok (tagged a ImplStored).

(** [_OutputSlicer._get_slice] *)
Definition _get_slice (inherit_axes : bool) (ary : Array) (axis : nat)
    (start_idx end_idx : Z) : res Array :=
  let indices := replicate (ndim ary) SliceAll in
  if decide (axis < length indices)%nat then
    let indices := <[axis := Slice start_idx end_idx]> indices in
    let slice_axis_tag :=
      if inherit_axes then UseInputAxis None axis
      else ConcatenatedCallOutputSliceAxisTag in
    a ← with_tagged_axis (getitem ary indices) axis [slice_axis_tag];
    Ok (tagged a ImplStored)
  else Raise IndexError.

(** The loop of [_OutputSlicer.__call__] from [islice = 1] on; [end_prev] is
    [end_indices[-1]]. *)
Fixpoint slice_bounds_from (end_prev : Z) (slice_sizes : list Z) : list (Z * Z) :=
  match slice_sizes with
  | [] => []
  | size :: rest =>
      (end_prev, end_prev + size) :: slice_bounds_from (end_prev + size) rest
  end.

(** [zip(start_indices, end_indices)] *)
Definition slice_bounds (slice_sizes : list Z) : list (Z * Z) :=
  match slice_sizes with
  | [] => []
  | size0 :: rest => (0, size0) :: slice_bounds_from size0 rest
  end.

(** [_OutputSlicer.__call__] *)
Definition _OutputSlicer (inherit_axes : bool) (ary : Array) (axis : nat)
    (slice_sizes : list Z) : res (list Array) :=
  mapM (fun '(start_idx, end_idx) =>
          _get_slice inherit_axes ary axis start_idx end_idx)
       (slice_bounds slice_sizes).

(** [_FunctionConcatenator.map_placeholder] and [map_data_wrapper], given the
    concatenatability recorded for [expr] *)
Definition _FunctionConcatenator_map_placeholder (concat : Concatenatability)
    (expr : Array) (exprs_from_other_calls : list Array) : res Array :=
  match concat with
  | ConcatableIfConstant => Ok expr
  | ConcatableAlongAxis axis =>
      new_shape ← _get_concatenated_shape (expr :: exprs_from_other_calls) axis;
      match expr with
      | Placeholder name _ d m => Ok (Placeholder name new_shape d m)
      | _ => Raise AttributeError
      end
  end.

Definition _FunctionConcatenator_map_data_wrapper (inherit_axes : bool)
    (concat : Concatenatability) (expr : Array)
    (exprs_from_other_calls : list Array) : res Array :=
  match concat with
  | ConcatableIfConstant => Ok expr
  | ConcatableAlongAxis axis =>
      _InputConcatenator inherit_axes (expr :: exprs_from_other_calls) axis
  end.

Section ReplacementMap.
Context `{PytatoInterface}.
Variable inherit_axes : bool.
Variable ary_to_concatenatability : AryToConcatenatability.
Variable call_sites : list Call.

(** [_get_replacement_map_post_concatenating], "construct new bindings":
    the body of the loop *)
Definition new_call_binding (template_call_site : Call) (param_name : string)
    : res Array :=
  param_placeholder ← get_placeholder (function template_call_site) param_name;
  param_concat ← kitem ([], param_placeholder) ary_to_concatenatability;
  match param_concat with
  | ConcatableAlongAxis axis =>
      param_bindings ← mapM (fun csite => binding param_name (bindings csite))
                            call_sites;
      _InputConcatenator inherit_axes param_bindings axis
  | ConcatableIfConstant => binding param_name (bindings template_call_site)
  end.

Definition new_call_bindings (template_call_site : Call) : res (Dict.t Array) :=
  foldM (fun new_call_bindings param_name =>
           new_binding ← new_call_binding template_call_site param_name;
           Ok (Dict.set param_name new_binding new_call_bindings))
        [] (Dict.keys (items (bindings template_call_site))).

(** "slice into new_call's outputs to replace the old expressions": the body
    of the loop *)
Definition replace_output (new_call : Call) (result : list (Array * Array))
    (output : string * Array) : res (list (Array * Array)) :=
  let '(output_name, output_ary) := output in
  concat ← kitem ([], output_ary) ary_to_concatenatability;
  let new_return := call_result new_call output_name in
  match concat with
  | ConcatableIfConstant =>
      Ok (foldl (fun result cs => kset (call_result cs output_name) new_return result)
                result call_sites)
  | ConcatableAlongAxis axis =>
      slice_sizes ← mapM (fun cs => shape_at (call_result cs output_name) axis)
                         call_sites;
      output_slices ← _OutputSlicer inherit_axes new_return axis slice_sizes;
      Ok (foldl (fun result '(cs, output_slice) =>
                   kset (call_result cs output_name) output_slice result)
                result (zip call_sites output_slices))
  end.

Definition replace_outputs (new_call : Call) : res (list (Array * Array)) :=
  match call_sites with
  | [] => Raise AssertionError
  | template_call_site :: _ =>
      foldM (replace_output new_call) []
            (items (returns (function template_call_site)))
  end.

End ReplacementMap.

(** The marker tags of the concatenation axis and of the slice axis. *)
Definition input_axis_tag (inherit_axes : bool) (axis : nat) : Tag :=
  if inherit_axes then UseInputAxis (Some 0%nat) axis
  else ConcatenatedCallInputConcatAxisTag.

Definition output_axis_tag (inherit_axes : bool) (axis : nat) : Tag :=
  if inherit_axes then UseInputAxis None axis
  else ConcatenatedCallOutputSliceAxisTag.

(** The axes and tags of a node just created ([n] untagged axes, no tags)
    after [with_tagged_axis(axis, {tag})] and [tagged(ImplStored())]. *)
Definition marked_meta (n : nat) (axis : nat) (tag : Tag) : Meta :=
  MkMeta (<[axis := MkAxis [tag]]> (replicate n (MkAxis []))) [ImplStored] [].

(** For the statements about the slices: the lengths along [axis] of the
    output [output_name] at the call sites, and the sum of the lengths at
    the call sites before the [i]-th. *)
Definition sum_list (l : list Z) : Z := foldr Z.add 0 l.

Definition output_lengths (call_sites : list Call) (output_name : string)
    (axis : nat) : list Z :=
  map (fun cs => axis_len (shape (call_result cs output_name)) axis) call_sites.

Definition slice_start (call_sites : list Call) (output_name : string)
    (axis : nat) (i : nat) : Z :=
  sum_list (take i (output_lengths call_sites output_name axis)).

(** The slice of the output [output_name] of [new_call] that stands for
    the output of the [i]-th call site [cs]: along [axis], from the sum of
    the lengths at the call sites before [cs] on, as long as the output of
    [cs]. *)
Definition expected_slice (inherit_axes : bool) (new_call : Call)
    (call_sites : list Call) (output_name : string) (axis : nat) (i : nat)
    (cs : Call) : Array :=
  let new_return := call_result new_call output_name in
  let start := slice_start call_sites output_name axis i in
  let len := axis_len (shape (call_result cs output_name)) axis in
  BasicIndex new_return
    (<[axis := Slice start (start + len)]> (replicate (ndim new_return) SliceAll))
    (marked_meta (ndim new_return) axis (output_axis_tag inherit_axes axis)).

(** What the replacement map [result] holds for the output [output_name],
    whose node in the template function is [output_ary]. *)
Definition output_replaced (inherit_axes : bool)
    (ary_to_concatenatability : AryToConcatenatability)
    (call_sites : list Call) (new_call : Call)
    (output_name : string) (output_ary : Array)
    (result : list (Array * Array)) : Prop :=
  match kget ([], output_ary) ary_to_concatenatability with
  | Some (ConcatableAlongAxis axis) =>
      forall i cs, call_sites !! i = Some cs ->
        (axis < ndim (call_result new_call output_name))%nat /\
        kget (call_result cs output_name) result
        = Some (expected_slice inherit_axes new_call call_sites output_name axis i cs)
  | Some ConcatableIfConstant =>
      forall cs, cs ∈ call_sites ->
        kget (call_result cs output_name) result
        = Some (call_result new_call output_name)
  | None => False
  end.

(** The shape test as a boolean: same number of dimensions as the first
    array, and the same length on every axis but [iaxis]. *)
Definition shapes_compatibleb (arrays : list Array) (iaxis : nat) : bool :=
  match arrays with
  | [] => false
  | template :: _ =>
      forallb (fun ary => Nat.eqb (ndim ary) (ndim template)) arrays
      && forallb
           (fun idim =>
              forallb (fun ary => Z.eqb (axis_len (shape ary) idim)
                                        (axis_len (shape template) idim))
                      arrays)
           (filter (fun idim => idim <> iaxis) (seq 0 (ndim template)))
  end.

(** The same as a proposition. *)
Definition shapes_compatible (arrays : list Array) (iaxis : nat) : Prop :=
  (forall a b, a ∈ arrays -> b ∈ arrays -> ndim a = ndim b) /\
  (forall a b idim, a ∈ arrays -> b ∈ arrays -> idim <> iaxis ->
                    shape a !! idim = shape b !! idim).

(** Every array has the field, with one value. *)
Definition field_agrees (arrays : list Array) (field : string) : Prop :=
  exists v, forall a, a ∈ arrays -> getattr a field = Ok v.

End Calls.

(** *** Call inlining ([pytato/transform/calls.py], [Inliner]) *)

Module Inlining.
Import Arrays.

(** [PlaceholderSubstitutor].  Modelled from the spec: the mapper extends
    [CopyMapper], defined in [pytato/transform/__init__.py], which is not
    among the sources; a copy mapper "returns a structurally-identical new
    DAG", each node rebuilt from its mapped children.  The two methods the
    class overrides are from the source: a placeholder becomes
    [substitutions[expr.name]], and a function definition is returned as it
    is, so that the bindings of a call are mapped and its function is not. *)
Fixpoint subst_array (substitutions : Bindings) (a : Array) : res Array :=
  match a with
  | Placeholder name _ _ _ => binding name substitutions
  | DataWrapper _ _ _ _ _ => Ok a
  | SizeParam _ _ => Ok a
  | IndexLambda e s d bs m =>
      bs' ← subst_bindings substitutions bs; Ok (IndexLambda e s d bs' m)
  | Concatenate l iaxis m =>
      l' ← subst_arrays substitutions l; Ok (Concatenate l' iaxis m)
  | BasicIndex a' idx m =>
      a'' ← subst_array substitutions a'; Ok (BasicIndex a'' idx m)
  | NamedCallResult c name =>
      c' ← subst_call substitutions c; Ok (NamedCallResult c' name)
  end
with subst_arrays (substitutions : Bindings) (l : Arrays) : res Arrays :=
  match l with
  | ANil => Ok ANil
  | ACons a rest =>
      a' ← subst_array substitutions a;
      rest' ← subst_arrays substitutions rest;
      Ok (ACons a' rest')
  end
with subst_bindings (substitutions : Bindings) (bs : Bindings) : res Bindings :=
  match bs with
  | BNil => Ok BNil
  | BCons name a rest =>
      a' ← subst_array substitutions a;
      rest' ← subst_bindings substitutions rest;
      Ok (BCons name a' rest')
  end
with subst_call (substitutions : Bindings) (c : Call) : res Call :=
  match c with
  | MkCall f bs t => bs' ← subst_bindings substitutions bs; Ok (MkCall f bs' t)
  end.

(** The outcome of a run that is given [fuel] steps. *)
Inductive run (A : Type) : Type :=
| Returns (a : A)
| Raises (e : exn)
| OutOfFuel.
Arguments Returns {A} a.
Arguments Raises {A} e.
Arguments OutOfFuel {A}.

Definition run_bind {A B} (c : run A) (k : A -> run B) : run B :=
  match c with
  | Returns a => k a
  | Raises e => Raises e
  | OutOfFuel => OutOfFuel
  end.

#[export] Instance run_ret : MRet run := fun A a => Returns a.
#[export] Instance run_mbind : MBind run := fun A B k c => run_bind c k.

Definition lift {A} (r : res A) : run A :=
  match r with
  | Ok a => Returns a
  | Raise e => Raises e
  end.

(** [Inliner].  [map_call] and [map_named_call_result] are from the source;
    the other nodes are copied as a [CopyMapper] copies them (see above).
    [self.rec(substitutor(ret))] is not a call on a part of the call that is
    being mapped, so the mapper is given fuel: every call of [rec] takes one
    step. *)
Fixpoint inline_array (fuel : nat) (a : Array) {struct fuel} : run Array :=
  match fuel with
  | O => OutOfFuel
  | S n =>
      match a with
      | Placeholder _ _ _ _ => Returns a
      | DataWrapper _ _ _ _ _ => Returns a
      | SizeParam _ _ => Returns a
      | IndexLambda e s d bs m =>
          bs' ← inline_bindings n bs; Returns (IndexLambda e s d bs' m)
      | Concatenate l iaxis m =>
          l' ← inline_arrays n l; Returns (Concatenate l' iaxis m)
      | BasicIndex a' idx m =>
          a'' ← inline_array n a'; Returns (BasicIndex a'' idx m)
      | NamedCallResult c name =>
          new_call_or_inlined_expr ← inline_call n c;
          match new_call_or_inlined_expr with
          | ACall new_call => Returns (call_result new_call name)
          | DictOfNamedArrays data _ => lift (binding name data)
          | AnArray _ => Raises AssertionError
          end
      end
  end
with inline_arrays (fuel : nat) (l : Arrays) {struct fuel} : run Arrays :=
  match fuel with
  | O => OutOfFuel
  | S n =>
      match l with
      | ANil => Returns ANil
      | ACons a rest =>
          a' ← inline_array n a;
          rest' ← inline_arrays n rest;
          Returns (ACons a' rest')
      end
  end
with inline_bindings (fuel : nat) (bs : Bindings) {struct fuel} : run Bindings :=
  match fuel with
  | O => OutOfFuel
  | S n =>
      match bs with
      | BNil => Returns BNil
      | BCons name a rest =>
          a' ← inline_array n a;
          rest' ← inline_bindings n rest;
          Returns (BCons name a' rest')
      end
  end
with inline_call (fuel : nat) (c : Call) {struct fuel} : run ArrayOrNames :=
  match fuel with
  | O => OutOfFuel
  | S n =>
      match c with
      | MkCall f bs t =>
          if has_InlineCallTag c then
            data ← inline_returns n bs (returns f);
            Returns (DictOfNamedArrays data t)
          else
            f' ← inline_function n f;
            bs' ← inline_bindings n bs;
            Returns (ACall (MkCall f' bs' t))
      end
  end
with inline_returns (fuel : nat) (substitutions : Bindings) (rets : Bindings)
    {struct fuel} : run Bindings :=
  match fuel with
  | O => OutOfFuel
  | S n =>
      match rets with
      | BNil => Returns BNil
      | BCons name ret rest =>
          substituted ← lift (subst_array substitutions ret);
          inlined ← inline_array n substituted;
          rest' ← inline_returns n substitutions rest;
          Returns (BCons name inlined rest')
      end
  end
with inline_function (fuel : nat) (f : FunctionDefinition) {struct fuel}
    : run FunctionDefinition :=
  match fuel with
  | O => OutOfFuel
  | S n =>
      match f with
      | MkFunctionDefinition ps rets t =>
          rets' ← inline_bindings n rets;
          Returns (MkFunctionDefinition ps rets' t)
      end
  end.

(** [inline_calls] *)
Definition inline_calls (fuel : nat) (expr : ArrayOrNames) : run ArrayOrNames :=
  match expr with
  | AnArray a => a' ← inline_array fuel a; Returns (AnArray a')
  | ACall c => inline_call fuel c
  | DictOfNamedArrays data t =>
      data' ← inline_bindings fuel data; Returns (DictOfNamedArrays data' t)
  end.

(** The size of a node; a call weighs its function times its bindings, which
    bounds what substituting the bindings into the returns can weigh. *)
Fixpoint weight (a : Array) : nat :=
  match a with
  | Placeholder _ _ _ _ => 1
  | DataWrapper _ _ _ _ _ => 1
  | SizeParam _ _ => 1
  | IndexLambda _ _ _ bs _ => 1 + weight_bindings bs
  | Concatenate l _ _ => 1 + weight_arrays l
  | BasicIndex a' _ _ => 1 + weight a'
  | NamedCallResult c _ => 1 + weight_call c
  end
with weight_arrays (l : Arrays) : nat :=
  match l with
  | ANil => 1
  | ACons a rest => 1 + weight a + weight_arrays rest
  end
with weight_bindings (bs : Bindings) : nat :=
  match bs with
  | BNil => 1
  | BCons _ a rest => 1 + weight a + weight_bindings rest
  end
with weight_call (c : Call) : nat :=
  match c with
  | MkCall f bs _ => 1 + weight_function f * (1 + weight_bindings bs)
  end
with weight_function (f : FunctionDefinition) : nat :=
  match f with
  | MkFunctionDefinition _ rets _ => 1 + weight_bindings rets
  end.

Definition weight_of (expr : ArrayOrNames) : nat :=
  match expr with
  | AnArray a => weight a
  | ACall c => weight_call c
  | DictOfNamedArrays data _ => weight_bindings data
  end.

(** The names of the placeholders of the current stack frame: those of the
    node and of the bindings of its calls, not those inside function
    definitions. *)
Fixpoint placeholders (a : Array) : list string :=
  match a with
  | Placeholder name _ _ _ => [name]
  | DataWrapper _ _ _ _ _ => []
  | SizeParam _ _ => []
  | IndexLambda _ _ _ bs _ => placeholders_bindings bs
  | Concatenate l _ _ => placeholders_arrays l
  | BasicIndex a' _ _ => placeholders a'
  | NamedCallResult c _ => placeholders_call c
  end
with placeholders_arrays (l : Arrays) : list string :=
  match l with
  | ANil => []
  | ACons a rest => placeholders a ++ placeholders_arrays rest
  end
with placeholders_bindings (bs : Bindings) : list string :=
  match bs with
  | BNil => []
  | BCons _ a rest => placeholders a ++ placeholders_bindings rest
  end
with placeholders_call (c : Call) : list string :=
  match c with
  | MkCall _ bs _ => placeholders_bindings bs
  end.

(** What inlining is to give, told of the nodes and not of the mappers.
    [substituted substitutions a a']: [a'] is [a] with every placeholder of
    the frame replaced by the binding of its name; the function of a call is
    left as it is. *)
Inductive substituted (substitutions : Bindings) : Array -> Array -> Prop :=
| substituted_placeholder name s d m b :
    Dict.get name (items substitutions) = Some b ->
    substituted substitutions (Placeholder name s d m) b
| substituted_data_wrapper name data s d m :
    substituted substitutions (DataWrapper name data s d m)
      (DataWrapper name data s d m)
| substituted_size_param name m :
    substituted substitutions (SizeParam name m) (SizeParam name m)
| substituted_index_lambda e s d bs bs' m :
    substituted_bindings substitutions bs bs' ->
    substituted substitutions (IndexLambda e s d bs m) (IndexLambda e s d bs' m)
| substituted_concatenate l l' iaxis m :
    substituted_arrays substitutions l l' ->
    substituted substitutions (Concatenate l iaxis m) (Concatenate l' iaxis m)
| substituted_basic_index a a' idx m :
    substituted substitutions a a' ->
    substituted substitutions (BasicIndex a idx m) (BasicIndex a' idx m)
| substituted_named_call_result f bs bs' t name :
    substituted_bindings substitutions bs bs' ->
    substituted substitutions (NamedCallResult (MkCall f bs t) name)
      (NamedCallResult (MkCall f bs' t) name)
with substituted_arrays (substitutions : Bindings) : Arrays -> Arrays -> Prop :=
| substituted_anil : substituted_arrays substitutions ANil ANil
| substituted_acons a a' rest rest' :
    substituted substitutions a a' ->
    substituted_arrays substitutions rest rest' ->
    substituted_arrays substitutions (ACons a rest) (ACons a' rest')
with substituted_bindings (substitutions : Bindings)
    : Bindings -> Bindings -> Prop :=
| substituted_bnil : substituted_bindings substitutions BNil BNil
| substituted_bcons name a a' rest rest' :
    substituted substitutions a a' ->
    substituted_bindings substitutions rest rest' ->
    substituted_bindings substitutions (BCons name a rest) (BCons name a' rest').

(** [inlined a a']: [a'] is [a] with every result of a call tagged
    [InlineCallTag] replaced, wherever it is in [a], by the return it names
    with the bindings of the call substituted for its placeholders, inlined
    in turn; a call without the tag is a call still, of the function and on
    the bindings inlined. *)
Inductive inlined : Array -> Array -> Prop :=
| inlined_placeholder name s d m :
    inlined (Placeholder name s d m) (Placeholder name s d m)
| inlined_data_wrapper name data s d m :
    inlined (DataWrapper name data s d m) (DataWrapper name data s d m)
| inlined_size_param name m :
    inlined (SizeParam name m) (SizeParam name m)
| inlined_index_lambda e s d bs bs' m :
    inlined_bindings bs bs' ->
    inlined (IndexLambda e s d bs m) (IndexLambda e s d bs' m)
| inlined_concatenate l l' iaxis m :
    inlined_arrays l l' ->
    inlined (Concatenate l iaxis m) (Concatenate l' iaxis m)
| inlined_basic_index a a' idx m :
    inlined a a' ->
    inlined (BasicIndex a idx m) (BasicIndex a' idx m)
| inlined_result_of_tagged_call f bs t name ret ret_substituted v :
    InlineCallTag ∈ t ->
    Dict.get name (items (returns f)) = Some ret ->
    substituted bs ret ret_substituted ->
    inlined ret_substituted v ->
    inlined (NamedCallResult (MkCall f bs t) name) v
| inlined_result_of_untagged_call f f' bs bs' t name :
    InlineCallTag ∉ t ->
    inlined_function f f' ->
    inlined_bindings bs bs' ->
    inlined (NamedCallResult (MkCall f bs t) name)
      (NamedCallResult (MkCall f' bs' t) name)
with inlined_arrays : Arrays -> Arrays -> Prop :=
| inlined_anil : inlined_arrays ANil ANil
| inlined_acons a a' rest rest' :
    inlined a a' ->
    inlined_arrays rest rest' ->
    inlined_arrays (ACons a rest) (ACons a' rest')
with inlined_bindings : Bindings -> Bindings -> Prop :=
| inlined_bnil : inlined_bindings BNil BNil
| inlined_bcons name a a' rest rest' :
    inlined a a' ->
    inlined_bindings rest rest' ->
    inlined_bindings (BCons name a rest) (BCons name a' rest')
with inlined_function : FunctionDefinition -> FunctionDefinition -> Prop :=
| inlined_function_definition ps rets rets' t :
    inlined_bindings rets rets' ->
    inlined_function (MkFunctionDefinition ps rets t)
      (MkFunctionDefinition ps rets' t).

Scheme inlined_mut := Minimality for inlined Sort Prop
with inlined_arrays_mut := Minimality for inlined_arrays Sort Prop
with inlined_bindings_mut := Minimality for inlined_bindings Sort Prop
with inlined_function_mut := Minimality for inlined_function Sort Prop.

Combined Scheme inlined_mutind from
  inlined_mut, inlined_arrays_mut, inlined_bindings_mut, inlined_function_mut.

(** The entries a tagged call on the bindings [substitutions] is replaced
    by: name by name, the return substituted and inlined. *)
Inductive inlined_returns (substitutions : Bindings)
    : Bindings -> Bindings -> Prop :=
| inlined_returns_nil : inlined_returns substitutions BNil BNil
| inlined_returns_cons name ret ret_substituted v rest rest' :
    substituted substitutions ret ret_substituted ->
    inlined ret_substituted v ->
    inlined_returns substitutions rest rest' ->
    inlined_returns substitutions (BCons name ret rest) (BCons name v rest').

Inductive inlined_expr : ArrayOrNames -> ArrayOrNames -> Prop :=
| inlined_an_array a a' :
    inlined a a' -> inlined_expr (AnArray a) (AnArray a')
| inlined_dict_of_named_arrays data data' t :
    inlined_bindings data data' ->
    inlined_expr (DictOfNamedArrays data t) (DictOfNamedArrays data' t)
| inlined_tagged_call f bs t data :
    InlineCallTag ∈ t ->
    inlined_returns bs (returns f) data ->
    inlined_expr (ACall (MkCall f bs t)) (DictOfNamedArrays data t)
| inlined_untagged_call f f' bs bs' t :
    InlineCallTag ∉ t ->
    inlined_function f f' ->
    inlined_bindings bs bs' ->
    inlined_expr (ACall (MkCall f bs t)) (ACall (MkCall f' bs' t)).

(** An expression is well formed when every call binds the placeholders of
    the returns of its function and every result of a call names a return
    of the function. *)
Fixpoint well_formed (a : Array) : bool :=
  match a with
  | Placeholder _ _ _ _ => true
  | DataWrapper _ _ _ _ _ => true
  | SizeParam _ _ => true
  | IndexLambda _ _ _ bs _ => well_formed_bindings bs
  | Concatenate l _ _ => well_formed_arrays l
  | BasicIndex a' _ _ => well_formed a'
  | NamedCallResult c name =>
      well_formed_call c && Dict.mem name (items (returns (function c)))
  end
with well_formed_arrays (l : Arrays) : bool :=
  match l with
  | ANil => true
  | ACons a rest => well_formed a && well_formed_arrays rest
  end
with well_formed_bindings (bs : Bindings) : bool :=
  match bs with
  | BNil => true
  | BCons _ a rest => well_formed a && well_formed_bindings rest
  end
with well_formed_call (c : Call) : bool :=
  match c with
  | MkCall f bs _ =>
      well_formed_function f && well_formed_bindings bs
      && forallb (fun name => Dict.mem name (items bs))
                 (placeholders_bindings (returns f))
  end
with well_formed_function (f : FunctionDefinition) : bool :=
  match f with
  | MkFunctionDefinition _ rets _ => well_formed_bindings rets
  end.

Definition well_formed_expr (expr : ArrayOrNames) : bool :=
  match expr with
  | AnArray a => well_formed a
  | ACall c => well_formed_call c
  | DictOfNamedArrays data _ => well_formed_bindings data
  end.

End Inlining.

(** *** Tagging calls for inlining
        ([pytato/transform/calls.py], [tag_all_calls_to_be_inlined]) *)

Module Marking.
Import Arrays Inlining.

(** [InlineMarker].  [map_call] is from the source: the call is copied, its
    function and bindings mapped, and tagged [InlineCallTag] unless it has
    the tag.  The other nodes are copied as a [CopyMapper] copies them. *)
Fixpoint mark_array (a : Array) : Array :=
  match a with
  | Placeholder _ _ _ _ => a
  | DataWrapper _ _ _ _ _ => a
  | SizeParam _ _ => a
  | IndexLambda e s d bs m => IndexLambda e s d (mark_bindings bs) m
  | Concatenate l iaxis m => Concatenate (mark_arrays l) iaxis m
  | BasicIndex a' idx m => BasicIndex (mark_array a') idx m
  | NamedCallResult c name => NamedCallResult (mark_call c) name
  end
with mark_arrays (l : Arrays) : Arrays :=
  match l with
  | ANil => ANil
  | ACons a rest => ACons (mark_array a) (mark_arrays rest)
  end
with mark_bindings (bs : Bindings) : Bindings :=
  match bs with
  | BNil => BNil
  | BCons name a rest => BCons name (mark_array a) (mark_bindings rest)
  end
with mark_call (c : Call) : Call :=
  match c with
  | MkCall f bs t =>
      MkCall (mark_function f) (mark_bindings bs)
        (if bool_decide (InlineCallTag ∈ t) then t else add_tag InlineCallTag t)
  end
with mark_function (f : FunctionDefinition) : FunctionDefinition :=
  match f with
  | MkFunctionDefinition ps rets t => MkFunctionDefinition ps (mark_bindings rets) t
  end.

(** [tag_all_calls_to_be_inlined] *)
Definition tag_all_calls_to_be_inlined (expr : ArrayOrNames) : ArrayOrNames :=
  match expr with
  | AnArray a => AnArray (mark_array a)
  | ACall c => ACall (mark_call c)
  | DictOfNamedArrays data t => DictOfNamedArrays (mark_bindings data) t
  end.

(** [tagged_calls with_tag a]: every call in [a], those in the bindings and
    in the function bodies of its calls included, has [InlineCallTag] (for
    [with_tag = true]) or has it not (for [with_tag = false]). *)
Fixpoint tagged_calls (with_tag : bool) (a : Array) : bool :=
  match a with
  | Placeholder _ _ _ _ => true
  | DataWrapper _ _ _ _ _ => true
  | SizeParam _ _ => true
  | IndexLambda _ _ _ bs _ => tagged_calls_bindings with_tag bs
  | Concatenate l _ _ => tagged_calls_arrays with_tag l
  | BasicIndex a' _ _ => tagged_calls with_tag a'
  | NamedCallResult c _ => tagged_calls_call with_tag c
  end
with tagged_calls_arrays (with_tag : bool) (l : Arrays) : bool :=
  match l with
  | ANil => true
  | ACons a rest => tagged_calls with_tag a && tagged_calls_arrays with_tag rest
  end
with tagged_calls_bindings (with_tag : bool) (bs : Bindings) : bool :=
  match bs with
  | BNil => true
  | BCons _ a rest => tagged_calls with_tag a && tagged_calls_bindings with_tag rest
  end
with tagged_calls_call (with_tag : bool) (c : Call) : bool :=
  match c with
  | MkCall f bs t =>
      Bool.eqb (bool_decide (InlineCallTag ∈ t)) with_tag
      && tagged_calls_function with_tag f
      && tagged_calls_bindings with_tag bs
  end
with tagged_calls_function (with_tag : bool) (f : FunctionDefinition) : bool :=
  match f with
  | MkFunctionDefinition _ rets _ => tagged_calls_bindings with_tag rets
  end.

Definition tagged_calls_of (with_tag : bool) (expr : ArrayOrNames) : bool :=
  match expr with
  | AnArray a => tagged_calls with_tag a
  | ACall c => tagged_calls_call with_tag c
  | DictOfNamedArrays data _ => tagged_calls_bindings with_tag data
  end.

(** [call_free a]: no [NamedCallResult] in [a]. *)
Fixpoint call_free (a : Array) : bool :=
  match a with
  | Placeholder _ _ _ _ => true
  | DataWrapper _ _ _ _ _ => true
  | SizeParam _ _ => true
  | IndexLambda _ _ _ bs _ => call_free_bindings bs
  | Concatenate l _ _ => call_free_arrays l
  | BasicIndex a' _ _ => call_free a'
  | NamedCallResult _ _ => false
  end
with call_free_arrays (l : Arrays) : bool :=
  match l with
  | ANil => true
  | ACons a rest => call_free a && call_free_arrays rest
  end
with call_free_bindings (bs : Bindings) : bool :=
  match bs with
  | BNil => true
  | BCons _ a rest => call_free a && call_free_bindings rest
  end.

Definition call_free_of (expr : ArrayOrNames) : bool :=
  match expr with
  | AnArray a => call_free a
  | ACall _ => false
  | DictOfNamedArrays data _ => call_free_bindings data
  end.

End Marking.

(** *** The batches of [concatenate_calls] ([pytato/transform/calls.py]) *)

Module Batching.
Import Arrays Calls.

Record CallSiteLocation : Type := MkCallSiteLocation {
  call : Call;
  stack : list Call
}.

#[export] Instance CallSiteLocation_eq_dec : EqDecision CallSiteLocation.
Proof. solve_decision. Defined.

(** [get_axis0_len]: the length along axis 0 of the first output, all the
    outputs being asserted to have it. *)
Definition get_axis0_len (cs : CallSiteLocation) : res Z :=
  let names := Dict.keys (items (returns (function (call cs)))) in
  match names with
  | [] => Raise StopIteration
  | first_out_name :: _ =>
      axis0_len ← shape_at (call_result (call cs) first_out_name) 0;
      same ← allM (fun name =>
                     len ← shape_at (call_result (call cs) name) 0;
                     Ok (Z.eqb len axis0_len))
                  names;
      if same : bool then Ok axis0_len else Raise AssertionError
  end.

(** [sorted(l, key=key)]: the keys are computed first, from left to right;
    the sort is stable, elements of equal key keep the order of [l]. *)
Fixpoint insert_by_key {A} (k : Z) (x : A) (l : list (Z * A)) : list (Z * A) :=
  match l with
  | [] => [(k, x)]
  | (k', x') :: l' =>
      if k <=? k' then (k, x) :: l else (k', x') :: insert_by_key k x l'
  end.

Definition sort_by_key {A} (l : list (Z * A)) : list (Z * A) :=
  foldr (fun kx => insert_by_key kx.1 kx.2) [] l.

Definition sorted {A} (key : A -> res Z) (l : list A) : res (list A) :=
  decorated ← mapM (fun x => k ← key x; Ok (k, x)) l;
  Ok (map snd (sort_by_key decorated)).

(** [batch_call_sites = sorted(similar_call_sites, key=get_axis0_len)], on the
    call sites in the order in which the set is iterated *)
Definition batch_call_sites (similar_call_sites : list CallSiteLocation)
    : res (list CallSiteLocation) :=
  sorted get_axis0_len similar_call_sites.

Section Loop.

(** A set of call sites is the list of its elements; [set_iter] gives the
    order in which [iter] goes through a set, which Python leaves to the
    hashes of the elements. *)
Variable set_iter : list CallSiteLocation -> list CallSiteLocation.

(** [call_site_to_dep_call_sites], as the dependency collector leaves it,
    and [SimilarityComparer], of [pytato/equality.py], are parameters. *)
Variable call_site_to_dep_call_sites :
  list (CallSiteLocation * list CallSiteLocation).
Variable similarity_comparer : Array -> Array -> bool.

(** [not call_site_to_dep_call_sites[cs] & unbatched_call_sites]; the call
    sites not yet in a batch are keys of the dictionary. *)
Definition is_ready (unbatched_call_sites : list CallSiteLocation)
    (cs : CallSiteLocation) : bool :=
  forallb (fun dep => negb (bool_decide (dep ∈ unbatched_call_sites)))
          (default [] (kget cs call_site_to_dep_call_sites)).

Definition is_similar (template_call_site cs : CallSiteLocation) : bool :=
  let rets := items (returns (function (call cs))) in
  let template_rets := items (returns (function (call template_call_site))) in
  forallb (fun name => Dict.mem name template_rets) (Dict.keys rets)
  && forallb (fun name => Dict.mem name rets) (Dict.keys template_rets)
  && forallb (fun name =>
                match Dict.get name rets, Dict.get name template_rets with
                | Some ret, Some template_ret => similarity_comparer ret template_ret
                | _, _ => false
                end)
             (Dict.keys template_rets)
  && bool_decide (stack cs = stack template_call_site).

(** The body of the [while unbatched_call_sites] loop *)
Definition next_batch (unbatched_call_sites : list CallSiteLocation)
    : res (list CallSiteLocation) :=
  let ready_call_sites :=
    filter (fun cs => is_ready unbatched_call_sites cs = true)
           unbatched_call_sites in
  match set_iter ready_call_sites with
  | [] => Raise ValueError
  | template_call_site :: _ =>
      let similar_call_sites :=
        filter (fun cs => is_similar template_call_site cs = true)
               ready_call_sites in
      match similar_call_sites with
      | [] => Raise ValueError
      | _ => batch_call_sites (set_iter similar_call_sites)
      end
  end.

(** The loop, run for at most [fuel] batches *)
Fixpoint call_site_batches (fuel : nat)
    (unbatched_call_sites : list CallSiteLocation)
    : Inlining.run (list (list CallSiteLocation)) :=
  match unbatched_call_sites, fuel with
  | [], _ => Inlining.Returns []
  | _, O => Inlining.OutOfFuel
  | _, S fuel' =>
      match next_batch unbatched_call_sites with
      | Raise e => Inlining.Raises e
      | Ok batch =>
          match call_site_batches fuel'
                  (list_difference unbatched_call_sites batch) with
          | Inlining.Returns rest => Inlining.Returns (batch :: rest)
          | r => r
          end
      end
  end.

End Loop.

(** Ascending order of the keys *)
Definition key_le {A} (p q : Z * A) : Prop := p.1 <= q.1.

End Batching.

(** *** The dependencies between call sites
        ([pytato/transform/calls.py], [CallSiteDependencyCollector]) *)

Module Dependencies.
Import Arrays Calls Batching.

Abbreviation Deps :=
  (list (CallSiteLocation * list CallSiteLocation)) (only parsing).

(** [d.update(other)] *)
Definition update (d other : Deps) : Deps :=
  foldl (fun d kv => kset kv.1 kv.2 d) d other.

(** [CallSiteDependencyCollector], as a function of the stack and of the
    mapper's dictionary [call_site_to_dep_call_sites], which it returns
    updated beside the set of call sites.  [map_call], [map_size_param] and
    [combine], the union of the sets, are from the source.  Modelled from
    the spec: the other nodes are mapped as a [CombineMapper] of
    [pytato/transform/__init__.py] maps them, to the combination of what
    their arrays are mapped to; an input has none. *)
Fixpoint call_sites (stack : list Call) (a : Array) (acc : Deps)
    : list CallSiteLocation * Deps :=
  match a with
  | Placeholder _ _ _ _ => ([], acc)
  | DataWrapper _ _ _ _ _ => ([], acc)
  | SizeParam _ _ => ([], acc)
  | IndexLambda _ _ _ bs _ => call_sites_bindings stack bs acc
  | Concatenate l _ _ => call_sites_arrays stack l acc
  | BasicIndex a' _ _ => call_sites stack a' acc
  | NamedCallResult c _ => call_sites_call stack c acc
  end
with call_sites_arrays (stack : list Call) (l : Arrays) (acc : Deps)
    : list CallSiteLocation * Deps :=
  match l with
  | ANil => ([], acc)
  | ACons a rest =>
      let '(s1, acc1) := call_sites stack a acc in
      let '(s2, acc2) := call_sites_arrays stack rest acc1 in
      (list_union s1 s2, acc2)
  end
with call_sites_bindings (stack : list Call) (bs : Bindings) (acc : Deps)
    : list CallSiteLocation * Deps :=
  match bs with
  | BNil => ([], acc)
  | BCons _ a rest =>
      let '(s1, acc1) := call_sites stack a acc in
      let '(s2, acc2) := call_sites_bindings stack rest acc1 in
      (list_union s1 s2, acc2)
  end
with call_sites_call (stack : list Call) (c : Call) (acc : Deps)
    : list CallSiteLocation * Deps :=
  match c with
  | MkCall f bs t =>
      let expr := MkCall f bs t in
      let cs := MkCallSiteLocation expr stack in
      let '(from_bindings, acc1) := call_sites_bindings stack bs acc in
      let '(from_returns, fn_acc) := call_sites_function (stack ++ [expr]) f in
      let dependent_call_sites := list_union from_bindings from_returns in
      (list_union [cs] dependent_call_sites,
       update (kset cs dependent_call_sites acc1) fn_acc)
  end
with call_sites_function (stack : list Call) (f : FunctionDefinition)
    : list CallSiteLocation * Deps :=
  match f with
  | MkFunctionDefinition _ rets _ => call_sites_bindings stack rets []
  end.

(** [CallSiteDependencyCollector(stack=())(expr)] and the dictionary it
    leaves *)
Definition CallSiteDependencyCollector (expr : ArrayOrNames)
    : list CallSiteLocation * Deps :=
  match expr with
  | AnArray a => call_sites [] a []
  | ACall c => call_sites_call [] c []
  | DictOfNamedArrays data _ => call_sites_bindings [] data []
  end.

(** The weight of the call of a call site *)
Definition site_weight (cs : CallSiteLocation) : nat :=
  Inlining.weight_call (call cs).

(** [closed d]: the call sites a key depends on are keys, and weigh less
    than it. *)
Definition closed (d : Deps) : Prop :=
  forall cs deps, kget cs d = Some deps ->
    forall dep, dep ∈ deps ->
      is_Some (kget dep d) /\ (site_weight dep < site_weight cs)%nat.

(** The entries of a dictionary are well formed: what an entry depends on
    is a key and weighs less. *)
Definition entries_closed (d : list (CallSiteLocation * list CallSiteLocation))
    : Prop :=
  forall e, e ∈ d ->
    forall dep, dep ∈ e.2 -> dep ∈ d.*1 /\ (site_weight dep < site_weight e.1)%nat.

End Dependencies.

(** *** The constraints on the inputs of an expression
        ([pytato/transform/calls.py], [_combine_input_accs]) *)

Module ConcatAccs.
Import ScalarExprs Arrays Calls.

Abbreviation InputConcat := (list (Array * Concatenatability)) (only parsing).

(** [_InputConcatabilityGetterAcc] *)
Record _InputConcatabilityGetterAcc : Type := Mk_InputConcatabilityGetterAcc {
  seen_inputs : list Array;
  input_concatability : list (Concatenatability * list (Array * Concatenatability))
}.

(** [frozenset(l) == frozenset(k)] *)
Definition same_set (l k : list Array) : bool :=
  forallb (fun x => bool_decide (x ∈ k)) l
  && forallb (fun x => bool_decide (x ∈ l)) k.

(** The assertion of [__post_init__] *)
Definition post_init_holds (seen_inputs : list Array)
    (input_concatability : list (Concatenatability * list (Array * Concatenatability)))
    : bool :=
  forallb (fun kv => same_set (kv.2.*1) seen_inputs) input_concatability.

(** [_InputConcatabilityGetterAcc(seen_inputs, input_concatability)] *)
Definition new_acc (seen_inputs : list Array)
    (input_concatability : list (Concatenatability * list (Array * Concatenatability)))
    : res _InputConcatabilityGetterAcc :=
  if post_init_holds seen_inputs input_concatability
  then Ok (Mk_InputConcatabilityGetterAcc seen_inputs input_concatability)
  else Raise AssertionError.

(** [_InputConcatabilityGetter._map_input_arg_base] *)
Definition _InputConcatabilityGetter_map_input_arg_base (expr : Array)
    : res _InputConcatabilityGetterAcc :=
  let input_concatenatability :=
    foldl (fun d idim =>
             kset (ConcatableAlongAxis idim) [(expr, ConcatableAlongAxis idim)] d)
          [] (seq 0 (ndim expr)) in
  let input_concatenatability :=
    kset ConcatableIfConstant [(expr, ConcatableIfConstant)]
         input_concatenatability in
  new_acc [expr] input_concatenatability.

(** [_combine_input_accs], the loop over the items of an operand's mapping:
    [None] when the loop is left by [break] *)
Fixpoint merge_input_concats (items : list (Array * Concatenatability))
    (input_concatability : list (Array * Concatenatability))
    : option (list (Array * Concatenatability)) :=
  match items with
  | [] => Some input_concatability
  | (input_arg, input_concat) :: rest =>
      match kget input_arg input_concatability with
      | Some c =>
          if decide (c = input_concat)
          then merge_input_concats rest input_concatability
          else None
      | None =>
          merge_input_concats rest
            (kset input_arg input_concat input_concatability)
      end
  end.

(** The loop over [zip(operand_concatabilities, operand_accs, strict=True)] *)
Fixpoint combine_operands (operand_concatabilities : list Concatenatability)
    (operand_accs : list _InputConcatabilityGetterAcc)
    (input_concatability : list (Array * Concatenatability))
    : res (option (list (Array * Concatenatability))) :=
  match operand_concatabilities, operand_accs with
  | [], [] => Ok (Some input_concatability)
  | operand_concatability :: ocs, operand_acc :: accs =>
      match kget operand_concatability
                 (ConcatAccs.input_concatability operand_acc) with
      | None => Ok None
      | Some items =>
          match merge_input_concats items input_concatability with
          | None => Ok None
          | Some input_concatability' =>
              combine_operands ocs accs input_concatability'
          end
      end
  | _, _ => Raise ValueError
  end.

(** [reduce(frozenset.union, sets, frozenset())] *)
Definition union_all (sets : list (list Array)) : list Array :=
  foldl list_union [] sets.

Definition _combine_input_accs
    (operand_accs : list _InputConcatabilityGetterAcc)
    (concat_to_operand_concatabilities :
       list (Concatenatability * list Concatenatability))
    : res _InputConcatabilityGetterAcc :=
  let seen_inputs := union_all (map ConcatAccs.seen_inputs operand_accs) in
  input_concatabilities ←
    foldM (fun input_concatabilities kv =>
             r ← combine_operands kv.2 operand_accs [];
             match r with
             | Some input_concatability =>
                 Ok (kset kv.1 input_concatability input_concatabilities)
             | None => Ok input_concatabilities
             end)
          [] concat_to_operand_concatabilities;
  new_acc seen_inputs input_concatabilities.

(** The mapping [m] agrees with what the operands ask for under the
    concatenatabilities [ocs]: each operand has a mapping for its
    concatenatability, and [m] has its entries. *)
Definition agrees_with_operands (m : list (Array * Concatenatability))
    (ocs : list Concatenatability)
    (operand_accs : list _InputConcatabilityGetterAcc) : Prop :=
  Forall2 (fun oc acc =>
             exists items,
               kget oc (input_concatability acc) = Some items
               /\ forall x c, (x, c) ∈ items -> kget x m = Some c)
          ocs operand_accs.

End ConcatAccs.

(** *** Zeroing unused call bindings
        ([pytato/transform/calls.py], [zero_unused_call_bindings]) *)

Module ZeroUnused.
Import Arrays Calls.

(** [call_to_used_inputs]: for a call, the set of input arguments that the
    returns in use gather *)
Abbreviation UsedInputs := (list (Call * list Array)) (only parsing).

Definition used_inputs_of (call_to_used_inputs : UsedInputs) (call : Call)
    : list Array :=
  default [] (kget call call_to_used_inputs).

(** [used_inputs = d.setdefault(call, set()); used_inputs |= inputs] *)
Definition add_used (call : Call) (inputs : list Array)
    (call_to_used_inputs : UsedInputs) : UsedInputs :=
  kset call (used_inputs_of call_to_used_inputs call ++ inputs)
       call_to_used_inputs.

Section WithInterface.
Context `{PytatoInterface}.

(** [_UsedCallInputCollector].  [map_named_call_result] and the fresh
    [call_to_used_inputs] of [clone_for_callee] are from the source.
    Modelled from the spec: the walk itself is that of [CachedWalkMapper],
    defined in [pytato/transform/__init__.py], which is not among the
    sources: it "visits without producing output" and crosses "into
    function bodies via a dedicated [clone_for_callee]"; at a call it walks
    the function with the clone and the bindings with the mapper itself.
    The cache only saves visits, the sets being joined. *)
Fixpoint collect_array (acc : UsedInputs) (a : Array) : res UsedInputs :=
  match a with
  | Placeholder _ _ _ _ => Ok acc
  | DataWrapper _ _ _ _ _ => Ok acc
  | SizeParam _ _ => Ok acc
  | IndexLambda _ _ _ bs _ => collect_bindings acc bs
  | Concatenate l _ _ => collect_arrays acc l
  | BasicIndex a' _ _ => collect_array acc a'
  | NamedCallResult call name =>
      ret ← binding name (returns (function call));
      collect_call (add_used call (InputGatherer ret) acc) call
  end
with collect_arrays (acc : UsedInputs) (l : Arrays) : res UsedInputs :=
  match l with
  | ANil => Ok acc
  | ACons a rest => acc' ← collect_array acc a; collect_arrays acc' rest
  end
with collect_bindings (acc : UsedInputs) (bs : Bindings) : res UsedInputs :=
  match bs with
  | BNil => Ok acc
  | BCons _ a rest => acc' ← collect_array acc a; collect_bindings acc' rest
  end
with collect_call (acc : UsedInputs) (c : Call) : res UsedInputs :=
  match c with
  | MkCall f bs _ =>
      _ ← collect_function f;
      collect_bindings acc bs
  end
with collect_function (f : FunctionDefinition) : res unit :=
  match f with
  | MkFunctionDefinition _ rets _ =>
      _ ← collect_bindings [] rets; Ok tt
  end.

(** [_collect_used_call_inputs] *)
Definition _collect_used_call_inputs (expr : ArrayOrNames) : res UsedInputs :=
  match expr with
  | AnArray a => collect_array [] a
  | ACall c => collect_call [] c
  | DictOfNamedArrays data _ => collect_bindings [] data
  end.

(** [_UnusedCallBindingZeroer].  [map_call] is from the source; the other
    nodes are copied as a [CopyMapper] copies them, function definitions
    with a clone that has the same [call_to_used_inputs]. *)
Fixpoint zero_array (used : UsedInputs) (a : Array) : res Array :=
  match a with
  | Placeholder _ _ _ _ => Ok a
  | DataWrapper _ _ _ _ _ => Ok a
  | SizeParam _ _ => Ok a
  | IndexLambda e s d bs m =>
      bs' ← zero_bindings used bs; Ok (IndexLambda e s d bs' m)
  | Concatenate l iaxis m =>
      l' ← zero_arrays used l; Ok (Concatenate l' iaxis m)
  | BasicIndex a' idx m =>
      a'' ← zero_array used a'; Ok (BasicIndex a'' idx m)
  | NamedCallResult c name =>
      c' ← zero_call used c; Ok (NamedCallResult c' name)
  end
with zero_arrays (used : UsedInputs) (l : Arrays) : res Arrays :=
  match l with
  | ANil => Ok ANil
  | ACons a rest =>
      a' ← zero_array used a; rest' ← zero_arrays used rest; Ok (ACons a' rest')
  end
with zero_bindings (used : UsedInputs) (bs : Bindings) : res Bindings :=
  match bs with
  | BNil => Ok BNil
  | BCons name a rest =>
      a' ← zero_array used a; rest' ← zero_bindings used rest;
      Ok (BCons name a' rest')
  end
with zero_call (used : UsedInputs) (expr : Call) : res Call :=
  match expr with
  | MkCall f bs t =>
      new_function ← zero_function used f;
      new_bindings ← zero_call_bindings used (MkCall f bs t) bs;
      Ok (MkCall new_function new_bindings t)
  end
with zero_call_bindings (used : UsedInputs) (expr : Call) (bs : Bindings)
    : res Bindings :=
  match bs with
  | BNil => Ok BNil
  | BCons name bnd rest =>
      param ← get_placeholder (function expr) name;
      used_inputs ← kitem expr used;
      new_bnd ← (if bool_decide (param ∈ used_inputs)
                 then zero_array used bnd
                 else Ok (zeros (shape bnd) (dtype bnd)));
      rest' ← zero_call_bindings used expr rest;
      Ok (BCons name new_bnd rest')
  end
with zero_function (used : UsedInputs) (f : FunctionDefinition)
    : res FunctionDefinition :=
  match f with
  | MkFunctionDefinition ps rets t =>
      rets' ← zero_bindings used rets; Ok (MkFunctionDefinition ps rets' t)
  end.

Definition zero_expr (used : UsedInputs) (expr : ArrayOrNames) : res ArrayOrNames :=
  match expr with
  | AnArray a => a' ← zero_array used a; Ok (AnArray a')
  | ACall c => c' ← zero_call used c; Ok (ACall c')
  | DictOfNamedArrays data t =>
      data' ← zero_bindings used data; Ok (DictOfNamedArrays data' t)
  end.

Definition zero_unused_call_bindings (expr : ArrayOrNames) : res ArrayOrNames :=
  call_to_used_inputs ← _collect_used_call_inputs expr;
  zero_expr call_to_used_inputs expr.

End WithInterface.

(** The results of calls, [call[name]], in the stack frame of a node: those
    in the node and in the bindings of its calls, not those inside function
    definitions. *)
Fixpoint results (a : Array) : list (Call * string) :=
  match a with
  | Placeholder _ _ _ _ => []
  | DataWrapper _ _ _ _ _ => []
  | SizeParam _ _ => []
  | IndexLambda _ _ _ bs _ => results_bindings bs
  | Concatenate l _ _ => results_arrays l
  | BasicIndex a' _ _ => results a'
  | NamedCallResult c name => (c, name) :: results_call c
  end
with results_arrays (l : Arrays) : list (Call * string) :=
  match l with
  | ANil => []
  | ACons a rest => results a ++ results_arrays rest
  end
with results_bindings (bs : Bindings) : list (Call * string) :=
  match bs with
  | BNil => []
  | BCons _ a rest => results a ++ results_bindings rest
  end
with results_call (c : Call) : list (Call * string) :=
  match c with
  | MkCall _ bs _ => results_bindings bs
  end.

Definition results_of (expr : ArrayOrNames) : list (Call * string) :=
  match expr with
  | AnArray a => results a
  | ACall c => results_call c
  | DictOfNamedArrays data _ => results_bindings data
  end.

(** [gathered rs call p]: the input argument [p] is gathered from a return
    of [call] that one of the results [rs] names. *)
Definition gathered `{PytatoInterface} (rs : list (Call * string))
    (call : Call) (p : Array) : Prop :=
  exists name ret,
    (call, name) ∈ rs /\
    binding name (returns (function call)) = Ok ret /\
    p ∈ InputGatherer ret.

(** How [_UnusedCallBindingZeroer.map_call] rewrites one binding of [expr]. *)
Definition binding_rewritten `{PytatoInterface} (used : list (Call * list Array))
    (expr : Call) (old new : string * Array) : Prop :=
  old.1 = new.1 /\
  exists param used_inputs,
    get_placeholder (function expr) old.1 = Ok param /\
    kget expr used = Some used_inputs /\
    if bool_decide (param ∈ used_inputs)
    then zero_array used old.2 = Ok new.2
    else new.2 = zeros (shape old.2) (dtype old.2).

(** The specification of the rewrite, as a relation between an expression
    and its image: every node is copied, except that at a call a binding
    whose parameter is not among the inputs [used_by] the call is replaced by
    zeros of the binding's shape and dtype, and a binding whose parameter is
    among them is rewritten in turn. *)
Section Zeroed.
Context `{PytatoInterface}.
Variable used_by : Call -> Array -> Prop.

Inductive zeroed : Array -> Array -> Prop :=
| zeroed_placeholder name s d m :
    zeroed (Placeholder name s d m) (Placeholder name s d m)
| zeroed_data_wrapper name x s d m :
    zeroed (DataWrapper name x s d m) (DataWrapper name x s d m)
| zeroed_size_param name m :
    zeroed (SizeParam name m) (SizeParam name m)
| zeroed_index_lambda e s d bs bs' m :
    zeroed_bindings bs bs' ->
    zeroed (IndexLambda e s d bs m) (IndexLambda e s d bs' m)
| zeroed_concatenate l l' iaxis m :
    zeroed_arrays l l' ->
    zeroed (Concatenate l iaxis m) (Concatenate l' iaxis m)
| zeroed_basic_index a a' idx m :
    zeroed a a' ->
    zeroed (BasicIndex a idx m) (BasicIndex a' idx m)
| zeroed_named_call_result c c' name :
    zeroed_call c c' ->
    zeroed (NamedCallResult c name) (NamedCallResult c' name)
with zeroed_arrays : Arrays -> Arrays -> Prop :=
| zeroed_anil : zeroed_arrays ANil ANil
| zeroed_acons a a' rest rest' :
    zeroed a a' -> zeroed_arrays rest rest' ->
    zeroed_arrays (ACons a rest) (ACons a' rest')
with zeroed_bindings : Bindings -> Bindings -> Prop :=
| zeroed_bnil : zeroed_bindings BNil BNil
| zeroed_bcons name a a' rest rest' :
    zeroed a a' -> zeroed_bindings rest rest' ->
    zeroed_bindings (BCons name a rest) (BCons name a' rest')
with zeroed_call : Call -> Call -> Prop :=
| zeroed_mkcall f f' bs bs' t :
    zeroed_function f f' ->
    zeroed_call_bindings (MkCall f bs t) bs bs' ->
    zeroed_call (MkCall f bs t) (MkCall f' bs' t)
with zeroed_call_bindings : Call -> Bindings -> Bindings -> Prop :=
| zeroed_call_bnil call : zeroed_call_bindings call BNil BNil
| zeroed_call_kept call name bnd bnd' rest rest' param :
    get_placeholder (function call) name = Ok param ->
    used_by call param ->
    zeroed bnd bnd' ->
    zeroed_call_bindings call rest rest' ->
    zeroed_call_bindings call (BCons name bnd rest) (BCons name bnd' rest')
| zeroed_call_zero call name bnd rest rest' param :
    get_placeholder (function call) name = Ok param ->
    ~ used_by call param ->
    zeroed_call_bindings call rest rest' ->
    zeroed_call_bindings call (BCons name bnd rest)
      (BCons name (zeros (shape bnd) (dtype bnd)) rest')
with zeroed_function : FunctionDefinition -> FunctionDefinition -> Prop :=
| zeroed_mkfunction ps rets rets' t :
    zeroed_bindings rets rets' ->
    zeroed_function (MkFunctionDefinition ps rets t)
                    (MkFunctionDefinition ps rets' t).

Inductive zeroed_expr : ArrayOrNames -> ArrayOrNames -> Prop :=
| zeroed_an_array a a' : zeroed a a' -> zeroed_expr (AnArray a) (AnArray a')
| zeroed_a_call c c' : zeroed_call c c' -> zeroed_expr (ACall c) (ACall c')
| zeroed_dict data data' t :
    zeroed_bindings data data' ->
    zeroed_expr (DictOfNamedArrays data t) (DictOfNamedArrays data' t).

End Zeroed.

End ZeroUnused.

(** *** Lowering to loopy ([pytato/target/loopy/codegen.py]) *)

Module Loopy.
Import Arrays Calls.
Import ScalarExprs(ScalarExpr, Constant, Var, Arith, Subscript).

Abbreviation Expression := ScalarExpr (only parsing).

(** The objects of [loopy], [islpy] and [pytools] that the code generator
    builds are libraries' own; each is a record of what the code generator
    puts in it.  Shapes are tuples of integers. *)
Inductive KernelArg : Type :=
| GlobalArg (name : string) (shape : list Z) (dtype : DType)
            (is_input is_output : bool) (tags : list Tag)
| ValueArg (name : string) (dtype : DType) (tags : list Tag).

Record TemporaryVariable : Type := MkTemporaryVariable {
  tv_name : string;
  tv_shape : list Z;
  tv_dtype : DType;
  tv_tags : list Tag
}.

Record Assignment : Type := MkAssignment {
  assignee : Expression;
  expression : Expression;
  id : string;
  within_inames : list string;
  insn_depends_on : list string
}.

(** [{ [i, ...] : 0 <= i < n and ... }], by its set dimensions and the bound
    of each *)
Record BasicSet : Type := MkBasicSet {
  set_names : list string;
  bounds : list (string * Z)
}.

Record SubstitutionRule : Type := MkSubstitutionRule {
  rule_name : string;
  rule_arguments : list string;
  rule_expression : Expression
}.

Record LoopKernel : Type := MkLoopKernel {
  args : list KernelArg;
  temporary_variables : Dict.t TemporaryVariable;
  domains : list BasicSet;
  instructions : list Assignment;
  substitutions : Dict.t SubstitutionRule;
  iname_tags : list (string * Tag)
}.

(** [lp.tag_inames(kernel, {iname: tag})] *)
Definition tag_inames (kernel : LoopKernel) (iname : string) (tag : Tag)
    : LoopKernel :=
  MkLoopKernel (args kernel) (temporary_variables kernel) (domains kernel)
    (instructions kernel) (substitutions kernel)
    (iname_tags kernel ++ [(iname, tag)]).

(** [pytools.UniqueNameGenerator]: the name asked for if it is free, else
    the first free one of [based_on_0], [based_on_1], ...; the name is then
    taken. *)
Definition numbered (based_on : string) (n : nat) : string :=
  String.append based_on
    (String.append "_" (NilEmpty.string_of_uint (Nat.to_uint n))).

Definition is_name_conflicting (existing_names : list string) (name : string)
    : bool :=
  bool_decide (name ∈ existing_names).

Definition unique_name (based_on : string) (existing_names : list string)
    : string * list string :=
  let candidates :=
    based_on :: map (numbered based_on) (seq 0 (S (length existing_names))) in
  let name :=
    default based_on
      (List.find (fun c => negb (is_name_conflicting existing_names c))
                 candidates) in
  (name, name :: existing_names).

(** [sorted] on names *)
Fixpoint insert_sorted (name : string) (l : list string) : list string :=
  match l with
  | [] => [name]
  | x :: l' => if String.leb name x then name :: l else x :: insert_sorted name l'
  end.

Definition sorted_names (l : list string) : list string :=
  foldr insert_sorted [] l.

(** [ImplementedResult] and its three classes *)
Inductive ImplementedResult : Type :=
| StoredResult (name : string) (num_indices : nat) (depends_on : list string)
| InlinedResult (expr : Expression) (num_indices : nat) (depends_on : list string)
| SubstitutionRuleResult (subst_name : string) (num_args : nat)
                         (depends_on : list string).

(** [loopy_substitute]: the variables that the assignment names are
    replaced. *)
Fixpoint loopy_substitute (expression : Expression)
    (variable_assignments : Dict.t Expression) : Expression :=
  match expression with
  | Constant _ => expression
  | Var name => default expression (Dict.get name variable_assignments)
  | Arith op children =>
      Arith op (map (fun c => loopy_substitute c variable_assignments) children)
  | ScalarExprs.Call function parameters =>
      ScalarExprs.Call function
        (map (fun c => loopy_substitute c variable_assignments) parameters)
  | Subscript aggregate index_tuple =>
      Subscript aggregate
        (map (fun c => loopy_substitute c variable_assignments) index_tuple)
  end.

Definition result_num_indices (result : ImplementedResult) : nat :=
  match result with
  | StoredResult _ n _ | InlinedResult _ n _ | SubstitutionRuleResult _ n _ => n
  end.

(** [PersistentExpressionContext.update_depends_on] *)
Definition update_depends_on (depends_on other : list string) : list string :=
  list_union depends_on other.

(** [ImplementedResult.to_loopy_expression]; the expression context is the
    set [depends_on], returned updated. *)
Definition to_loopy_expression (result : ImplementedResult)
    (indices : list Expression) (expr_context : list string)
    : res (Expression * list string) :=
  match result with
  | StoredResult name num_indices depends_on =>
      if negb (length indices =? num_indices)%nat then Raise AssertionError
      else
        Ok (match indices with
            | [] => Var name
            | _ => Subscript name indices
            end,
            update_depends_on expr_context depends_on)
  | InlinedResult expr num_indices depends_on =>
      if negb (length indices =? num_indices)%nat then Raise AssertionError
      else
        let substitutions :=
          imap (fun d i => (ScalarExprs.index_name d, i)) indices in
        Ok (loopy_substitute expr substitutions,
            update_depends_on expr_context depends_on)
  | SubstitutionRuleResult subst_name num_args depends_on =>
      if negb (length indices =? num_args)%nat then Raise AssertionError
      else
        Ok (ScalarExprs.Call subst_name indices,
            update_depends_on expr_context depends_on)
  end.

(** [CodeGenState]: the kernel being built, the results, and the names
    taken in the two name generators *)
Record CodeGenState : Type := MkCodeGenState {
  kernel : LoopKernel;
  results : list (Array * ImplementedResult);
  var_name_gen : list string;
  insn_id_gen : list string
}.

(** [state.update_kernel(kernel)] *)
Definition update_kernel (state : CodeGenState) (k : LoopKernel) : CodeGenState :=
  MkCodeGenState k (results state) (var_name_gen state) (insn_id_gen state).

(** [CodeGenMapper]: the two sets of tag types, as predicates on tags *)
Record CodeGenMapper : Type := MkCodeGenMapper {
  array_tag_t_to_not_propagate : Tag -> bool;
  axis_tag_t_to_not_propagate : Tag -> bool
}.

(** [shape_to_scalar_expression] on a shape of integers *)
Definition shape_to_scalar_expression (s : ShapeType) : list Z := s.

(** [zip(xs, ys, strict=True)] *)
Fixpoint zip_strict {A B} (xs : list A) (ys : list B) : res (list (A * B)) :=
  match xs, ys with
  | [], [] => Ok []
  | x :: xs', y :: ys' => rest ← zip_strict xs' ys'; Ok ((x, y) :: rest)
  | _, _ => Raise ValueError
  end.

(** [domain_for_shape(dim_names, shape, {})] *)
Definition domain_for_shape (dim_names : list string) (s : list Z) : res BasicSet :=
  if negb (length dim_names =? length s)%nat then Raise AssertionError
  else
    constraints ← zip_strict dim_names s;
    Ok (MkBasicSet (sorted_names dim_names) constraints).

Definition _filter_tags_not_of_type (expr : Array) (ignore_tag_t : Tag -> bool)
    : list Tag :=
  filter (fun tag => negb (ignore_tag_t tag) = true) (tags (meta_of expr)).

Definition get_loopy_temporary (name : string) (expr : Array)
    (cgen_mapper : CodeGenMapper) : TemporaryVariable :=
  MkTemporaryVariable name (shape_to_scalar_expression (shape expr)) (dtype expr)
    (_filter_tags_not_of_type expr (array_tag_t_to_not_propagate cgen_mapper)).

(** [state.var_name_gen(f"{name}_dim{d}") for d in range(expr.ndim)] *)
Fixpoint gen_inames (name : string) (ds : list nat) (existing : list string)
    : list string * list string :=
  match ds with
  | [] => ([], existing)
  | d :: ds' =>
      let '(iname, existing1) :=
        unique_name
          (String.append name
             (String.append "_dim" (NilEmpty.string_of_uint (Nat.to_uint d))))
          existing in
      let '(inames, existing2) := gen_inames name ds' existing1 in
      (iname :: inames, existing2)
  end.

(** The loop that turns axis tags into iname tags *)
Definition tag_axis (cgen_mapper : CodeGenMapper) (k : LoopKernel)
    (axis_iname : Axis * string) : LoopKernel :=
  foldl (fun k tag =>
           if negb (axis_tag_t_to_not_propagate cgen_mapper tag)
           then tag_inames k axis_iname.2 tag else k)
        k (axis_tags axis_iname.1).

(** [any(are_shape_components_equal(s_i, 0) for s_i in expr.shape)] *)
Definition result_is_empty (expr : Array) : bool :=
  existsb (fun s_i => are_shape_components_equal s_i 0) (shape expr).

(** [add_store]; returns the id of the instruction and the state updated *)
Definition add_store (name : string) (expr : Array) (result : ImplementedResult)
    (state : CodeGenState) (cgen_mapper : CodeGenMapper)
    (output_to_temporary : bool) : res (string * CodeGenState) :=
  let '(inames, var_names) :=
    gen_inames name (seq 0 (ndim expr)) (var_name_gen state) in
  let indices := map Var inames in
  '(loopy_expr, depends_on) ← to_loopy_expression result indices [];
  let assignee :=
    match indices with [] => Var name | _ => Subscript name indices end in
  let '(insn_id, insn_ids) :=
    unique_name (String.append name "_store") (insn_id_gen state) in
  let insn := MkAssignment assignee loopy_expr insn_id inames depends_on in
  let s := shape_to_scalar_expression (shape expr) in
  domain ← domain_for_shape inames s;
  let additional_domains := if result_is_empty expr then [] else [domain] in
  let additional_insns := if result_is_empty expr then [] else [insn] in
  let k := kernel state in
  let k :=
    if output_to_temporary then
      let tvar := get_loopy_temporary name expr cgen_mapper in
      MkLoopKernel (args k) (Dict.set name tvar (temporary_variables k))
        (domains k ++ additional_domains)
        (instructions k ++ additional_insns)
        (substitutions k) (iname_tags k)
    else
      let arg :=
        GlobalArg name s (dtype expr) false true
          (_filter_tags_not_of_type expr
             (array_tag_t_to_not_propagate cgen_mapper)) in
      MkLoopKernel (args k ++ [arg]) (temporary_variables k)
        (domains k ++ additional_domains)
        (instructions k ++ additional_insns)
        (substitutions k) (iname_tags k) in
  k ← (if negb (result_is_empty expr) then
         pairs ← zip_strict (axes (meta_of expr)) inames;
         Ok (foldl (tag_axis cgen_mapper) k pairs)
       else Ok k);
  Ok (insn_id, MkCodeGenState k (results state) var_names insn_ids).

(** [_generate_name_for_temp] ([pytato/codegen.py]); [Named] and
    [PrefixNamed] are the name tags. *)
Definition named_tags (ts : list Tag) : list string :=
  omap (fun t => match t with Named n => Some n | _ => None end) ts.

Definition prefix_named_tags (ts : list Tag) : list string :=
  omap (fun t => match t with PrefixNamed p => Some p | _ => None end) ts.

Definition _generate_name_for_temp (expr : Array) (existing_names : list string)
    (default_prefix : string) : res (string * list string) :=
  match named_tags (tags (meta_of expr)),
        prefix_named_tags (tags (meta_of expr)) with
  | [], [] => Ok (unique_name default_prefix existing_names)
  | [name], _ =>
      if is_name_conflicting existing_names name then Raise ValueError
      else Ok (name, name :: existing_names)
  | [], [prefix] => Ok (unique_name prefix existing_names)
  | _, _ => Raise ValueError   (* [name_tag, = ...] on several tags *)
  end.

(** [add_substitution] *)
Definition add_substitution (subst_name : string) (expr : Array)
    (result : ImplementedResult) (state : CodeGenState) : res CodeGenState :=
  let arguments := map ScalarExprs.index_name (seq 0 (ndim expr)) in
  '(loopy_expr, _) ← to_loopy_expression result (map Var arguments) [];
  let subst_rule := MkSubstitutionRule subst_name arguments loopy_expr in
  let k := kernel state in
  Ok (update_kernel state
        (MkLoopKernel (args k) (temporary_variables k) (domains k)
           (instructions k) (Dict.set subst_name subst_rule (substitutions k))
           (iname_tags k))).

(** [CodeGenMapper].  A mapper method takes the state and returns its
    result with the state updated, or raises. *)
Abbreviation Lowering :=
  (CodeGenState -> res (ImplementedResult * CodeGenState)) (only parsing).

Section Mapper.
Variable cgen_mapper : CodeGenMapper.

(** [self.exprgen_mapper(expr.expr, prstnt_ctx, local_ctx)], the
    [InlinedExpressionGenMapper], is a parameter: it is given the expression,
    [num_indices], the local namespace and the state, and returns the loopy
    expression, the context's [depends_on] and the state, or raises. *)
Variable exprgen_mapper :
  Expression -> nat -> Dict.t ImplementedResult -> CodeGenState ->
  res (Expression * list string * CodeGenState).

Definition store_result (expr : Array) (result : ImplementedResult)
    (state : CodeGenState) : CodeGenState :=
  MkCodeGenState (kernel state) (kset expr result (results state))
    (var_name_gen state) (insn_id_gen state).

Definition add_arg (arg : KernelArg) (state : CodeGenState) : CodeGenState :=
  let k := kernel state in
  update_kernel state
    (MkLoopKernel (args k ++ [arg]) (temporary_variables k) (domains k)
       (instructions k) (substitutions k) (iname_tags k)).

Definition map_size_param (expr : Array) (name : string) : Lowering :=
  fun state =>
    match kget expr (results state) with
    | Some result => Ok (result, state)
    | None =>
        let arg :=
          ValueArg name (dtype expr)
            (_filter_tags_not_of_type expr
               (array_tag_t_to_not_propagate cgen_mapper)) in
        let result := StoredResult name (ndim expr) [] in
        Ok (result, store_result expr result (add_arg arg state))
    end.

Definition map_placeholder (expr : Array) (name : string) : Lowering :=
  fun state =>
    match kget expr (results state) with
    | Some result => Ok (result, state)
    | None =>
        let s := shape_to_scalar_expression (shape expr) in
        let ts := _filter_tags_not_of_type expr
                    (array_tag_t_to_not_propagate cgen_mapper) in
        arg ← (if bool_decide (ForceValueArgTag ∈ tags (meta_of expr)) then
                 if bool_decide (shape expr = []) then
                   Ok (ValueArg name (dtype expr) ts)
                 else Raise ValueError
               else Ok (GlobalArg name s (dtype expr) true false ts));
        let result := StoredResult name (ndim expr) [] in
        Ok (result, store_result expr result (add_arg arg state))
    end.

(** [{name: self.rec(expr.bindings[name], state) for name in sorted(...)}] *)
Fixpoint lower_bindings (names : list string)
    (bindings : Dict.t Lowering) (state : CodeGenState)
    : res (Dict.t ImplementedResult * CodeGenState) :=
  match names with
  | [] => Ok ([], state)
  | name :: names' =>
      lower ← Dict.item name bindings;
      '(result, state1) ← lower state;
      '(local_namespace, state2) ← lower_bindings names' bindings state1;
      Ok ((name, result) :: local_namespace, state2)
  end.

(** The implementation tag of [map_index_lambda] *)
Definition implement (expr : Array) (result : ImplementedResult)
    (depends_on : list string) : Lowering :=
  fun state =>
    let ts := tags (meta_of expr) in
    if bool_decide (ImplStored ∈ ts) then
      '(name, var_names) ←
        _generate_name_for_temp expr (var_name_gen state) "_pt_temp";
      let state1 := MkCodeGenState (kernel state) (results state) var_names
                      (insn_id_gen state) in
      '(insn_id, state2) ← add_store name expr result state1 cgen_mapper true;
      Ok (StoredResult name (ndim expr) [insn_id], state2)
    else if bool_decide (ImplInlined ∈ ts) then Ok (result, state)
    else if bool_decide (ImplSubstitution ∈ ts) then
      '(subst_name, var_names) ←
        _generate_name_for_temp expr (var_name_gen state) "_pt_subst";
      let state1 := MkCodeGenState (kernel state) (results state) var_names
                      (insn_id_gen state) in
      state2 ← add_substitution subst_name expr result state1;
      Ok (SubstitutionRuleResult subst_name (ndim expr) depends_on, state2)
    else if existsb is_ImplementationStrategy ts then Raise NotImplementedError
    else Ok (result, state).

Definition map_index_lambda (expr : Array) (e : Expression)
    (bindings : Dict.t Lowering) : Lowering :=
  fun state =>
    match kget expr (results state) with
    | Some result => Ok (result, state)
    | None =>
        '(local_namespace, state1) ←
          lower_bindings (sorted_names (Dict.keys bindings)) bindings state;
        '(loopy_expr, depends_on, state2) ←
          exprgen_mapper e (ndim expr) local_namespace state1;
        let result := InlinedResult loopy_expr (ndim expr) depends_on in
        '(result, state3) ← implement expr result depends_on state2;
        Ok (result, store_result expr result state3)
    end.

Definition map_named_call_result (expr : Array) : Lowering :=
  fun _ => Raise NotImplementedError.

Definition map_call (expr : Call) (state : CodeGenState)
    : res (unit * CodeGenState) :=
  Raise NotImplementedError.

(** [CodeGenMapper.rec]: the method of the node's class.  Modelled from the
    spec: a class the mapper has no method for is an unsupported array,
    [Mapper.rec] of [pytato/transform/__init__.py] not being among the
    sources. *)
Fixpoint rec (expr : Array) : Lowering :=
  match expr with
  | SizeParam name _ => map_size_param expr name
  | Placeholder name _ _ _ => map_placeholder expr name
  | IndexLambda e _ _ bs _ => map_index_lambda expr e (rec_bindings bs)
  | NamedCallResult _ _ => map_named_call_result expr
  | DataWrapper _ _ _ _ _ | Concatenate _ _ _ | BasicIndex _ _ _ =>
      fun _ => Raise UnsupportedArrayError
  end
with rec_bindings (bs : Bindings) : Dict.t Lowering :=
  match bs with
  | BNil => []
  | BCons name a rest => (name, rec a) :: rec_bindings rest
  end.

End Mapper.

(** *** [CodeGenPreprocessor] and [generate_loopy]
        ([pytato/codegen.py], [pytato/target/loopy/codegen.py]) *)

Inductive Target : Type :=
| LoopyTarget
| LoopyPyOpenCLTarget
| OtherTarget (name : string).

(** [isinstance(target, LoopyTarget)] *)
Definition is_LoopyTarget (target : Target) : bool :=
  match target with
  | LoopyTarget | LoopyPyOpenCLTarget => true
  | OtherTarget _ => false
  end.

(** A [LoopyCall], by the fields that [map_loopy_call] reads *)
Record LoopyCall : Type := MkLoopyCall {
  translation_unit : string;
  loopy_bindings : Bindings;
  entrypoint : string;
  loopy_tags : list Tag
}.

Section Preprocessor.
Variable target : Target.

(** What [map_loopy_call] does once the target is known to be a loopy
    target: the check of the translation unit's target, the renaming of
    callables and the copy of the bindings *)
Variable rename_and_copy : LoopyCall -> res LoopyCall.

Definition CodeGenPreprocessor_map_loopy_call (expr : LoopyCall) : res LoopyCall :=
  if negb (is_LoopyTarget target) then Raise ValueError
  else rename_and_copy expr.

Definition CodeGenPreprocessor_map_named_call_result (expr : Array) : res Array :=
  Raise NotImplementedError.

End Preprocessor.

(** The outputs given to [generate_loopy]: an array, a result with named
    arrays, or a Python [dict] of arrays *)
Inductive Outputs : Type :=
| OfExpr (expr : ArrayOrNames)
| OfDict (d : Bindings).

(** [isinstance(result, dict | DictOfNamedArrays)] *)
Definition result_is_dict (result : Outputs) : bool :=
  match result with
  | OfDict _ => true
  | OfExpr (DictOfNamedArrays _ _) => true
  | OfExpr _ => false
  end.

(** [normalize_outputs] *)
Definition normalize_outputs (result : Outputs) : ArrayOrNames :=
  match result with
  | OfExpr (AnArray a) => DictOfNamedArrays (BCons "_pt_out" a BNil) []
  | OfDict d => DictOfNamedArrays d []
  | OfExpr outputs => outputs
  end.

Record Options : Type := MkOptions { return_dict : bool }.

Record PreprocessResult : Type := MkPreprocessResult {
  outputs : ArrayOrNames;
  compute_order : list string
}.

(** [output.without_tags(ImplStored(), verify_existence=False)] on the
    outputs that are not input arguments *)
Definition without_ImplStored (a : Array) : Array :=
  if is_InputArgumentBase a then a
  else
    let m := meta_of a in
    with_meta a (MkMeta (axes m)
                   (filter (fun t => t <> ImplStored) (tags m))
                   (non_equality_tags m)).

Fixpoint outputs_without_ImplStored (data : Bindings) : Bindings :=
  match data with
  | BNil => BNil
  | BCons name a rest =>
      BCons name (without_ImplStored a) (outputs_without_ImplStored rest)
  end.

Section GenerateLoopy.
Context {BoundProgram : Type}.

(** [preprocess] ([pytato/codegen.py]) and the code generation for the
    outputs that follows the check of the options are parameters. *)
Variable preprocess : ArrayOrNames -> Target -> res PreprocessResult.
Variable generate_outputs :
  Bindings -> list string -> Target -> Options -> res BoundProgram.

Definition generate_loopy (result : Outputs) (target : option Target)
    (options : option Options) : res BoundProgram :=
  let is_dict := result_is_dict result in
  match normalize_outputs result with
  | DictOfNamedArrays data ts =>
      let target := default LoopyPyOpenCLTarget target in
      if negb (is_LoopyTarget target) then Raise AssertionError
      else
        preproc_result ← preprocess (DictOfNamedArrays data ts) target;
        match outputs preproc_result with
        | DictOfNamedArrays data' _ =>
            let outs := outputs_without_ImplStored data' in
            let options := default (MkOptions is_dict) options in
            if negb (eqb (return_dict options) is_dict) then Raise ValueError
            else
              generate_outputs outs (compute_order preproc_result) target options
        | _ => Raise AttributeError   (* [outputs._data] *)
        end
  | _ => Raise NotImplementedError
  end.

End GenerateLoopy.

(** [get_initial_codegen_state]: [lp.make_kernel] on the domain [{:}] and
    no instruction *)
Definition get_initial_codegen_state : CodeGenState :=
  MkCodeGenState (MkLoopKernel [] [] [MkBasicSet [] []] [] [] []) [] [] [].

End Loopy.

(** *** Array objects ([pytato/array.py]) *)

Module ArrayObjects.

(** [class Array] of [pytato/array.py] is a plain class: [__init__] sets
    [namespace], [tags] and [dtype], and neither it nor a subclass defines
    [__eq__] or [__hash__], so both are those of [object].  An object is its
    identity and its attributes; the namespace, an object too, is its
    identity. *)
Record Array : Type := MkArray {
  oid : nat;
  namespace : nat;
  tags : list string;
  dtype : string
}.

(** [Array(namespace, tags)], the object allocated at the address [next]:
    the object and the next free address *)
Definition Array_init (next : nat) (namespace : nat) (tags : option (list string))
    : Array * nat :=
  (MkArray next namespace (default [] tags) "float64", S next).

(** [a == b], that is [object.__eq__]: [a is b] *)
Definition eq (a b : Array) : bool := bool_decide (oid a = oid b).

(** [hash(a)], that is [object.__hash__]: from the identity *)
Definition hash (a : Array) : nat := oid a.

(** All the attributes of [a] and [b] are equal. *)
Definition same_fields (a b : Array) : Prop :=
  namespace a = namespace b /\ tags a = tags b /\ dtype a = dtype b.

End ArrayObjects.

(** *** Namespaces, shapes and placeholders ([pytato/array.py]) *)

Module Namespaces.
Import ScalarExprs(ScalarExpr, Constant, Var, Arith, Subscript).

Section Namespace.
(** The arrays a namespace holds *)
Context {V : Type}.

(** [Namespace]: its [_symbol_table], from names to an array or [None], a
    name that is reserved *)
Definition Namespace : Type := Dict.t (option V).

(** [Namespace()] *)
Definition Namespace_init : Namespace := [].

(** [name in ns] *)
Definition contains (ns : Namespace) (name : string) : bool := Dict.mem name ns.

(** [ns[name]] *)
Definition getitem (ns : Namespace) (name : string) : res V :=
  item ← Dict.item name ns;
  match item with
  | None => Raise ValueError
  | Some value => Ok value
  end.

(** [ns.assign(name, value)]: the name and the namespace updated *)
Definition assign (ns : Namespace) (name : string) (value : option V)
    : res (string * Namespace) :=
  if Dict.mem name ns then Raise ValueError
  else Ok (name, Dict.set name value ns).

End Namespace.
Arguments Namespace V : clear implicits.

(** A shape as it is given: a number or an expression, for a shape of one
    axis, or a tuple of them.  Strings, which [normalize_shape] has parsed
    by [pymbolic], are left out. *)
Inductive ShapeComponent : Type :=
| IntComponent (n : Z)
| ExprComponent (e : ScalarExpr).

Inductive ConvertibleToShape : Type :=
| OneComponent (s : ShapeComponent)
| ComponentTuple (shape : list ShapeComponent).

(** The variables of an expression, the names of subscripted arrays and of
    called functions included: what a [WalkMapper] calls [map_variable]
    on. *)
Fixpoint variables (e : ScalarExpr) : list string :=
  match e with
  | Constant _ => []
  | Var name => [name]
  | Arith _ children => flat_map variables children
  | ScalarExprs.Call function parameters => function :: flat_map variables parameters
  | Subscript aggregate index_tuple => aggregate :: flat_map variables index_tuple
  end.

Section Shapes.
(** [str.isidentifier] *)
Variable isidentifier : string -> bool.

(** [_check_identifier(s, ns)]: the name is an identifier and, when a
    namespace is given, known in it *)
Definition _check_identifier {V} (s : string) (ns : option (Namespace V))
    : res bool :=
  if negb (isidentifier s) then Raise ValueError
  else
    match ns with
    | Some ns => if negb (contains ns s) then Raise ValueError else Ok true
    | None => Ok true
    end.

(** [_ShapeChecker(ns)(expr)] *)
Definition _ShapeChecker {V} (ns : option (Namespace V)) (expr : ScalarExpr)
    : res unit :=
  _ ← mapM (fun name => _check_identifier name ns) (variables expr); Ok tt.

(** [normalize_shape(shape, ns)]: the checker is made without the
    namespace. *)
Definition normalize_shape_component {V} (s : ShapeComponent) : res ShapeComponent :=
  match s with
  | IntComponent n => if n <? 0 then Raise ValueError else Ok s
  | ExprComponent e => _ ← _ShapeChecker (V := V) None e; Ok s
  end.

Definition normalize_shape {V} (shape : ConvertibleToShape)
    (ns : option (Namespace V)) : res (list ShapeComponent) :=
  let shape :=
    match shape with
    | OneComponent s => [s]
    | ComponentTuple shape => shape
    end in
  mapM (normalize_shape_component (V := V)) shape.

(** A [Placeholder] object: its attributes *)
Record Placeholder : Type := MkPlaceholder {
  name : string;
  _shape : list ShapeComponent;
  tags : list string
}.

(** [Placeholder(namespace, name, shape, tags)]: the name is reserved in the
    namespace, which holds arrays of a type [V]; the object and the
    namespace updated *)
Definition Placeholder_init {V} (namespace : Namespace V) (name : string)
    (shape : list ShapeComponent) (tags : option (list string))
    : res (Placeholder * Namespace V) :=
  '(_, namespace') ← assign namespace name None;
  Ok (MkPlaceholder name shape (default [] tags), namespace').

(** [make_placeholder] *)
Definition make_placeholder {V} (namespace : Namespace V) (name : string)
    (shape : ConvertibleToShape) (tags : option (list string))
    : res (Placeholder * Namespace V) :=
  if negb (isidentifier name) then Raise ValueError
  else
    shape ← normalize_shape shape (Some namespace);
    Placeholder_init namespace name shape tags.

End Shapes.

End Namespaces.

(** *** The scenario "Concatenate two calls"

    Two call sites of [f(x) = 2 * x], with [x : 4x3] and [x : 7x3], and the
    call that stands for both after concatenation along axis 0. *)

Module Scenario.
Import Arrays Calls.

Definition x1 : Array := Placeholder "x" [4; 3] "float64" (default_meta 2).
Definition x2 : Array := Placeholder "x" [7; 3] "float64" (default_meta 2).
Definition x3 : Array := Placeholder "x" [7; 2] "float64" (default_meta 2).
Definition x4 : Array := Placeholder "x" [7; 3] "float32" (default_meta 2).
Definition y2 : Array := Placeholder "y" [7; 3] "float64" (default_meta 2).
Definition x12 : Array := Placeholder "x" [11; 3] "float64" (default_meta 2).

Definition twice : ScalarExprs.ScalarExpr :=
  ScalarExprs.Arith ScalarExprs.Product
    [ScalarExprs.Constant 2;
     ScalarExprs.Subscript "x" [ScalarExprs.Var "_0"; ScalarExprs.Var "_1"]].

Definition body (x : Array) : Array :=
  IndexLambda twice (shape x) "float64" (BCons "x" x BNil) (default_meta 2).

Definition f (x : Array) : FunctionDefinition :=
  MkFunctionDefinition ["x"] (BCons "out" (body x) BNil) [FunctionIdentifier "f"].

Definition a1 : Array := DataWrapper (Some "a1") 1 [4; 3] "float64" (default_meta 2).
Definition a2 : Array := DataWrapper (Some "a2") 2 [7; 3] "float64" (default_meta 2).

Definition site1 : Call := MkCall (f x1) (BCons "x" a1 BNil) [].
Definition site2 : Call := MkCall (f x2) (BCons "x" a2 BNil) [].

Definition plan : list ((list Call * Array) * Concatenatability) :=
  [(([], body x1), ConcatableAlongAxis 0); (([], x1), ConcatableAlongAxis 0)].

Definition a12 : Array :=
  Concatenate (ACons a1 (ACons a2 ANil)) 0
    (marked_meta 2 0 ConcatenatedCallInputConcatAxisTag).

Definition new_site : Call := MkCall (f x12) (BCons "x" a12 BNil) [].

Definition out_slice (start stop : Z) : Array :=
  BasicIndex (call_result new_site "out") [Slice start stop; SliceAll]
    (marked_meta 2 0 ConcatenatedCallOutputSliceAxisTag).

(** The first call site tagged for inlining, and what it is inlined to. *)
Definition site1_inline : Call := MkCall (f x1) (BCons "x" a1 BNil) [InlineCallTag].

Definition body_inlined : Array :=
  IndexLambda twice [4; 3] "float64" (BCons "x" a1 BNil) (default_meta 2).

(** Modelled from the spec: an instance of the two helpers of
    [pytato/function.py] and [pytato/transform/__init__.py] for the
    examples.  [InputGatherer] gathers the input arguments a node depends
    on, through the bindings of calls; [get_placeholder] looks the parameter
    up by name among the placeholders of the returns. *)
Fixpoint inputs (a : Array) : list Array :=
  match a with
  | Placeholder _ _ _ _ => [a]
  | DataWrapper _ _ _ _ _ => [a]
  | SizeParam _ _ => [a]
  | IndexLambda _ _ _ bs _ => inputs_bindings bs
  | Concatenate l _ _ => inputs_arrays l
  | BasicIndex a' _ _ => inputs a'
  | NamedCallResult c _ => inputs_call c
  end
with inputs_arrays (l : Arrays) : list Array :=
  match l with
  | ANil => []
  | ACons a rest => inputs a ++ inputs_arrays rest
  end
with inputs_bindings (bs : Bindings) : list Array :=
  match bs with
  | BNil => []
  | BCons _ a rest => inputs a ++ inputs_bindings rest
  end
with inputs_call (c : Call) : list Array :=
  match c with
  | MkCall _ bs _ => inputs_bindings bs
  end.

Definition is_placeholder_named (name : string) (a : Array) : bool :=
  match a with
  | Placeholder n _ _ _ => bool_decide (n = name)
  | _ => false
  end.

Definition placeholder_named (f : FunctionDefinition) (name : string)
    : res Array :=
  match List.find (is_placeholder_named name) (inputs_bindings (returns f)) with
  | Some p => Ok p
  | None => Raise KeyError
  end.

#[local] Instance scenario_interface : PytatoInterface :=
  {| get_placeholder := placeholder_named; InputGatherer := inputs |}.

(** A function [g(a, b)] with the returns [u = 2 * a] and [v = 2 * b], and an
    expression that uses [u] only. *)
Definition pa : Array := Placeholder "a" [4; 3] "float64" (default_meta 2).
Definition pb : Array := Placeholder "b" [7; 3] "float64" (default_meta 2).

Definition g : FunctionDefinition :=
  MkFunctionDefinition ["a"; "b"]
    (BCons "u" (body pa) (BCons "v" (body pb) BNil)) [FunctionIdentifier "g"].

Definition site_g : Call := MkCall g (BCons "a" a1 (BCons "b" a2 BNil)) [].

Definition site_g_zeroed : Call :=
  MkCall g (BCons "a" a1 (BCons "b" (zeros [7; 3] "float64") BNil)) [].

(** A third call site of [f], on an array as long as that of the first. *)
Definition b1 : Array := DataWrapper (Some "b1") 3 [4; 3] "float64" (default_meta 2).

Definition site1b : Call := MkCall (f x1) (BCons "x" b1 BNil) [].

Definition cs1 : Batching.CallSiteLocation := Batching.MkCallSiteLocation site1 [].
Definition cs1b : Batching.CallSiteLocation := Batching.MkCallSiteLocation site1b [].
Definition cs2 : Batching.CallSiteLocation := Batching.MkCallSiteLocation site2 [].

(** Three call sites under the function identifier [f], of lengths 4, 5
    and 7: [site1] and [site3] call [f]; [site_h] calls a function with
    another return name, and the binding of [site3] is made of its
    result. *)
Definition x5 : Array := Placeholder "x" [5; 3] "float64" (default_meta 2).

Definition h : FunctionDefinition :=
  MkFunctionDefinition ["x"] (BCons "res" (body x5) BNil) [FunctionIdentifier "f"].

Definition a5 : Array := DataWrapper (Some "a5") 5 [5; 3] "float64" (default_meta 2).
Definition c2 : Array := DataWrapper (Some "c2") 6 [2; 3] "float64" (default_meta 2).

Definition site_h : Call := MkCall h (BCons "x" a5 BNil) [].

Definition h_and_c2 : Array :=
  Concatenate (ACons (call_result site_h "res") (ACons c2 ANil)) 0 (default_meta 2).

Definition site3 : Call := MkCall (f x2) (BCons "x" h_and_c2 BNil) [].

Definition cs_h : Batching.CallSiteLocation := Batching.MkCallSiteLocation site_h [].
Definition cs3 : Batching.CallSiteLocation := Batching.MkCallSiteLocation site3 [].

Definition three_sites : ArrayOrNames :=
  DictOfNamedArrays
    (BCons "p" (call_result site1 "out") (BCons "q" (call_result site3 "out") BNil))
    [].

End Scenario.

(** ** Part II: theorems *)

(** *** The result monad *)

Lemma bind_Ok_inv {A B} (c : res A) (k : A -> res B) b :
  (c ≫= k) = Ok b -> exists a, c = Ok a /\ k a = Ok b.
Proof. destruct c as [a|e]; cbn; [eauto | discriminate]. Qed.

Lemma bind_Raise_inv {A B} (c : res A) (k : A -> res B) e :
  (c ≫= k) = Raise e -> c = Raise e \/ exists a, c = Ok a /\ k a = Raise e.
Proof. destruct c as [a|e']; cbn; [eauto | intros [= ->]; auto]. Qed.

Ltac inv_bind H :=
  let a := fresh "a" in
  let Ha := fresh "Ha" in
  apply bind_Ok_inv in H; destruct H as (a & Ha & H).

Lemma foldM_nil {A B} (f : A -> B -> res A) a : foldM f a [] = Ok a.
Proof. reflexivity. Qed.

Lemma foldM_cons {A B} (f : A -> B -> res A) a x l :
  foldM f a (x :: l) = f a x ≫= (fun a' => foldM f a' l).
Proof. reflexivity. Qed.

Lemma mapM_nil {A B} (f : A -> res B) : mapM f [] = Ok [].
Proof. reflexivity. Qed.

Lemma mapM_cons {A B} (f : A -> res B) x l :
  mapM f (x :: l) = f x ≫= (fun y => mapM f l ≫= (fun ys => Ok (y :: ys))).
Proof. reflexivity. Qed.

Lemma imapM_nil {A B} (f : nat -> A -> res B) i : imapM f i [] = Ok [].
Proof. reflexivity. Qed.

Lemma imapM_cons {A B} (f : nat -> A -> res B) i x l :
  imapM f i (x :: l)
  = f i x ≫= (fun y => imapM f (S i) l ≫= (fun ys => Ok (y :: ys))).
Proof. reflexivity. Qed.

Lemma mapM_Ok_inv {A B} (f : A -> res B) l ys :
  mapM f l = Ok ys -> Forall2 (fun x y => f x = Ok y) l ys.
Proof.
  revert ys; induction l as [|x l IH]; intros ys H.
  - injection H as <-. constructor.
  - rewrite mapM_cons in H. inv_bind H. inv_bind H.
    injection H as <-. constructor; auto.
Qed.

Lemma mapM_Raise_inv {A B} (f : A -> res B) l e :
  mapM f l = Raise e -> exists x, x ∈ l /\ f x = Raise e.
Proof.
  induction l as [|x l IH]; [discriminate|].
  rewrite mapM_cons. intros H.
  apply bind_Raise_inv in H as [H|(y & _ & H)].
  - exists x. split; [by left | done].
  - apply bind_Raise_inv in H as [H|(ys & _ & H)]; [|discriminate].
    destruct (IH H) as (x' & ? & ?). exists x'. split; [by right | done].
Qed.

Lemma imapM_Ok_inv {A B} (f : nat -> A -> res B) i l ys :
  imapM f i l = Ok ys ->
  length ys = length l /\
  forall j x, l !! j = Some x -> exists y, ys !! j = Some y /\ f (i + j)%nat x = Ok y.
Proof.
  revert i ys; induction l as [|x l IH]; intros i ys H.
  - injection H as <-. split; [done|]. intros j x; by rewrite lookup_nil.
  - rewrite imapM_cons in H. apply bind_Ok_inv in H as (y & Hx & H).
    apply bind_Ok_inv in H as (ys' & Hl & H).
    injection H as <-. destruct (IH _ _ Hl) as [Hlen Hall].
    split; [cbn; congruence|].
    intros [|j] x'; cbn.
    + intros [= <-]. exists y. by rewrite Nat.add_0_r.
    + intros Hj. destruct (Hall _ _ Hj) as (y' & ? & ?).
      exists y'. by rewrite Nat.add_succ_r.
Qed.

Lemma imapM_Raise_inv {A B} (f : nat -> A -> res B) i l e :
  imapM f i l = Raise e -> exists j x, l !! j = Some x /\ f (i + j)%nat x = Raise e.
Proof.
  revert i; induction l as [|x l IH]; intros i; [discriminate|].
  rewrite imapM_cons. intros H.
  apply bind_Raise_inv in H as [H|(y & _ & H)].
  - exists 0%nat, x. by rewrite Nat.add_0_r.
  - apply bind_Raise_inv in H as [H|(ys & _ & H)]; [|discriminate].
    destruct (IH _ H) as (j & x' & ? & ?).
    exists (S j), x'. by rewrite Nat.add_succ_r.
Qed.

(** *** Insertion-ordered dictionaries *)

Lemma Dict_get_elem_of {V} k (v : V) d : Dict.get k d = Some v -> (k, v) ∈ d.
Proof.
  induction d as [|[k' v'] d IH]; cbn; [discriminate|].
  destruct (String.eqb_spec k k') as [->|Hne].
  - intros [= ->]. by left.
  - intros. right. auto.
Qed.

Lemma Dict_get_app_l {V} k (v : V) d d' :
  Dict.get k d = Some v -> Dict.get k (d ++ d') = Some v.
Proof.
  induction d as [|[k' v'] d IH]; cbn; [discriminate|].
  destruct (String.eqb k k'); auto.
Qed.

Lemma Dict_get_app_None {V} k (d d' : Dict.t V) :
  Dict.get k d = None -> Dict.get k (d ++ d') = Dict.get k d'.
Proof.
  induction d as [|[k' v'] d IH]; cbn; [done|].
  destruct (String.eqb k k'); [discriminate | auto].
Qed.

Lemma Dict_get_head {V} k (v : V) d : Dict.get k ((k, v) :: d) = Some v.
Proof. cbn. by rewrite String.eqb_refl. Qed.

Lemma Dict_nonempty_get {V} (d : Dict.t V) :
  d <> [] -> exists k v, Dict.get k d = Some v.
Proof. destruct d as [|[k v] d]; [done|]. intros _. exists k, v. apply Dict_get_head. Qed.

(** *** Concatenatability of scalar expressions *)

Section ScalarExprFacts.
Import ScalarExprs.

Lemma ScalarExpr_ind' (P : ScalarExpr -> Prop) :
  (forall z, P (Constant z)) ->
  (forall name, P (Var name)) ->
  (forall op children, Forall P children -> P (Arith op children)) ->
  (forall f parameters, Forall P parameters -> P (Call f parameters)) ->
  (forall name index_tuple, Forall P index_tuple -> P (Subscript name index_tuple)) ->
  forall e, P e.
Proof.
  intros HC HV HA HF HS. fix IH 1. intros [z|name|op l|f l|name l].
  - apply HC.
  - apply HV.
  - apply HA. induction l; constructor; auto.
  - apply HF. induction l; constructor; auto.
  - apply HS. induction l; constructor; auto.
Qed.

Lemma combine_item_Ok r k c r' :
  combine_item r (k, c) = Ok r' ->
  entries_in r r' /\ Dict.get k r' = Some c /\
  (forall k' c', (k', c') ∈ r' -> (k', c') ∈ r \/ (k', c') = (k, c)).
Proof.
  unfold combine_item. destruct (Dict.get k r) as [c0|] eqn:Hk.
  - case_decide; [|discriminate]. intros [= <-]. subst c0.
    split; [by intros ? ?|]. split; [done|]. auto.
  - intros [= <-]. split; [|split].
    + intros k' c' H. by apply Dict_get_app_l.
    + rewrite Dict_get_app_None by done. apply Dict_get_head.
    + intros k' c'. rewrite elem_of_app, list_elem_of_singleton. tauto.
Qed.

Lemma combine_items_Ok v r r' :
  foldM combine_item r v = Ok r' ->
  entries_in r r' /\
  (forall k c, (k, c) ∈ v -> Dict.get k r' = Some c) /\
  (forall k c, (k, c) ∈ r' -> (k, c) ∈ r \/ (k, c) ∈ v).
Proof.
  revert r; induction v as [|[k c] v IH]; intros r H.
  - injection H as <-. split; [by intros ? ?|]. split; [|auto].
    intros k c Hin. by apply elem_of_nil in Hin.
  - rewrite foldM_cons in H. apply bind_Ok_inv in H as (r1 & H1 & H).
    destruct (combine_item_Ok _ _ _ _ H1) as (Hin1 & Hk1 & Ho1).
    destruct (IH _ H) as (Hin & Hv & Ho).
    split; [|split].
    + intros k' c' Hg. auto.
    + intros k' c' Hel. apply elem_of_cons in Hel as [[= -> ->]|Hel]; auto.
    + intros k' c' Hel. destruct (Ho _ _ Hel) as [Hel1|Hel1].
      * destruct (Ho1 _ _ Hel1) as [?|Heq]; [auto|].
        right. rewrite Heq. by left.
      * right. by right.
Qed.

Lemma combine_fold_Ok vs r m :
  foldM (fun result value => foldM combine_item result value) r vs = Ok m ->
  entries_in r m /\
  (forall v, v ∈ vs -> entries_in v m) /\
  (forall k c, (k, c) ∈ m -> (k, c) ∈ r \/ exists v, v ∈ vs /\ (k, c) ∈ v).
Proof.
  revert r; induction vs as [|v vs IH]; intros r H.
  - injection H as <-. split; [by intros ? ?|]. split; [|auto].
    intros v Hin. by apply elem_of_nil in Hin.
  - rewrite foldM_cons in H. apply bind_Ok_inv in H as (r1 & H1 & H).
    destruct (combine_items_Ok _ _ _ H1) as (Hin1 & Hv1 & Ho1).
    destruct (IH _ H) as (Hin & Hvs & Ho).
    split; [|split].
    + intros k c Hg. auto.
    + intros v' Hel k c Hg. apply elem_of_cons in Hel as [->|Hel].
      * apply Hin, Hv1. by apply Dict_get_elem_of.
      * by apply (Hvs v').
    + intros k c Hel. destruct (Ho _ _ Hel) as [Hel1|(v' & ? & ?)].
      * destruct (Ho1 _ _ Hel1) as [?|?]; [auto|].
        right. exists v. split; [by left | done].
      * right. exists v'. split; [by right | done].
Qed.

(** What [combine] returns holds every entry of every value, and nothing
    else. *)
Lemma combine_Ok vs m :
  combine vs = Ok m ->
  (forall v, v ∈ vs -> entries_in v m) /\
  (forall k c, (k, c) ∈ m -> exists v, v ∈ vs /\ (k, c) ∈ v).
Proof.
  intros H. destruct (combine_fold_Ok _ _ _ H) as (_ & Hvs & Ho).
  split; [done|]. intros k c Hel.
  destruct (Ho _ _ Hel) as [Hnil|?]; [|done]. by apply elem_of_nil in Hnil.
Qed.

Lemma combine_item_Raise r item e :
  combine_item r item = Raise e -> e = NonConcatableExpression.
Proof.
  destruct item as [k c]. unfold combine_item.
  destruct (Dict.get k r); [case_decide|]; congruence.
Qed.

Lemma combine_Raise vs e : combine vs = Raise e -> e = NonConcatableExpression.
Proof.
  unfold combine. generalize (@nil (string * Concatenatability)).
  induction vs as [|v vs IH]; intros r; [discriminate|].
  rewrite foldM_cons. intros H.
  apply bind_Raise_inv in H as [H|(r1 & _ & H)]; [|by eapply IH].
  clear IH. revert r H.
  induction v as [|item v IHv]; intros r; [discriminate|].
  rewrite foldM_cons. intros H.
  apply bind_Raise_inv in H as [H|(r1 & _ & H)]; [|by eapply IHv].
  by eapply combine_item_Raise.
Qed.

Section Fixed.
Variable iaxis : nat.
Variable allow : bool.

Lemma map_variable_Raise name e :
  map_variable iaxis name = Raise e -> e = NonConcatableExpression.
Proof. unfold map_variable. destruct String.eqb; congruence. Qed.

(** The mapper raises nothing but [NonConcatableExpression]. *)
Lemma rec_Raise expr e :
  rec iaxis allow expr = Raise e -> e = NonConcatableExpression.
Proof.
  revert e. induction expr as [z|name|op l IH|f l IH|name l IH]
    using ScalarExpr_ind'; intros e; cbn.
  - discriminate.
  - apply map_variable_Raise.
  - intros H. apply bind_Raise_inv in H as [H|(vs & _ & H)].
    + apply mapM_Raise_inv in H as (x & Hx & H).
      rewrite Forall_forall in IH. eauto.
    + exact (combine_Raise _ _ H).
  - intros H. apply bind_Raise_inv in H as [H|(v0 & _ & H)].
    { by eapply map_variable_Raise. }
    apply bind_Raise_inv in H as [H|(vs & _ & H)].
    + apply mapM_Raise_inv in H as (x & Hx & H).
      rewrite Forall_forall in IH. eauto.
    + exact (combine_Raise _ _ H).
  - intros H. apply bind_Raise_inv in H as [H|(vs & _ & H)].
    + apply imapM_Raise_inv in H as (j & x & Hx & H).
      unfold subscript_index in H.
      destruct (is_index_variable iaxis x); [discriminate|].
      apply bind_Raise_inv in H as [H|(v & _ & H)].
      * rewrite Forall_forall in IH.
        apply (IH x); [by eapply list_elem_of_lookup_2 | done].
      * destruct v; [discriminate|]. destruct allow; congruence.
    + apply bind_Raise_inv in H as [H|(v & _ & H)].
      * exact (combine_Raise _ _ H).
      * destruct (Dict.mem name v); discriminate.
Qed.

Lemma rec_not_Ok_Raise expr :
  (forall m, rec iaxis allow expr <> Ok m) ->
  rec iaxis allow expr = Raise NonConcatableExpression.
Proof.
  intros H. destruct (rec iaxis allow expr) as [m|e] eqn:Hr.
  - by destruct (H m).
  - f_equal. by eapply rec_Raise.
Qed.

(** The value of a subscript, taken apart. *)
Lemma rec_subscript_Ok name index_tuple m :
  rec iaxis allow (Subscript name index_tuple) = Ok m ->
  exists rec_indices combined,
    imapM (subscript_index iaxis allow (rec iaxis allow) name) 0%nat index_tuple
      = Ok rec_indices /\
    combine rec_indices = Ok combined /\
    entries_in combined m /\
    (exists c, Dict.get name m = Some c) /\
    (forall k c, (k, c) ∈ m ->
       (k, c) ∈ combined \/ ((k, c) = (name, ConcatableIfConstant)
                             /\ Dict.get name combined = None)).
Proof.
  cbn. intros H. inv_bind H. inv_bind H. exists a, a0.
  split; [done|]. split; [done|].
  unfold Dict.mem in H. destruct (Dict.get name a0) as [c|] eqn:Hn.
  - injection H as <-. split; [by intros ? ?|]. split; [eauto|]. auto.
  - injection H as <-. split; [|split].
    + intros k c Hg. by apply Dict_get_app_l.
    + exists ConcatableIfConstant.
      rewrite Dict_get_app_None by done. apply Dict_get_head.
    + intros k c. rewrite elem_of_app, list_elem_of_singleton. tauto.
Qed.

(** The value of an expression holds the entries of the value of every
    sub-expression the mapper is run on. *)
Lemma rec_visited s expr m :
  visited iaxis s expr ->
  rec iaxis allow expr = Ok m ->
  exists ms, rec iaxis allow s = Ok ms /\ entries_in ms m.
Proof.
  intros Hv. revert m. induction Hv as
    [e|s op l c Hc Hv IH|s f l p Hp Hv IH|s name l idx Hidx Hni Hv IH];
    intros m H.
  - exists m. split; [done|]. by intros k c.
  - cbn in H. inv_bind H. apply mapM_Ok_inv in Ha.
    apply list_elem_of_lookup_1 in Hc as [i Hi].
    destruct (Forall2_lookup_l _ _ _ _ _ Ha Hi) as (mc & Hmc & Hrc).
    destruct (IH _ Hrc) as (ms & Hs & Hin). exists ms. split; [done|].
    destruct (combine_Ok _ _ H) as [Hall _].
    intros k c' Hg. apply (Hall mc); [by eapply list_elem_of_lookup_2 | auto].
  - cbn in H. inv_bind H. inv_bind H. apply mapM_Ok_inv in Ha0.
    apply list_elem_of_lookup_1 in Hp as [i Hi].
    destruct (Forall2_lookup_l _ _ _ _ _ Ha0 Hi) as (mc & Hmc & Hrc).
    destruct (IH _ Hrc) as (ms & Hs & Hin). exists ms. split; [done|].
    destruct (combine_Ok _ _ H) as [Hall _].
    intros k c' Hg. apply (Hall mc); [|auto].
    right. by eapply list_elem_of_lookup_2.
  - apply rec_subscript_Ok in H as (ris & comb & Hris & Hcomb & Hin & _).
    apply imapM_Ok_inv in Hris as [_ Hris].
    apply list_elem_of_lookup_1 in Hidx as [i Hi].
    destruct (Hris _ _ Hi) as (mi & Hmi & Hsi).
    unfold subscript_index in Hsi. rewrite Hni in Hsi.
    inv_bind Hsi. destruct (IH _ Ha) as (ms & Hs & Hins).
    exists ms. split; [done|].
    assert (a = mi) as -> by (destruct a; [|destruct allow]; congruence).
    destruct (combine_Ok _ _ Hcomb) as [Hall _].
    intros k c' Hg. apply Hin, (Hall mi); [by eapply list_elem_of_lookup_2 | auto].
Qed.

(** An index that is [_iaxis] at position [j] puts the aggregate on
    [ConcatableAlongAxis j]. *)
Lemma rec_subscript_along name index_tuple j idx m :
  rec iaxis allow (Subscript name index_tuple) = Ok m ->
  index_tuple !! j = Some idx ->
  is_index_variable iaxis idx = true ->
  Dict.get name m = Some (ConcatableAlongAxis j).
Proof.
  intros H Hj Hidx.
  apply rec_subscript_Ok in H as (ris & comb & Hris & Hcomb & Hin & _).
  apply imapM_Ok_inv in Hris as [_ Hris].
  destruct (Hris _ _ Hj) as (mi & Hmi & Hsi).
  unfold subscript_index in Hsi. rewrite Hidx in Hsi. injection Hsi as <-.
  destruct (combine_Ok _ _ Hcomb) as [Hall _].
  apply Hin, (Hall [(name, ConcatableAlongAxis j)]).
  - by eapply list_elem_of_lookup_2.
  - apply Dict_get_head.
Qed.

(** A bare occurrence of [_iaxis] makes the mapper raise. *)
Lemma rec_bare expr :
  bare iaxis expr = true ->
  rec iaxis allow expr = Raise NonConcatableExpression.
Proof.
  intros Hb. apply rec_not_Ok_Raise. revert Hb.
  induction expr as [z|name|op l IH|f l IH|name l IH]
    using ScalarExpr_ind'; cbn; intros Hb m H.
  - discriminate.
  - unfold map_variable in H. by rewrite Hb in H.
  - apply existsb_exists in Hb as (c & Hc & Hb).
    inv_bind H. apply mapM_Ok_inv in Ha.
    apply list_elem_of_In, list_elem_of_lookup_1 in Hc as [i Hi].
    destruct (Forall2_lookup_l _ _ _ _ _ Ha Hi) as (mc & _ & Hrc).
    rewrite Forall_forall in IH.
    by apply (IH c (list_elem_of_lookup_2 _ _ _ Hi) Hb mc).
  - inv_bind H. unfold map_variable in Ha.
    destruct (String.eqb f (index_name iaxis)); [discriminate|]. cbn in Hb.
    apply existsb_exists in Hb as (c & Hc & Hb).
    inv_bind H. apply mapM_Ok_inv in Ha0.
    apply list_elem_of_In, list_elem_of_lookup_1 in Hc as [i Hi].
    destruct (Forall2_lookup_l _ _ _ _ _ Ha0 Hi) as (mc & _ & Hrc).
    rewrite Forall_forall in IH.
    by apply (IH c (list_elem_of_lookup_2 _ _ _ Hi) Hb mc).
  - apply existsb_exists in Hb as (c & Hc & Hb).
    apply andb_true_iff in Hb as [Hni Hb]. apply negb_true_iff in Hni.
    inv_bind H. apply imapM_Ok_inv in Ha as [_ Ha].
    apply list_elem_of_In, list_elem_of_lookup_1 in Hc as [i Hi].
    destruct (Ha _ _ Hi) as (mi & _ & Hsi).
    unfold subscript_index in Hsi. rewrite Hni in Hsi.
    apply bind_Ok_inv in Hsi as (mc & Hmc & _).
    rewrite Forall_forall in IH.
    by apply (IH c (list_elem_of_lookup_2 _ _ _ Hi) Hb mc).
Qed.

Lemma imapM_Ok_lookup_r {A B} (f : nat -> A -> res B) i l ys j y :
  imapM f i l = Ok ys -> ys !! j = Some y ->
  exists x, l !! j = Some x /\ f (i + j)%nat x = Ok y.
Proof.
  intros H Hy. apply imapM_Ok_inv in H as [Hlen H].
  destruct (lookup_lt_is_Some_2 l j) as [x Hx].
  { rewrite <- Hlen. by eapply lookup_lt_Some. }
  destruct (H _ _ Hx) as (y' & Hy' & Hf). exists x. split; [done|].
  congruence.
Qed.

Lemma is_index_variable_mentions idx :
  is_index_variable iaxis idx = true -> mentions iaxis idx = true.
Proof. by destruct idx. Qed.

(** Without [_iaxis] in it, an expression puts bindings on
    [ConcatableIfConstant] only. *)
Lemma rec_no_mention expr m :
  mentions iaxis expr = false ->
  rec iaxis allow expr = Ok m ->
  forall k c, (k, c) ∈ m -> c = ConcatableIfConstant.
Proof.
  revert m. induction expr as [z|name|op l IH|f l IH|name l IH]
    using ScalarExpr_ind'; cbn; intros m Hm H k c Hel.
  - injection H as <-. by apply elem_of_nil in Hel.
  - unfold map_variable in H. rewrite Hm in H. injection H as <-.
    by apply elem_of_nil in Hel.
  - apply bind_Ok_inv in H as (vs & Hvs & H). apply mapM_Ok_inv in Hvs.
    destruct (combine_Ok _ _ H) as [_ Ho].
    destruct (Ho _ _ Hel) as (v & Hv & Hkv).
    apply list_elem_of_lookup_1 in Hv as [i Hi].
    destruct (Forall2_lookup_r _ _ _ _ _ Hvs Hi) as (x & Hx & Hrx).
    rewrite Forall_forall in IH.
    apply (IH x (list_elem_of_lookup_2 _ _ _ Hx) v) with (k := k); [|done|done].
    apply not_true_is_false. intros Hmx. apply not_true_iff_false in Hm.
    apply Hm, existsb_exists. exists x. split; [|done].
    by apply list_elem_of_In, (list_elem_of_lookup_2 _ i).
  - apply orb_false_iff in Hm as [Hf Hm].
    apply bind_Ok_inv in H as (v0 & Hv0 & H).
    unfold map_variable in Hv0. rewrite Hf in Hv0. injection Hv0 as <-.
    apply bind_Ok_inv in H as (vs & Hvs & H). apply mapM_Ok_inv in Hvs.
    destruct (combine_Ok _ _ H) as [_ Ho].
    destruct (Ho _ _ Hel) as (v & Hv & Hkv).
    apply elem_of_cons in Hv as [->|Hv]; [by apply elem_of_nil in Hkv|].
    apply list_elem_of_lookup_1 in Hv as [i Hi].
    destruct (Forall2_lookup_r _ _ _ _ _ Hvs Hi) as (x & Hx & Hrx).
    rewrite Forall_forall in IH.
    apply (IH x (list_elem_of_lookup_2 _ _ _ Hx) v) with (k := k); [|done|done].
    apply not_true_is_false. intros Hmx. apply not_true_iff_false in Hm.
    apply Hm, existsb_exists. exists x. split; [|done].
    by apply list_elem_of_In, (list_elem_of_lookup_2 _ i).
  - change (rec iaxis allow (Subscript name l) = Ok m) in H.
    apply rec_subscript_Ok in H as (ris & comb & Hris & Hcomb & _ & _ & Ho).
    destruct (Ho _ _ Hel) as [Hc|[[= _ ->] _]]; [|done].
    destruct (combine_Ok _ _ Hcomb) as [_ Ho'].
    destruct (Ho' _ _ Hc) as (v & Hv & Hkv).
    apply list_elem_of_lookup_1 in Hv as [i Hi].
    destruct (imapM_Ok_lookup_r _ _ _ _ _ _ Hris Hi) as (x & Hx & Hsx).
    assert (mentions iaxis x = false) as Hmx.
    { apply not_true_is_false. intros Hmx. apply not_true_iff_false in Hm.
      apply Hm, existsb_exists. exists x. split; [|done].
      by apply list_elem_of_In, (list_elem_of_lookup_2 _ i). }
    unfold subscript_index in Hsx.
    destruct (is_index_variable iaxis x) eqn:Hix.
    { apply is_index_variable_mentions in Hix. congruence. }
    apply bind_Ok_inv in Hsx as (mx & Hrx & Hsx).
    assert (mx = v) as -> by (destruct mx; [|destruct allow]; congruence).
    rewrite Forall_forall in IH.
    by apply (IH x (list_elem_of_lookup_2 _ _ _ Hx) v) with (k := k).
Qed.

(** With [_iaxis] in it, an expression the mapper accepts has a
    non-empty value. *)
Lemma rec_mention_nonempty expr m :
  mentions iaxis expr = true ->
  rec iaxis allow expr = Ok m ->
  m <> [].
Proof.
  revert m. induction expr as [z|name|op l IH|f l IH|name l IH]
    using ScalarExpr_ind'; cbn; intros m Hm H.
  - discriminate.
  - unfold map_variable in H. by rewrite Hm in H.
  - apply existsb_exists in Hm as (x & Hx & Hmx).
    apply bind_Ok_inv in H as (vs & Hvs & H). apply mapM_Ok_inv in Hvs.
    apply list_elem_of_In, list_elem_of_lookup_1 in Hx as [i Hi].
    destruct (Forall2_lookup_l _ _ _ _ _ Hvs Hi) as (v & Hv & Hrx).
    rewrite Forall_forall in IH.
    pose proof (IH x (list_elem_of_lookup_2 _ _ _ Hi) v Hmx Hrx) as Hne.
    apply Dict_nonempty_get in Hne as (k & c & Hg).
    destruct (combine_Ok _ _ H) as [Hall _].
    apply (Hall v (list_elem_of_lookup_2 _ _ _ Hv)) in Hg.
    intros ->. discriminate.
  - apply bind_Ok_inv in H as (v0 & Hv0 & H). unfold map_variable in Hv0.
    destruct (String.eqb f (index_name iaxis)); [discriminate|]. cbn in Hm.
    apply existsb_exists in Hm as (x & Hx & Hmx).
    apply bind_Ok_inv in H as (vs & Hvs & H). apply mapM_Ok_inv in Hvs.
    apply list_elem_of_In, list_elem_of_lookup_1 in Hx as [i Hi].
    destruct (Forall2_lookup_l _ _ _ _ _ Hvs Hi) as (v & Hv & Hrx).
    rewrite Forall_forall in IH.
    pose proof (IH x (list_elem_of_lookup_2 _ _ _ Hi) v Hmx Hrx) as Hne.
    apply Dict_nonempty_get in Hne as (k & c & Hg).
    destruct (combine_Ok _ _ H) as [Hall _].
    assert (v ∈ v0 :: vs) as Hin
      by (right; by eapply list_elem_of_lookup_2).
    apply (Hall v Hin) in Hg.
    intros ->. discriminate.
  - change (rec iaxis allow (Subscript name l) = Ok m) in H.
    apply rec_subscript_Ok in H as (_ & _ & _ & _ & _ & [c Hc] & _).
    intros ->. discriminate.
Qed.

End Fixed.

(** Without indirect addressing, an index that is not [_iaxis] itself but
    has [_iaxis] in it makes the mapper raise. *)
Lemma rec_index_mentions iaxis name index_tuple idx :
  idx ∈ index_tuple ->
  is_index_variable iaxis idx = false ->
  mentions iaxis idx = true ->
  rec iaxis false (Subscript name index_tuple) = Raise NonConcatableExpression.
Proof.
  intros Hidx Hni Hm. apply rec_not_Ok_Raise. intros m H.
  apply rec_subscript_Ok in H as (ris & _ & Hris & _).
  apply imapM_Ok_inv in Hris as [_ Hris].
  apply list_elem_of_lookup_1 in Hidx as [i Hi].
  destruct (Hris _ _ Hi) as (mi & _ & Hsi).
  unfold subscript_index in Hsi. rewrite Hni in Hsi.
  apply bind_Ok_inv in Hsi as (mx & Hrx & Hsi).
  apply rec_mention_nonempty in Hrx; [|done].
  destruct mx; [done | discriminate].
Qed.

Lemma is_index_variable_index_name iaxis :
  is_index_variable iaxis (Var (index_name iaxis)) = true.
Proof. cbn. apply String.eqb_refl. Qed.

Lemma combine_single k c : combine [[(k, c)]] = Ok [(k, c)].
Proof. reflexivity. Qed.

Lemma rec_direct iaxis allow y :
  rec iaxis allow (Subscript y [Var (index_name iaxis)])
  = Ok [(y, ConcatableAlongAxis 0)].
Proof.
  change (rec iaxis allow (Subscript y [Var (index_name iaxis)]))
    with (imapM (subscript_index iaxis allow (rec iaxis allow) y) 0%nat
                [Var (index_name iaxis)]
          ≫= (fun rec_indices => combine rec_indices
          ≫= (fun combined =>
                if Dict.mem y combined then Ok combined
                else Ok (combined ++ [(y, ConcatableIfConstant)])))).
  rewrite imapM_cons, imapM_nil. unfold subscript_index.
  rewrite is_index_variable_index_name. cbn -[index_name].
  rewrite combine_single. cbn -[index_name].
  unfold Dict.mem. by rewrite Dict_get_head.
Qed.

(** With indirect addressing, an index that subscripts another binding by
    [_iaxis] is accepted: the indexed binding must then be constant. *)
Lemma rec_indirect iaxis name y :
  name <> y ->
  rec iaxis true (Subscript name [Subscript y [Var (index_name iaxis)]])
  = Ok [(y, ConcatableAlongAxis 0); (name, ConcatableIfConstant)].
Proof.
  intros Hne.
  change (rec iaxis true (Subscript name [Subscript y [Var (index_name iaxis)]]))
    with (imapM (subscript_index iaxis true (rec iaxis true) name) 0%nat
                [Subscript y [Var (index_name iaxis)]]
          ≫= (fun rec_indices => combine rec_indices
          ≫= (fun combined =>
                if Dict.mem name combined then Ok combined
                else Ok (combined ++ [(name, ConcatableIfConstant)])))).
  rewrite imapM_cons, imapM_nil. unfold subscript_index.
  cbn [is_index_variable]. rewrite rec_direct. cbn -[index_name].
  rewrite combine_single. cbn -[index_name].
  unfold Dict.mem. cbn [Dict.get].
  apply String.eqb_neq in Hne. by rewrite Hne.
Qed.

End ScalarExprFacts.

Section ScalarExprClaims.
Import ScalarExprs.

(** [a[_0] + b[_1, _0]] along axis 0: [a] along its axis 0, [b] along its
    axis 1. *)
Example rec_sum_of_subscripts :
  rec 0 false
    (Arith Sum [Subscript "a" [Var "_0"]; Subscript "b" [Var "_1"; Var "_0"]])
  = Ok [("a", ConcatableAlongAxis 0); ("b", ConcatableAlongAxis 1)].
Proof. reflexivity. Qed.

(** [a[_0] + a[_1]] along axis 0: [a] would have to be concatenated along
    its axis 0 and be constant. *)
Example rec_conflict :
  rec 0 false (Arith Sum [Subscript "a" [Var "_0"]; Subscript "a" [Var "_1"]])
  = Raise NonConcatableExpression.
Proof. reflexivity. Qed.

(** [a[_0 + 1]] is refused along axis 0, with and without indirect
    addressing. *)
Example rec_shifted_index allow :
  rec 0 allow (Subscript "a" [Arith Sum [Var "_0"; Constant 1]])
  = Raise NonConcatableExpression.
Proof. by destruct allow. Qed.

(** C2. Along output axis [iaxis], the concatenatability of the bindings
    of an index lambda is read off its scalar expression as follows.
    (1) A bare occurrence of [_iaxis], that is one that is not a whole
        index of a subscript, makes the mapper raise
        [NonConcatableExpression].
    (2) A subscript [name[.., _iaxis, ..]] with [_iaxis] at position [j],
        anywhere the mapper gets to, puts [name] on
        [ConcatableAlongAxis j] in the value of the whole expression.
    (3) Two visited sub-expressions that put the same binding on different
        concatenatabilities make the mapper raise, and so does a subscript
        with [_iaxis] at two positions.
    (4) A subscript with no [_iaxis] in its indices puts its aggregate on
        [ConcatableIfConstant].
    (5) Without indirect addressing an index that has [_iaxis] in it,
        without being [_iaxis], makes the mapper raise; with indirect
        addressing [name[y[_iaxis]]] is accepted, [y] along its axis 0 and
        [name] constant. *)
Theorem scalar_expr_concatability_rules (iaxis : nat) :
  (forall allow e,
      bare iaxis e = true ->
      rec iaxis allow e = Raise NonConcatableExpression)
  /\ (forall allow e name index_tuple j m,
      visited iaxis (Subscript name index_tuple) e ->
      index_tuple !! j = Some (Var (index_name iaxis)) ->
      rec iaxis allow e = Ok m ->
      Dict.get name m = Some (ConcatableAlongAxis j))
  /\ (forall allow e s1 s2 m1 m2 name c1 c2,
      visited iaxis s1 e -> visited iaxis s2 e ->
      rec iaxis allow s1 = Ok m1 -> rec iaxis allow s2 = Ok m2 ->
      Dict.get name m1 = Some c1 -> Dict.get name m2 = Some c2 ->
      c1 <> c2 ->
      rec iaxis allow e = Raise NonConcatableExpression)
  /\ (forall allow name index_tuple j1 j2,
      j1 <> j2 ->
      index_tuple !! j1 = Some (Var (index_name iaxis)) ->
      index_tuple !! j2 = Some (Var (index_name iaxis)) ->
      rec iaxis allow (Subscript name index_tuple)
      = Raise NonConcatableExpression)
  /\ (forall allow e name index_tuple m,
      visited iaxis (Subscript name index_tuple) e ->
      mentions iaxis (Subscript name index_tuple) = false ->
      rec iaxis allow e = Ok m ->
      Dict.get name m = Some ConcatableIfConstant)
  /\ (forall name index_tuple idx,
      idx ∈ index_tuple ->
      is_index_variable iaxis idx = false ->
      mentions iaxis idx = true ->
      rec iaxis false (Subscript name index_tuple)
      = Raise NonConcatableExpression)
  /\ (forall name y,
      name <> y ->
      rec iaxis true (Subscript name [Subscript y [Var (index_name iaxis)]])
      = Ok [(y, ConcatableAlongAxis 0); (name, ConcatableIfConstant)]).
Proof.
  split; [|split; [|split; [|split; [|split; [|split]]]]].
  - intros allow e. apply rec_bare.
  - intros allow e name l j m Hv Hj H.
    destruct (rec_visited _ _ _ _ _ Hv H) as (ms & Hs & Hin).
    apply Hin. eapply rec_subscript_along; eauto.
    apply is_index_variable_index_name.
  - intros allow e s1 s2 m1 m2 name c1 c2 Hv1 Hv2 H1 H2 Hg1 Hg2 Hne.
    apply rec_not_Ok_Raise. intros m H.
    destruct (rec_visited _ _ _ _ _ Hv1 H) as (m1' & Hs1 & Hin1).
    destruct (rec_visited _ _ _ _ _ Hv2 H) as (m2' & Hs2 & Hin2).
    assert (m1' = m1) as -> by congruence.
    assert (m2' = m2) as -> by congruence.
    apply Hin1 in Hg1. apply Hin2 in Hg2. congruence.
  - intros allow name l j1 j2 Hne H1 H2.
    apply rec_not_Ok_Raise. intros m H.
    pose proof (rec_subscript_along _ _ _ _ _ _ _ H H1
                  (is_index_variable_index_name _)) as G1.
    pose proof (rec_subscript_along _ _ _ _ _ _ _ H H2
                  (is_index_variable_index_name _)) as G2.
    congruence.
  - intros allow e name l m Hv Hm H.
    destruct (rec_visited _ _ _ _ _ Hv H) as (ms & Hs & Hin).
    apply Hin.
    destruct (rec_subscript_Ok _ _ _ _ _ Hs) as (_ & _ & _ & _ & _ & [c Hc] & _).
    rewrite Hc. f_equal.
    eapply rec_no_mention; eauto. by apply Dict_get_elem_of.
  - intros name l idx. apply rec_index_mentions.
  - intros name y. apply rec_indirect.
Qed.

(** The rules of C2 at [b[_1, _0] * c[_1]] along axis 0, and at indices
    the mapper refuses. *)
Lemma scalar_expr_concatability_rules_witness :
  rec 0 false (Arith Sum [Var "_0"; Subscript "a" [Var "_0"]])
    = Raise NonConcatableExpression
  /\ Dict.get "b"
       [("b", ConcatableAlongAxis 1); ("c", ConcatableIfConstant)]
     = Some (ConcatableAlongAxis 1)
  /\ rec 0 false (Subscript "a" [Var "_0"; Var "_0"])
     = Raise NonConcatableExpression
  /\ rec 0 false (Subscript "a" [Arith Product [Constant 2; Var "_0"]])
     = Raise NonConcatableExpression.
Proof.
  destruct (scalar_expr_concatability_rules 0)
    as (Hbare & Halong & _ & Htwice & _ & Hidx & _).
  split; [|split; [|split]].
  - apply Hbare. reflexivity.
  - apply (Halong false
             (Arith Product [Subscript "b" [Var "_1"; Var "_0"];
                             Subscript "c" [Var "_1"]])
             "b" [Var "_1"; Var "_0"] 1%nat).
    + eapply visited_arith; [by left | apply visited_refl].
    + reflexivity.
    + reflexivity.
  - apply (Htwice false "a" _ 0%nat 1%nat); [lia | reflexivity | reflexivity].
  - apply (Hidx "a" _ (Arith Product [Constant 2; Var "_0"]));
      [by left | reflexivity | reflexivity].
Defined.

End ScalarExprClaims.

(** *** Plan validation: arrays that can be concatenated along an axis *)

Section VerifyFacts.
Import Arrays Calls.

Lemma allM_nil {A} (f : A -> res bool) : allM f [] = Ok true.
Proof. reflexivity. Qed.

Lemma allM_cons {A} (f : A -> res bool) x l :
  allM f (x :: l) = f x ≫= (fun b : bool => if b then allM f l else Ok false).
Proof. reflexivity. Qed.

(** Where every test returns, [all] is the conjunction of the tests. *)
Lemma allM_forallb {A} (f : A -> res bool) (g : A -> bool) l :
  (forall x, x ∈ l -> f x = Ok (g x)) -> allM f l = Ok (forallb g l).
Proof.
  induction l as [|x l IH]; intros H; [done|].
  rewrite allM_cons, (H x) by (by left). cbn.
  destruct (g x); [|done]. apply IH. intros y Hy. apply H. by right.
Qed.

Lemma remove_dups_singleton {A} `{EqDecision A} (l : list A) :
  length (remove_dups l) = 1%nat <->
  exists v, l <> [] /\ forall x, x ∈ l -> x = v.
Proof.
  split.
  - intros H. destruct (remove_dups l) as [|v [|? ?]] eqn:Hr; try discriminate.
    exists v. split.
    + intros ->. discriminate.
    + intros x Hx. apply elem_of_remove_dups in Hx. rewrite Hr in Hx.
      by apply list_elem_of_singleton in Hx.
  - intros (v & Hne & Hall).
    assert (remove_dups l = [v]) as ->; [|done].
    induction l as [|x l IH]; [done|].
    assert (x = v) as -> by (apply Hall; by left).
    cbn. destruct (decide_rel elem_of v l) as [Hin|Hnin].
    + apply IH; [|intros z Hz; apply Hall; by right].
      intros ->. by apply elem_of_nil in Hin.
    + destruct l as [|y l]; [done|]. destruct Hnin.
      assert (y = v) as -> by (apply Hall; right; by left). by left.
Qed.

Lemma shape_at_lt a iaxis :
  (iaxis < ndim a)%nat -> shape_at a iaxis = Ok (axis_len (shape a) iaxis).
Proof.
  intros H. unfold shape_at, axis_len.
  destruct (shape a !! iaxis) eqn:E; [done|].
  apply lookup_ge_None_1 in E. unfold ndim in H. lia.
Qed.

Lemma _have_same_axis_length_total template others idim :
  let arrays := template :: others in
  (forall a, a ∈ arrays -> (idim < ndim a)%nat) ->
  _have_same_axis_length arrays idim
  = Ok (forallb (fun ary => Z.eqb (axis_len (shape ary) idim)
                                  (axis_len (shape template) idim)) arrays).
Proof.
  intros arrays H. unfold _have_same_axis_length. cbn [arrays].
  rewrite shape_at_lt by (apply H; by left). cbn [mbind res_bind Py.bind].
  apply allM_forallb. intros a Ha. by rewrite shape_at_lt by (by apply H).
Qed.

Lemma _have_same_axis_length_except_total template others iaxis :
  _have_same_axis_length_except (template :: others) iaxis
  = Ok (shapes_compatibleb (template :: others) iaxis).
Proof.
  unfold _have_same_axis_length_except, shapes_compatibleb.
  destruct (forallb _ (template :: others)) eqn:Hn; [|done].
  rewrite andb_true_l. apply allM_forallb. intros idim Hidim.
  apply _have_same_axis_length_total. intros a Ha.
  rewrite forallb_forall in Hn. apply list_elem_of_In, Hn in Ha.
  apply Nat.eqb_eq in Ha. rewrite Ha.
  apply list_elem_of_filter in Hidim as [_ Hidim].
  apply list_elem_of_In, in_seq in Hidim. lia.
Qed.

Lemma shapes_compatibleb_spec template others iaxis :
  shapes_compatibleb (template :: others) iaxis = true
  <-> shapes_compatible (template :: others) iaxis.
Proof.
  unfold shapes_compatibleb, shapes_compatible.
  rewrite andb_true_iff, !forallb_forall. split.
  - intros [Hn Hl].
    assert (forall a, a ∈ template :: others -> ndim a = ndim template) as Hn'.
    { intros a Ha. by apply Nat.eqb_eq, Hn, list_elem_of_In. }
    assert (forall a idim, a ∈ template :: others -> idim <> iaxis ->
                           shape a !! idim = shape template !! idim) as Hl'.
    { intros a idim Ha Hne.
      destruct (decide (idim < ndim template)%nat) as [Hlt|Hge].
      - assert (idim ∈ filter (fun idim => idim <> iaxis) (seq 0 (ndim template))).
        { apply list_elem_of_filter. split; [done|].
          apply list_elem_of_In, in_seq. lia. }
        apply list_elem_of_In, Hl in H. rewrite forallb_forall in H.
        pose proof Ha as Ha'.
        apply list_elem_of_In, H, Z.eqb_eq in Ha'. unfold axis_len in Ha'.
        destruct (lookup_lt_is_Some_2 (shape template) idim Hlt) as [x Hx].
        destruct (lookup_lt_is_Some_2 (shape a) idim) as [y Hy].
        { fold (ndim a). rewrite Hn' by done. done. }
        rewrite Hx, Hy in *. cbn in Ha'. by subst.
      - rewrite !lookup_ge_None_2; [done| |].
        + fold (ndim template). lia.
        + fold (ndim a). rewrite Hn' by done. lia. }
    split.
    + intros a b Ha Hb. by rewrite (Hn' a), (Hn' b).
    + intros a b idim Ha Hb Hne. by rewrite (Hl' a), (Hl' b).
  - intros [Hn Hl]. split.
    + intros a Ha. apply Nat.eqb_eq, Hn; [by apply list_elem_of_In | by left].
    + intros idim Hidim. apply forallb_forall. intros a Ha.
      apply list_elem_of_In, list_elem_of_filter in Hidim as [Hne _].
      apply Z.eqb_eq. unfold axis_len.
      by rewrite (Hl a template idim) by (try apply list_elem_of_In; done || by left).
Qed.

Lemma field_varies_spec arrays field :
  arrays <> [] ->
  (forall a, a ∈ arrays -> exists v, getattr a field = Ok v) ->
  exists b, field_varies arrays field = Ok b /\
            (b = false <-> field_agrees arrays field).
Proof.
  intros Hne Hex. unfold field_varies.
  assert (exists values, mapM (fun ary => getattr ary field) arrays = Ok values /\
            Forall2 (fun a v => getattr a field = Ok v) arrays values)
    as (values & -> & Hvals).
  { clear Hne. induction arrays as [|a l IH]; [exists []; split; [done|constructor]|].
    destruct (Hex a) as [v Hv]; [by left|].
    destruct IH as (vs & Hvs & HF); [intros b Hb; apply Hex; by right|].
    exists (v :: vs). rewrite mapM_cons, Hv, Hvs. split; [done|]. by constructor. }
  cbn. eexists. split; [done|].
  rewrite negb_false_iff, Nat.eqb_eq, remove_dups_singleton. split.
  - intros (v & _ & Hall). exists v. intros a Ha.
    apply list_elem_of_lookup_1 in Ha as [i Hi].
    destruct (Forall2_lookup_l _ _ _ _ _ Hvals Hi) as (v' & Hv' & Hg).
    rewrite Hg. f_equal. apply Hall. by eapply list_elem_of_lookup_2.
  - intros (v & Hall). exists v. split.
    + intros ->. apply Forall2_nil_inv_r in Hvals. done.
    + intros x Hx. apply list_elem_of_lookup_1 in Hx as [i Hi].
      destruct (Forall2_lookup_r _ _ _ _ _ Hvals Hi) as (a & Ha & Hg).
      apply list_elem_of_lookup_2 in Ha. apply Hall in Ha. congruence.
Qed.

Lemma verify_fields_loop arrays fields :
  arrays <> [] ->
  (forall field a, field ∈ fields -> a ∈ arrays -> exists v, getattr a field = Ok v) ->
  ((forall field, field ∈ fields -> field_agrees arrays field) ->
   foldM (fun _ field =>
            varies ← field_varies arrays field;
            if varies : bool then Raise InvalidConcatenatability else Ok tt)
         tt fields = Ok tt) /\
  (~ (forall field, field ∈ fields -> field_agrees arrays field) ->
   foldM (fun _ field =>
            varies ← field_varies arrays field;
            if varies : bool then Raise InvalidConcatenatability else Ok tt)
         tt fields = Raise InvalidConcatenatability).
Proof.
  intros Hne. induction fields as [|field fields IH]; intros Hex.
  - split; [done|]. intros H. destruct H. intros f Hf. by apply elem_of_nil in Hf.
  - destruct (field_varies_spec arrays field Hne) as (b & Hb & Hspec).
    { intros a Ha. apply (Hex field a); [by left | done]. }
    destruct IH as [IHok IHbad].
    { intros f a Hf Ha. apply Hex; [by right | done]. }
    rewrite foldM_cons, Hb. cbn [mbind res_bind Py.bind]. split.
    + intros Hall. destruct b.
      * assert (true = false) by (apply Hspec, Hall; by left). discriminate.
      * apply IHok. intros f Hf. apply Hall. by right.
    + intros Hnot. destruct b; [done|]. apply IHbad. intros Hall.
      apply Hnot. intros f Hf. apply elem_of_cons in Hf as [->|Hf]; [|auto].
      by apply Hspec.
Qed.

(** What [_verify_arrays_can_be_concated_along_axis] accepts and what it
    refuses, for fields that every array has. *)
Lemma _verify_arrays_can_be_concated_along_axis_spec template others fields iaxis :
  let arrays := template :: others in
  (forall field a, field ∈ fields -> a ∈ arrays -> exists v, getattr a field = Ok v) ->
  let acceptable :=
    shapes_compatible arrays iaxis /\
    forall field, field ∈ fields -> field_agrees arrays field in
  (acceptable ->
   _verify_arrays_can_be_concated_along_axis arrays fields iaxis = Ok tt) /\
  (~ acceptable ->
   _verify_arrays_can_be_concated_along_axis arrays fields iaxis
   = Raise InvalidConcatenatability).
Proof.
  intros arrays Hex acceptable. unfold _verify_arrays_can_be_concated_along_axis.
  subst arrays. rewrite _have_same_axis_length_except_total.
  cbn [mbind res_bind Py.bind].
  destruct (verify_fields_loop (template :: others) fields) as [Hok Hbad];
    [done | done |].
  pose proof (shapes_compatibleb_spec template others iaxis) as Hs.
  destruct (shapes_compatibleb (template :: others) iaxis); cbn [negb].
  - split.
    + intros [_ Hf]. by apply Hok.
    + intros Hnot. apply Hbad. intros Hf. apply Hnot. split; [by apply Hs | done].
  - split; [|done]. intros [Hsh _]. apply Hs in Hsh. discriminate.
Qed.

Lemma imap_id_ext {A} (g : nat -> A -> A) (l : list A) :
  (forall j y, g j y = y) -> imap g l = l.
Proof.
  revert g. induction l as [|y l IH]; intros g Hg; [done|].
  cbn. rewrite Hg. f_equal. apply IH. intros j z. apply Hg.
Qed.

Lemma imap_insert_ext {A} (f : nat -> A -> A) (l : list A) i x :
  (forall j y, f j y = if decide (j <> i) then y else x) ->
  imap f l = <[i := x]> l.
Proof.
  revert f i. induction l as [|y l IH]; intros f i Hf; [done|].
  cbn. rewrite Hf. destruct i as [|i]; cbn.
  - f_equal. apply imap_id_ext. intros j z. unfold compose. rewrite Hf.
    by rewrite decide_True by lia.
  - f_equal. apply IH. intros j z. unfold compose. rewrite Hf.
    destruct (decide (j <> i)), (decide (S j <> S i)); (done || lia).
Qed.

Lemma imap_insert {A} (l : list A) i x :
  imap (fun j y => if decide (j <> i) then y else x) l = <[i := x]> l.
Proof. by apply imap_insert_ext. Qed.

Lemma foldl_Zadd_foldr (l : list Z) z : foldl Z.add z l = z + foldr Z.add 0 l.
Proof.
  revert z. induction l as [|x l IH]; intros z; cbn; [lia|]. rewrite IH. lia.
Qed.

(** [_get_concatenated_shape]: the shape of the first array with the lengths
    along [iaxis] summed. *)
Lemma _get_concatenated_shape_spec template others iaxis :
  let arrays := template :: others in
  (forall a, a ∈ arrays -> (iaxis < ndim a)%nat) ->
  _get_concatenated_shape arrays iaxis
  = Ok (<[iaxis := foldr Z.add 0 (map (fun a => axis_len (shape a) iaxis) arrays)]>
          (shape template)).
Proof.
  intros arrays H. unfold _get_concatenated_shape.
  assert (mapM (fun ary => shape_at ary iaxis) arrays
          = Ok (map (fun a => axis_len (shape a) iaxis) arrays)) as ->.
  { generalize dependent arrays. clear template others.
    intros arrays H. induction arrays as [|a l IH]; [done|].
    rewrite mapM_cons, shape_at_lt by (apply H; by left).
    cbn [mbind res_bind Py.bind]. rewrite IH; [done|]. intros b Hb. apply H. by right. }
  cbn [mbind res_bind Py.bind]. subst arrays. cbv zeta. cbv iota.
  rewrite imap_insert, foldl_Zadd_foldr. do 2 f_equal.
Qed.

Lemma exprs_where_longer_spec arrays axis :
  (forall a, a ∈ arrays -> (axis < ndim a)%nat /\ exists e, expr_of a = Ok e) ->
  exists es,
    exprs_where_longer arrays axis = Ok es
    /\ forall e, e ∈ es <-> exists a, a ∈ arrays
                                    /\ axis_len (shape a) axis <> 1
                                    /\ expr_of a = Ok e.
Proof.
  induction arrays as [|a rest IH]; intros H.
  - exists []. split; [done|]. intros e. split.
    + by intros ?%elem_of_nil.
    + by intros (a & ?%elem_of_nil & _).
  - destruct IH as (es & Hes & Hin); [intros b Hb; apply H; by right|].
    destruct (H a) as (Hlt & e0 & He0); [by left|].
    cbn [exprs_where_longer]. rewrite (shape_at_lt _ _ Hlt).
    cbn [mbind res_bind Py.bind].
    destruct (axis_len (shape a) axis =? 1) eqn:E; cbn [negb].
    + apply Z.eqb_eq in E. exists es. split; [done|]. intros e.
      rewrite Hin. split.
      * intros (b & Hb & ?). exists b. split; [by right | done].
      * intros (b & [->|Hb]%elem_of_cons & Hne & ?); [done|]. by exists b.
    + apply Z.eqb_neq in E. rewrite He0, Hes. cbn [mbind res_bind Py.bind].
      exists (e0 :: es). split; [done|]. intros e.
      rewrite elem_of_cons, Hin. split.
      * intros [->|(b & Hb & ?)].
        -- exists a. split; [by left | done].
        -- exists b. split; [by right | done].
      * intros (b & [->|Hb]%elem_of_cons & Hne & Hb').
        -- left. congruence.
        -- right. by exists b.
Qed.

End VerifyFacts.

Section VerifyClaims.
Import Arrays Calls Scenario.
#[local] Existing Instance ScalarExprs.ScalarExpr_EqDecision.

Lemma getattr_dtype a : getattr a "dtype" = Ok (DTypeValue (dtype a)).
Proof. reflexivity. Qed.

Lemma field_agrees_dtype template others :
  field_agrees (template :: others) "dtype"
  <-> forall a, a ∈ template :: others -> dtype a = dtype template.
Proof.
  split.
  - intros [v Hv] a Ha. pose proof (Hv a Ha) as H1.
    pose proof (Hv template (list_elem_of_here _ _)) as H2.
    rewrite getattr_dtype in H1, H2. congruence.
  - intros H. exists (DTypeValue (dtype template)). intros a Ha.
    rewrite getattr_dtype. by rewrite H.
Qed.

Lemma getattr_name_input a :
  is_InputArgumentBase a = true -> exists v, getattr a "name" = Ok v.
Proof. destruct a; try discriminate; intros _; eexists; reflexivity. Qed.

Lemma field_agrees_same template others field :
  (forall a, a ∈ template :: others -> exists v, getattr a field = Ok v) ->
  field_agrees (template :: others) field
  <-> forall a, a ∈ template :: others -> getattr a field = getattr template field.
Proof.
  intros Hex. split.
  - intros [v Hv] a Ha. rewrite (Hv a Ha). symmetry. apply Hv. by left.
  - intros H. destruct (Hex template) as [v Hv]; [by left|].
    exists v. intros a Ha. by rewrite H.
Qed.

Example verify_x1_x2 : _map_input_arg_base_check x1 (ConcatableAlongAxis 0) [x2] = Ok tt.
Proof. reflexivity. Qed.

Example verify_x1_x3 :
  _map_input_arg_base_check x1 (ConcatableAlongAxis 0) [x3]
  = Raise InvalidConcatenatability.
Proof. reflexivity. Qed.

Example verify_x1_x4 :
  _map_input_arg_base_check x1 (ConcatableAlongAxis 0) [x4]
  = Raise InvalidConcatenatability.
Proof. reflexivity. Qed.

Example verify_x1_y2 :
  _map_input_arg_base_check x1 (ConcatableAlongAxis 0) [y2]
  = Raise InvalidConcatenatability.
Proof. reflexivity. Qed.

Example concatenated_shape_x1_x2 : _get_concatenated_shape [x1; x2] 0 = Ok [11; 3].
Proof. reflexivity. Qed.

(** Index lambdas that agree in shape and [dtype] are rejected when those
    longer than 1 along the axis have two scalar expressions, and when none
    is longer than 1. *)
Example verify_index_lambdas_two_exprs :
  _map_index_lambda_like_check id [] (body x1) (ConcatableAlongAxis 0)
    [IndexLambda (ScalarExprs.Subscript "x" [ScalarExprs.Var "_0";
                                              ScalarExprs.Var "_1"])
       [7; 3] "float64" (BCons "x" x2 BNil) (default_meta 2)] []
  = Raise InvalidConcatenatability.
Proof. reflexivity. Qed.

Example verify_index_lambdas_of_length_1 :
  _map_index_lambda_like_check id []
    (IndexLambda twice [1; 3] "float64" BNil (default_meta 2))
    (ConcatableAlongAxis 0)
    [IndexLambda twice [1; 3] "float64" BNil (default_meta 2)] []
  = Raise InvalidConcatenatability.
Proof. reflexivity. Qed.

(** C3. Arrays [template :: others] that correspond to each other across
    the call sites pass the check for concatenation along [iaxis] exactly
    when they have the same number of dimensions, the same length on every
    axis but [iaxis], and one value for every field that must be the same;
    otherwise [_InvalidConcatenatability] is raised.  The collector asks
    for ["dtype"] and ["name"] at input arguments.  At arrays handled like
    index lambdas it records the concatenatability, which must not be
    recorded yet, and asks for ["dtype"] of the arrays lowered to index
    lambdas: they are rejected unless shapes and [dtype] agree, and are
    rejected as well unless those that are not of length 1 along [iaxis],
    of which there must be one, have one scalar expression.  The shape of
    the concatenated node is the shape of [template] with the entry at
    [iaxis] replaced by the sum of the lengths along [iaxis] of all the
    arrays. *)
Theorem concatenation_candidates_are_validated (template : Array)
    (others : list Array) (iaxis : nat) :
  let arrays := template :: others in
  let same_dtype := forall a, a ∈ arrays -> dtype a = dtype template in
  let same_name :=
    forall a, a ∈ arrays -> getattr a "name" = getattr template "name" in
  (* any list of fields that the arrays have *)
  (forall fields,
      (forall field a, field ∈ fields -> a ∈ arrays ->
                       exists v, getattr a field = Ok v) ->
      ((shapes_compatible arrays iaxis /\
        forall field, field ∈ fields -> field_agrees arrays field) ->
       _verify_arrays_can_be_concated_along_axis arrays fields iaxis = Ok tt) /\
      (~ (shapes_compatible arrays iaxis /\
          forall field, field ∈ fields -> field_agrees arrays field) ->
       _verify_arrays_can_be_concated_along_axis arrays fields iaxis
       = Raise InvalidConcatenatability))
  (* arrays handled like index lambdas *)
  /\ (forall to_index_lambda current_stack ary_to_concatenatability,
      let lowered := map to_index_lambda arrays in
      let acceptable :=
        shapes_compatible lowered iaxis
        /\ forall a, a ∈ lowered -> dtype a = dtype (to_index_lambda template) in
      let one_expr :=
        exists e,
          (exists a, a ∈ lowered /\ axis_len (shape a) iaxis <> 1)
          /\ forall a, a ∈ lowered -> axis_len (shape a) iaxis <> 1 ->
                        expr_of a = Ok e in
      let check :=
        _map_index_lambda_like_check to_index_lambda current_stack template
          (ConcatableAlongAxis iaxis) others ary_to_concatenatability in
      (is_Some (kget (current_stack, template) ary_to_concatenatability) ->
       check = Raise AssertionError)
      /\ (kget (current_stack, template) ary_to_concatenatability = None ->
          (~ acceptable -> check = Raise InvalidConcatenatability)
          /\ ((forall a, a ∈ lowered ->
                  (iaxis < ndim a)%nat /\ exists e, expr_of a = Ok e) ->
              (acceptable /\ one_expr ->
               check = Ok (kset (current_stack, template)
                                (ConcatableAlongAxis iaxis)
                                ary_to_concatenatability))
              /\ (~ (acceptable /\ one_expr) ->
                  check = Raise InvalidConcatenatability))))
  (* input arguments *)
  /\ ((forall a, a ∈ arrays -> is_InputArgumentBase a = true) ->
      (shapes_compatible arrays iaxis /\ same_dtype /\ same_name ->
       _map_input_arg_base_check template (ConcatableAlongAxis iaxis) others
       = Ok tt) /\
      (~ (shapes_compatible arrays iaxis /\ same_dtype /\ same_name) ->
       _map_input_arg_base_check template (ConcatableAlongAxis iaxis) others
       = Raise InvalidConcatenatability))
  (* the concatenated shape *)
  /\ ((forall a, a ∈ arrays -> (iaxis < ndim a)%nat) ->
      _get_concatenated_shape arrays iaxis
      = Ok (<[iaxis := foldr Z.add 0
                         (map (fun a => axis_len (shape a) iaxis) arrays)]>
              (shape template))).
Proof.
  intros arrays same_dtype same_name.
  split; [|split; [|split]].
  - intros fields Hex.
    apply (_verify_arrays_can_be_concated_along_axis_spec template others fields iaxis Hex).
  - intros to_index_lambda current_stack a2c lowered acceptable one_expr check.
    subst check. unfold _map_index_lambda_like_check, _record_concatability.
    split.
    { intros [c Hc]. by rewrite Hc. }
    intros ->. cbn [mbind res_bind Py.bind].
    destruct (_verify_arrays_can_be_concated_along_axis_spec
                (to_index_lambda template) (map to_index_lambda others)
                ["dtype"] iaxis) as [Hok Hbad].
    { intros field a Hf _. apply list_elem_of_singleton in Hf as ->.
      eexists. apply getattr_dtype. }
    assert (acceptable ->
            _verify_arrays_can_be_concated_along_axis
              (to_index_lambda template :: map to_index_lambda others)
              ["dtype"] iaxis = Ok tt) as Hok'.
    { intros [Hs Hd]. apply Hok. split; [done|].
      intros field Hf. apply list_elem_of_singleton in Hf as ->.
      by apply field_agrees_dtype. }
    assert (~ acceptable ->
            _verify_arrays_can_be_concated_along_axis
              (to_index_lambda template :: map to_index_lambda others)
              ["dtype"] iaxis = Raise InvalidConcatenatability) as Hbad'.
    { intros Hnot. apply Hbad. intros [Hs Hf]. apply Hnot. split; [done|].
      refine (proj1 (field_agrees_dtype _ _) _). apply Hf. by left. }
    split.
    { intros Hnot. by rewrite (Hbad' Hnot). }
    intros Hlowered.
    destruct (exprs_where_longer_spec lowered iaxis Hlowered)
      as (es & Hes & Hin).
    change (to_index_lambda template :: map to_index_lambda others)
      with lowered in *.
    assert (length (remove_dups es) = 1%nat <-> one_expr) as Hone.
    { rewrite remove_dups_singleton. split.
      - intros (v & Hne & Hall). exists v. split.
        + destruct es as [|e0 es']; [done|].
          destruct (proj1 (Hin e0)) as (a & Ha & Hlen & _); [by left|].
          by exists a.
        + intros a Ha Hlen. destruct (Hlowered a Ha) as (_ & e & He).
          rewrite He. f_equal. apply Hall, Hin. by exists a.
      - intros (e & (a & Ha & Hlen) & Hall). exists e. split.
        + intros ->. apply (elem_of_nil e), Hin. exists a. auto.
        + intros x (b & Hb & Hblen & Hbx)%Hin.
          rewrite (Hall b Hb Hblen) in Hbx. congruence. }
    split.
    + intros [Hacc Hexpr]. rewrite (Hok' Hacc). cbn [mbind res_bind Py.bind].
      rewrite Hes. cbn [mbind res_bind Py.bind].
      apply Hone in Hexpr. by rewrite Hexpr.
    + intros Hnot.
      destruct (_verify_arrays_can_be_concated_along_axis lowered ["dtype"] iaxis)
        as [[]|e] eqn:Hv; cbn [mbind res_bind Py.bind].
      * rewrite Hes. cbn [mbind res_bind Py.bind].
        destruct (Nat.eqb (length (remove_dups es)) 1) eqn:E; [|done].
        apply Nat.eqb_eq, Hone in E. exfalso.
        assert (~ acceptable) as Hn by (intros Hacc; by apply Hnot).
        discriminate (Hbad' Hn).
      * assert (~ e <> InvalidConcatenatability) as Hnn.
        { intros Hne.
          assert (~ acceptable) as Hn
            by (intros Hacc; discriminate (Hok' Hacc)).
          specialize (Hbad' Hn). by injection Hbad' as ->. }
        destruct e; try done; exfalso; apply Hnn; discriminate.
  - intros Hinput. unfold _map_input_arg_base_check.
    assert (forall a, a ∈ arrays -> exists v, getattr a "name" = Ok v) as Hname.
    { intros a Ha. by apply getattr_name_input, Hinput. }
    destruct (_verify_arrays_can_be_concated_along_axis_spec
                template others ["dtype"; "name"] iaxis) as [Hok Hbad].
    { intros field a Hf Ha. apply elem_of_cons in Hf as [->|Hf].
      - eexists. apply getattr_dtype.
      - apply list_elem_of_singleton in Hf as ->. by apply Hname. }
    split.
    + intros (Hs & Hd & Hn). apply Hok. split; [done|].
      intros field Hf. apply elem_of_cons in Hf as [->|Hf].
      * by apply field_agrees_dtype.
      * apply list_elem_of_singleton in Hf as ->. by apply field_agrees_same.
    + intros Hnot. apply Hbad. intros [Hs Hf]. apply Hnot. split; [done|]. split.
      * refine (proj1 (field_agrees_dtype template others) _). apply Hf. by left.
      * refine (proj1 (field_agrees_same template others "name" Hname) _).
        apply Hf. right. by left.
  - apply _get_concatenated_shape_spec.
Qed.

(** C3 at the placeholders [x : 4x3] and [x : 7x3] along axis 0, and at the
    index lambdas [2 * x] over them. *)
Lemma concatenation_candidates_are_validated_witness :
  _map_input_arg_base_check x1 (ConcatableAlongAxis 0) [x2] = Ok tt
  /\ _get_concatenated_shape [x1; x2] 0 = Ok [11; 3]
  /\ _map_index_lambda_like_check id [] (body x1) (ConcatableAlongAxis 0)
       [body x2] []
     = Ok [(([], body x1), ConcatableAlongAxis 0)].
Proof.
  destruct (concatenation_candidates_are_validated x1 [x2] 0)
    as (_ & _ & Hin & Hshape).
  destruct (concatenation_candidates_are_validated (body x1) [body x2] 0)
    as (_ & Hlike & _ & _).
  split; [|split].
  - apply Hin.
    + intros a Ha. apply elem_of_cons in Ha as [->|Ha]; [done|].
      by apply list_elem_of_singleton in Ha as ->.
    + split; [|split].
      * apply (shapes_compatibleb_spec x1 [x2] 0). reflexivity.
      * intros a Ha. apply elem_of_cons in Ha as [->|Ha]; [done|].
        by apply list_elem_of_singleton in Ha as ->.
      * intros a Ha. apply elem_of_cons in Ha as [->|Ha]; [done|].
        by apply list_elem_of_singleton in Ha as ->.
  - apply Hshape. intros a Ha. apply elem_of_cons in Ha as [->|Ha].
    + cbn. lia.
    + apply list_elem_of_singleton in Ha as ->. cbn. lia.
  - apply (Hlike id [] []); [reflexivity | |].
    + intros a Ha. apply elem_of_cons in Ha as [->|Ha];
        [|apply list_elem_of_singleton in Ha as ->];
        (split; [cbn; lia | by eexists]).
    + split; [split|].
      * apply (shapes_compatibleb_spec (body x1) [body x2] 0). reflexivity.
      * intros a Ha. apply elem_of_cons in Ha as [->|Ha]; [done|].
        by apply list_elem_of_singleton in Ha as ->.
      * exists twice. split.
        -- exists (body x1). split; [by left | done].
        -- intros a Ha _. apply elem_of_cons in Ha as [->|Ha]; [done|].
           by apply list_elem_of_singleton in Ha as ->.
Defined.

End VerifyClaims.

(** *** Concatenated inputs and output slices *)

Section SlicerFacts.
Import Arrays Calls.

Lemma kget_kset_eq {K V} `{EqDecision K} (k : K) (v : V) d :
  kget k (kset k v d) = Some v.
Proof.
  induction d as [|[k' v'] d IH]; cbn.
  - by rewrite decide_True.
  - destruct (decide (k = k')) as [->|Hne]; cbn.
    + by rewrite decide_True.
    + by rewrite decide_False.
Qed.

Lemma kget_kset_ne {K V} `{EqDecision K} (k k0 : K) (v : V) d :
  k <> k0 -> kget k (kset k0 v d) = kget k d.
Proof.
  intros Hne. induction d as [|[k' v'] d IH]; cbn.
  - by rewrite decide_False.
  - destruct (decide (k0 = k')) as [->|Hne']; cbn.
    + by rewrite !decide_False.
    + destruct (decide (k = k')); [done | apply IH].
Qed.

(** A loop [for c, v in zip(cs, vs): d[key(c)] = v] over distinct keys. *)
Lemma kget_foldl_zip_other {K V C} `{EqDecision K} (key : C -> K)
    (cs : list C) (vs : list V) d k :
  (forall c, c ∈ cs -> key c <> k) ->
  kget k (foldl (fun r '(c, v) => kset (key c) v r) d (zip cs vs)) = kget k d.
Proof.
  revert vs d. induction cs as [|c cs IH]; intros vs d Hk; [done|].
  destruct vs as [|v vs]; [done|]. cbn.
  rewrite IH by (intros c' Hc'; apply Hk; by right).
  apply kget_kset_ne. intros ->. by apply (Hk c); [left|].
Qed.

Lemma kget_foldl_zip {K V C} `{EqDecision K} (key : C -> K)
    (cs : list C) (vs : list V) d i c v :
  NoDup (map key cs) ->
  cs !! i = Some c -> vs !! i = Some v ->
  kget (key c) (foldl (fun r '(c, v) => kset (key c) v r) d (zip cs vs)) = Some v.
Proof.
  revert vs d i. induction cs as [|c0 cs IH]; intros vs d i Hnd Hc Hv; [done|].
  destruct vs as [|v0 vs]; [done|]. cbn in Hnd. apply NoDup_cons in Hnd as [Hnin Hnd].
  cbn. destruct i as [|i]; cbn in Hc, Hv.
  - injection Hc as ->. injection Hv as ->.
    rewrite kget_foldl_zip_other; [apply kget_kset_eq|].
    intros c' Hc' Heq. apply Hnin. rewrite <- Heq.
    apply list_elem_of_fmap. by exists c'.
  - by eapply IH.
Qed.

Lemma kget_foldl_const_gen {K V C} `{EqDecision K} (key : C -> K)
    (cs : list C) (v : V) d k :
  (exists c, c ∈ cs /\ key c = k) \/ kget k d = Some v ->
  kget k (foldl (fun r c => kset (key c) v r) d cs) = Some v.
Proof.
  revert d. induction cs as [|c0 cs IH]; intros d Hk; cbn.
  - destruct Hk as [(c & Hc & _)|Hk]; [by apply elem_of_nil in Hc | done].
  - apply IH. destruct (decide (k = key c0)) as [->|Hne].
    + right. apply kget_kset_eq.
    + destruct Hk as [(c & Hc & Hkc)|Hk].
      * apply elem_of_cons in Hc as [->|Hc]; [congruence|]. left. eauto.
      * right. by rewrite kget_kset_ne.
Qed.

Lemma kget_foldl_const {K V C} `{EqDecision K} (key : C -> K)
    (cs : list C) (v : V) d c :
  c ∈ cs ->
  kget (key c) (foldl (fun r c => kset (key c) v r) d cs) = Some v.
Proof. intros Hc. apply kget_foldl_const_gen. left. eauto. Qed.

Lemma kget_foldl_const_other {K V C} `{EqDecision K} (key : C -> K)
    (cs : list C) (v : V) d k :
  (forall c, c ∈ cs -> key c <> k) ->
  kget k (foldl (fun r c => kset (key c) v r) d cs) = kget k d.
Proof.
  revert d. induction cs as [|c cs IH]; intros d Hk; [done|]. cbn.
  rewrite IH by (intros c' Hc'; apply Hk; by right).
  apply kget_kset_ne. intros ->. by apply (Hk c); [left|].
Qed.

Lemma mapM_Ok_lookup {A B} (f : A -> res B) l ys i x :
  mapM f l = Ok ys -> l !! i = Some x ->
  exists y, ys !! i = Some y /\ f x = Ok y.
Proof.
  intros H Hx. apply mapM_Ok_inv in H.
  destruct (Forall2_lookup_l _ _ _ _ _ H Hx) as (y & ? & ?). eauto.
Qed.

Lemma slice_bounds_from_lookup end_prev sizes i size :
  sizes !! i = Some size ->
  slice_bounds_from end_prev sizes !! i
  = Some (end_prev + sum_list (take i sizes),
          end_prev + sum_list (take i sizes) + size).
Proof.
  revert end_prev i. induction sizes as [|s0 sizes IH]; intros e i Hi; [done|].
  destruct i as [|i]; cbn in *.
  - injection Hi as ->. do 2 f_equal; unfold sum_list; cbn; lia.
  - rewrite (IH _ _ Hi). unfold sum_list. cbn. do 2 f_equal; lia.
Qed.

(** The bounds [_OutputSlicer.__call__] computes: the [i]-th slice starts at
    the sum of the sizes before it and has the [i]-th size. *)
Lemma slice_bounds_lookup sizes i size :
  sizes !! i = Some size ->
  slice_bounds sizes !! i
  = Some (sum_list (take i sizes), sum_list (take i sizes) + size).
Proof.
  destruct sizes as [|s0 sizes]; [done|]. destruct i as [|i]; cbn.
  - intros [= ->]. done.
  - intros Hi. rewrite (slice_bounds_from_lookup _ _ _ _ Hi).
    unfold sum_list. cbn. do 2 f_equal.
Qed.

Lemma sum_list_take_S (l : list Z) i x :
  l !! i = Some x -> sum_list (take (S i) l) = sum_list (take i l) + x.
Proof.
  revert i. induction l as [|y l IH]; intros i Hi; [done|].
  destruct i as [|i]; cbn in Hi.
  - injection Hi as ->. unfold sum_list. cbn. rewrite take_0. cbn. lia.
  - change (take (S (S i)) (y :: l)) with (y :: take (S i) l).
    change (take (S i) (y :: l)) with (y :: take i l).
    unfold sum_list in *. cbn [foldr]. rewrite (IH _ Hi). lia.
Qed.

Lemma sliced_shape_insert (sh : list Z) axis s e :
  (axis < length sh)%nat ->
  sliced_shape sh (<[axis := Slice s e]> (replicate (length sh) SliceAll))
  = <[axis := e - s]> sh.
Proof.
  revert axis. induction sh as [|len sh IH]; intros axis Hlt; [cbn in Hlt; lia|].
  destruct axis as [|axis]; cbn.
  - f_equal. clear. induction sh as [|x sh IH]; cbn; [done | by rewrite IH].
  - f_equal. apply IH. cbn in Hlt. lia.
Qed.

(** [_get_slice] builds the [BasicIndex] node that slices [ary] along
    [axis] from [start_idx] to [end_idx], tagged [ImplStored], its axis
    [axis] carrying the marker tag; out of range it raises. *)
Lemma _get_slice_spec inherit_axes ary axis start_idx end_idx :
  _get_slice inherit_axes ary axis start_idx end_idx
  = if decide (axis < ndim ary)%nat
    then Ok (BasicIndex ary
               (<[axis := Slice start_idx end_idx]> (replicate (ndim ary) SliceAll))
               (marked_meta (ndim ary) axis (output_axis_tag inherit_axes axis)))
    else Raise IndexError.
Proof.
  unfold _get_slice. rewrite length_replicate.
  destruct (decide (axis < ndim ary)%nat) as [Hlt|Hge]; [|done].
  cbv zeta. unfold with_tagged_axis, getitem, default_meta. cbn [meta_of axes].
  rewrite lookup_replicate_2 by done. cbn. done.
Qed.

Lemma _InputConcatenator_spec inherit_axes arrays axis :
  let n := length (concatenated_shape (map shape arrays) axis) in
  _InputConcatenator inherit_axes arrays axis
  = if decide (axis < n)%nat
    then Ok (Concatenate (of_list arrays) axis
               (marked_meta n axis (input_axis_tag inherit_axes axis)))
    else Raise IndexError.
Proof.
  intros n. unfold _InputConcatenator, concatenate, with_tagged_axis, default_meta.
  cbn [meta_of axes]. fold n.
  destruct (decide (axis < n)%nat) as [Hlt|Hge].
  - rewrite lookup_replicate_2 by done. cbn. done.
  - rewrite lookup_ge_None_2 by (rewrite length_replicate; lia). done.
Qed.

Lemma marked_meta_tags n axis tag :
  (axis < n)%nat ->
  ImplStored ∈ tags (marked_meta n axis tag) /\
  exists ax, axes (marked_meta n axis tag) !! axis = Some ax /\ tag ∈ axis_tags ax.
Proof.
  intros Hlt. split; [by left|]. exists (MkAxis [tag]). split; [|by left].
  cbn. apply list_lookup_insert_eq. by rewrite length_replicate.
Qed.

Lemma mapM_shape_at_Ok (l : list Call) name axis sizes :
  mapM (fun cs => shape_at (call_result cs name) axis) l = Ok sizes ->
  sizes = output_lengths l name axis.
Proof.
  revert sizes. induction l as [|cs l IH]; intros sizes H.
  - by injection H as <-.
  - rewrite mapM_cons in H. apply bind_Ok_inv in H as (len & Hlen & H).
    apply bind_Ok_inv in H as (lens & Hlens & H). injection H as <-.
    unfold output_lengths. cbn [map]. f_equal; [|by apply IH].
    unfold shape_at in Hlen. unfold axis_len.
    destruct (shape (call_result cs name) !! axis); [|done]. by injection Hlen as ->.
Qed.

Lemma mapM_length {A B} (f : A -> res B) l ys :
  mapM f l = Ok ys -> length ys = length l.
Proof. intros H. apply mapM_Ok_inv in H. symmetry. by eapply Forall2_length. Qed.

Lemma call_result_inj cs cs' name name' :
  call_result cs name = call_result cs' name' -> cs = cs' /\ name = name'.
Proof. by intros [= -> ->]. Qed.

Lemma replace_output_Ok inherit_axes a2c call_sites new_call acc name ary acc' :
  NoDup call_sites ->
  replace_output inherit_axes a2c call_sites new_call acc (name, ary) = Ok acc' ->
  (forall k, (forall cs, cs ∈ call_sites -> call_result cs name <> k) ->
             kget k acc' = kget k acc) /\
  output_replaced inherit_axes a2c call_sites new_call name ary acc'.
Proof.
  intros Hnd H. unfold replace_output in H. unfold output_replaced.
  apply bind_Ok_inv in H as (concat & Hconcat & H).
  unfold kitem in Hconcat.
  destruct (kget ([], ary) a2c) as [c|]; [|done]. injection Hconcat as ->.
  destruct concat as [axis|].
  - apply bind_Ok_inv in H as (sizes & Hsizes & H).
    apply bind_Ok_inv in H as (slices & Hslices & H). injection H as <-.
    apply mapM_shape_at_Ok in Hsizes. subst sizes.
    unfold _OutputSlicer in Hslices.
    split; [intros k Hk; by apply kget_foldl_zip_other|].
    intros i cs Hcs.
    { 
      assert (output_lengths call_sites name axis !! i
              = Some (axis_len (shape (call_result cs name)) axis)) as Hlen.
      { unfold output_lengths. by rewrite list_lookup_fmap, Hcs. }
      pose proof (slice_bounds_lookup _ _ _ Hlen) as Hb.
      destruct (mapM_Ok_lookup _ _ _ _ _ Hslices Hb) as (slc & Hslc & Hget).
      rewrite _get_slice_spec in Hget.
      destruct (decide (axis < ndim (call_result new_call name))%nat); [|done].
      injection Hget as <-. split; [done|].
      apply (kget_foldl_zip (fun cs => call_result cs name)) with (i := i);
        [|done|done].
      apply NoDup_fmap_2; [|done]. intros c1 c2 Heq.
      by apply call_result_inj in Heq as [-> _]. }
  - injection H as <-.
    split; [intros k Hk; by apply kget_foldl_const_other|].
    intros cs Hcs. by apply (kget_foldl_const (fun cs => call_result cs name)).
Qed.

Lemma output_replaced_ext inherit_axes a2c call_sites new_call name ary r1 r2 :
  (forall cs, cs ∈ call_sites ->
              kget (call_result cs name) r2 = kget (call_result cs name) r1) ->
  output_replaced inherit_axes a2c call_sites new_call name ary r1 ->
  output_replaced inherit_axes a2c call_sites new_call name ary r2.
Proof.
  intros Hext. unfold output_replaced.
  destruct (kget ([], ary) a2c) as [[axis|]|]; [| |done].
  - intros H i cs Hcs. destruct (H i cs Hcs) as [Hlt Hg]. split; [done|].
    rewrite Hext; [done|]. by eapply list_elem_of_lookup_2.
  - intros H cs Hcs. rewrite Hext by done. by apply H.
Qed.

Lemma replace_outputs_fold inherit_axes a2c call_sites new_call outs acc result :
  NoDup call_sites ->
  NoDup (map fst outs) ->
  foldM (replace_output inherit_axes a2c call_sites new_call) acc outs = Ok result ->
  (forall k, (forall name ary cs, (name, ary) ∈ outs -> cs ∈ call_sites ->
                                  call_result cs name <> k) ->
             kget k result = kget k acc) /\
  (forall name ary, (name, ary) ∈ outs ->
     output_replaced inherit_axes a2c call_sites new_call name ary result).
Proof.
  intros Hcs. revert acc. induction outs as [|[name ary] outs IH]; intros acc Hnd H.
  - injection H as <-. split; [done|]. intros name ary Hin. by apply elem_of_nil in Hin.
  - rewrite foldM_cons in H. apply bind_Ok_inv in H as (acc' & Hacc' & H).
    cbn in Hnd. apply NoDup_cons in Hnd as [Hnin Hnd].
    destruct (replace_output_Ok _ _ _ _ _ _ _ _ Hcs Hacc') as [Hframe1 Hrep].
    destruct (IH _ Hnd H) as [Hframe Hall].
    split.
    + intros k Hk. rewrite Hframe.
      * apply Hframe1. intros cs Hin. apply (Hk name ary); [by left | done].
      * intros name' ary' cs Hin Hin'. apply (Hk name' ary'); [by right | done].
    + intros name' ary' Hin. apply elem_of_cons in Hin as [[= -> ->]|Hin]; [|by apply Hall].
      eapply output_replaced_ext; [|exact Hrep].
      intros cs Hin. apply Hframe. intros name' ary' cs' Hin' _ Heq.
      apply call_result_inj in Heq as [_ ->]. apply Hnin.
      apply list_elem_of_fmap. by exists (name, ary').
Qed.

Lemma slice_start_0 call_sites name axis : slice_start call_sites name axis 0 = 0.
Proof. unfold slice_start. by rewrite take_0. Qed.

Lemma slice_start_S call_sites name axis i cs :
  call_sites !! i = Some cs ->
  slice_start call_sites name axis (S i)
  = slice_start call_sites name axis i
    + axis_len (shape (call_result cs name)) axis.
Proof.
  intros Hcs. unfold slice_start. apply sum_list_take_S.
  unfold output_lengths. by rewrite list_lookup_fmap, Hcs.
Qed.

Lemma expected_slice_length inherit_axes new_call call_sites name axis i cs :
  (axis < ndim (call_result new_call name))%nat ->
  shape (expected_slice inherit_axes new_call call_sites name axis i cs) !! axis
  = Some (axis_len (shape (call_result cs name)) axis).
Proof.
  intros Hlt. unfold expected_slice. cbv zeta.
  change (shape (BasicIndex ?a ?idx ?m)) with (sliced_shape (shape a) idx).
  unfold ndim in *. rewrite sliced_shape_insert by done.
  rewrite list_lookup_insert_eq by done. f_equal. lia.
Qed.

End SlicerFacts.

Section SlicerClaims.
Import Arrays Calls Scenario.

Example replace_outputs_scenario :
  replace_outputs false plan [site1; site2] new_site
  = Ok [(call_result site1 "out", out_slice 0 4);
        (call_result site2 "out", out_slice 4 11)].
Proof. reflexivity. Qed.

(** C1. After concatenation along [axis] of the output [output_name] of the
    call sites [call_sites], the replacement map sends the result
    [cs[output_name]] of the [i]-th call site [cs] to a slice of
    [new_call[output_name]] along [axis]: a [BasicIndex] that takes all of
    every other axis and, along [axis], starts at the sum of the lengths of
    [output_name] at the call sites before [cs] and stops that length
    further.  The first slice starts at 0, each next one where the one
    before stops, and the slice is as long along [axis] as
    [cs[output_name]]. *)
Theorem results_replaced_by_contiguous_slices
    (inherit_axes : bool)
    (ary_to_concatenatability : list ((list Call * Array) * Concatenatability))
    (template_call_site : Call) (other_call_sites : list Call)
    (new_call : Call) (result : list (Array * Array))
    (output_name : string) (output_ary : Array) (axis i : nat) (cs : Call) :
  let call_sites := template_call_site :: other_call_sites in
  let lengths :=
    map (fun cs' => axis_len (shape (call_result cs' output_name)) axis) call_sites in
  let start := sum_list (take i lengths) in
  let len := axis_len (shape (call_result cs output_name)) axis in
  let new_return := call_result new_call output_name in
  NoDup call_sites ->
  NoDup (Dict.keys (items (returns (function template_call_site)))) ->
  replace_outputs inherit_axes ary_to_concatenatability call_sites new_call
  = Ok result ->
  (output_name, output_ary) ∈ items (returns (function template_call_site)) ->
  kget ([], output_ary) ary_to_concatenatability = Some (ConcatableAlongAxis axis) ->
  call_sites !! i = Some cs ->
  exists slice,
    kget (call_result cs output_name) result = Some slice
    /\ slice = BasicIndex new_return
                 (<[axis := Slice start (start + len)]>
                    (replicate (ndim new_return) SliceAll))
                 (meta_of slice)
    /\ (axis < ndim new_return)%nat
    /\ shape slice !! axis = Some len
    /\ sum_list (take 0 lengths) = 0
    /\ sum_list (take (S i) lengths) = start + len.
Proof.
  intros call_sites lengths start len new_return Hcs Hnames Hres Hout Hconcat Hi.
  unfold replace_outputs in Hres. cbn [call_sites] in Hres.
  destruct (replace_outputs_fold _ _ _ _ _ _ _ Hcs Hnames Hres) as [_ Hall].
  specialize (Hall _ _ Hout). unfold output_replaced in Hall.
  rewrite Hconcat in Hall. destruct (Hall i cs Hi) as [Hlt Hget].
  eexists. split; [exact Hget|].
  split; [reflexivity|]. split; [done|]. split; [|split].
  - by apply expected_slice_length.
  - apply (slice_start_0 call_sites output_name axis).
  - by apply (slice_start_S call_sites output_name axis i cs).
Qed.

(** C1 in the scenario: the result of the second call site is the slice
    [4:11] of the new call's output. *)
Lemma results_replaced_by_contiguous_slices_witness :
  exists slice,
    kget (call_result site2 "out")
         [(call_result site1 "out", out_slice 0 4);
          (call_result site2 "out", out_slice 4 11)] = Some slice
    /\ slice = BasicIndex (call_result new_site "out")
                 [Slice 4 11; SliceAll] (meta_of slice)
    /\ (0 < 2)%nat
    /\ shape slice !! 0%nat = Some 7
    /\ 0 = 0
    /\ 11 = 4 + 7.
Proof.
  apply (results_replaced_by_contiguous_slices false plan site1 [site2] new_site
           _ "out" (body x1) 0 1 site2).
  - apply (bool_decide_unpack _). vm_compute. exact I.
  - apply (bool_decide_unpack _). vm_compute. exact I.
  - reflexivity.
  - by left.
  - reflexivity.
  - reflexivity.
Defined.

End SlicerClaims.

Section TaggingClaims.
Import Arrays Calls Scenario.

Lemma Dict_get_set_eq {V} k (v : V) d : Dict.get k (Dict.set k v d) = Some v.
Proof.
  induction d as [|[k' v'] d IH]; cbn.
  - by rewrite String.eqb_refl.
  - destruct (String.eqb k k') eqn:E; cbn; rewrite ?String.eqb_refl, ?E; done.
Qed.

Lemma Dict_get_set_ne {V} k k0 (v : V) d :
  k <> k0 -> Dict.get k (Dict.set k0 v d) = Dict.get k d.
Proof.
  intros Hne. apply String.eqb_neq in Hne.
  induction d as [|[k' v'] d IH]; cbn.
  - by rewrite Hne.
  - destruct (String.eqb k0 k') eqn:E; cbn.
    + apply String.eqb_eq in E as <-. by rewrite Hne.
    + by rewrite IH.
Qed.

(** The dictionary of new bindings holds, for every parameter, what the
    body of the loop computes for it. *)
Lemma new_call_bindings_Ok `{PytatoInterface} inherit_axes a2c call_sites
    template_call_site d :
  new_call_bindings inherit_axes a2c call_sites template_call_site = Ok d ->
  forall param_name,
    param_name ∈ Dict.keys (items (bindings template_call_site)) ->
    exists new_binding,
      Dict.get param_name d = Some new_binding /\
      new_call_binding inherit_axes a2c call_sites template_call_site param_name
      = Ok new_binding.
Proof.
  unfold new_call_bindings.
  set (body := fun (acc : Dict.t Array) param_name => _).
  assert (forall names acc d,
    (forall k v, Dict.get k acc = Some v ->
       new_call_binding inherit_axes a2c call_sites template_call_site k = Ok v) ->
    foldM body acc names = Ok d ->
    (forall k v, Dict.get k d = Some v ->
       new_call_binding inherit_axes a2c call_sites template_call_site k = Ok v) /\
    (forall k, k ∈ names -> exists v, Dict.get k d = Some v)) as Hloop.
  { induction names as [|name names IH]; intros acc d' Hacc Hd.
    - injection Hd as <-. split; [done|]. intros k Hk. by apply elem_of_nil in Hk.
    - rewrite foldM_cons in Hd. apply bind_Ok_inv in Hd as (acc' & Hacc' & Hd).
      unfold body in Hacc'. apply bind_Ok_inv in Hacc' as (b & Hb & Hacc').
      injection Hacc' as <-.
      destruct (IH (Dict.set name b acc) d') as [Hsound Hall]; [|done|].
      { intros k v. destruct (decide (k = name)) as [->|Hne].
        - rewrite Dict_get_set_eq. by intros [= <-].
        - rewrite Dict_get_set_ne by done. apply Hacc. }
      split; [done|]. intros k Hk. apply elem_of_cons in Hk as [->|Hk]; [|auto].
      destruct (decide (name ∈ names)) as [Hin|Hnin]; [auto|].
      clear -Hd Hnin. exists b.
      assert (Dict.get name (Dict.set name b acc) = Some b) as Hg
        by apply Dict_get_set_eq.
      revert Hd Hg. generalize (Dict.set name b acc). clear acc.
      induction names as [|n names IH]; intros acc Hd Hg.
      + by injection Hd as <-.
      + rewrite foldM_cons in Hd. apply bind_Ok_inv in Hd as (acc' & Hacc' & Hd).
        unfold body in Hacc'. apply bind_Ok_inv in Hacc' as (b' & _ & Hacc').
        injection Hacc' as <-. apply not_elem_of_cons in Hnin as [Hne Hnin].
        apply (IH Hnin _ Hd). by rewrite Dict_get_set_ne. }
  intros Hd param_name Hin.
  destruct (Hloop _ [] d (fun k v Hk => ltac:(discriminate Hk)) Hd)
    as [Hsound Hall].
  destruct (Hall _ Hin) as [v Hv]. exists v. split; [done | by apply Hsound].
Qed.

Example _InputConcatenator_scenario :
  _InputConcatenator false [a1; a2] 0 = Ok a12.
Proof. reflexivity. Qed.

(** C10. What [concatenate_calls] creates is tagged.
    (1) The array [_InputConcatenator] returns is the [Concatenate] of its
        arguments along [axis], tagged [ImplStored], its axis [axis]
        carrying [ConcatenatedCallInputConcatAxisTag], or [UseInputAxis(0,
        axis)] with [inherit_axes].
    (2) The array [_get_slice] returns is a [BasicIndex] into its argument,
        tagged [ImplStored], its axis [axis] carrying
        [ConcatenatedCallOutputSliceAxisTag], or [UseInputAxis(None, axis)]
        with [inherit_axes].
    (3) A binding of the new call is, for a parameter concatenated along an
        axis, what [_InputConcatenator] returns on the bindings of the call
        sites; for a parameter that is [ConcatableIfConstant], the binding of
        the template call site itself.
    (4) Inside the function body a data wrapper concatenated along an axis
        becomes what [_InputConcatenator] returns; a data wrapper or a
        placeholder that is [ConcatableIfConstant] stays as it is.
    (5) In the replacement map an output concatenated along an axis is
        replaced by what [_get_slice] returns; an output that is
        [ConcatableIfConstant] by the output of the new call itself, not a
        slice. *)
Theorem concatenated_arrays_are_tagged `{PytatoInterface} (inherit_axes : bool) :
  (forall arrays axis r,
      _InputConcatenator inherit_axes arrays axis = Ok r ->
      r = Concatenate (of_list arrays) axis (meta_of r)
      /\ ImplStored ∈ tags (meta_of r)
      /\ exists ax, axes (meta_of r) !! axis = Some ax
                    /\ (if inherit_axes then UseInputAxis (Some 0%nat) axis
                        else ConcatenatedCallInputConcatAxisTag) ∈ axis_tags ax)
  /\ (forall ary axis start_idx end_idx r,
      _get_slice inherit_axes ary axis start_idx end_idx = Ok r ->
      r = BasicIndex ary
            (<[axis := Slice start_idx end_idx]> (replicate (ndim ary) SliceAll))
            (meta_of r)
      /\ ImplStored ∈ tags (meta_of r)
      /\ exists ax, axes (meta_of r) !! axis = Some ax
                    /\ (if inherit_axes then UseInputAxis None axis
                        else ConcatenatedCallOutputSliceAxisTag) ∈ axis_tags ax)
  /\ (forall a2c call_sites template_call_site d param_name,
      new_call_bindings inherit_axes a2c call_sites template_call_site = Ok d ->
      param_name ∈ Dict.keys (items (bindings template_call_site)) ->
      exists param_placeholder new_binding,
        get_placeholder (function template_call_site) param_name
        = Ok param_placeholder
        /\ Dict.get param_name d = Some new_binding
        /\ match kget ([], param_placeholder) a2c with
           | Some (ConcatableAlongAxis axis) =>
               exists param_bindings,
                 mapM (fun csite => binding param_name (bindings csite)) call_sites
                 = Ok param_bindings
                 /\ _InputConcatenator inherit_axes param_bindings axis
                    = Ok new_binding
           | Some ConcatableIfConstant =>
               binding param_name (bindings template_call_site) = Ok new_binding
           | None => False
           end)
  /\ (forall expr others,
      (forall axis,
          _FunctionConcatenator_map_data_wrapper inherit_axes
            (ConcatableAlongAxis axis) expr others
          = _InputConcatenator inherit_axes (expr :: others) axis)
      /\ _FunctionConcatenator_map_data_wrapper inherit_axes
           ConcatableIfConstant expr others = Ok expr
      /\ _FunctionConcatenator_map_placeholder ConcatableIfConstant expr others
         = Ok expr)
  /\ (forall a2c template_call_site other_call_sites new_call result
             output_name output_ary cs,
      let call_sites := template_call_site :: other_call_sites in
      NoDup call_sites ->
      NoDup (Dict.keys (items (returns (function template_call_site)))) ->
      replace_outputs inherit_axes a2c call_sites new_call = Ok result ->
      (output_name, output_ary) ∈ items (returns (function template_call_site)) ->
      cs ∈ call_sites ->
      match kget ([], output_ary) a2c with
      | Some (ConcatableAlongAxis axis) =>
          exists start_idx end_idx slice,
            kget (call_result cs output_name) result = Some slice
            /\ _get_slice inherit_axes (call_result new_call output_name) axis
                 start_idx end_idx = Ok slice
      | Some ConcatableIfConstant =>
          kget (call_result cs output_name) result
          = Some (call_result new_call output_name)
      | None => False
      end).
Proof.
  split; [|split; [|split; [|split]]].
  - intros arrays axis r Hr. rewrite _InputConcatenator_spec in Hr.
    cbv zeta in Hr. destruct (decide (axis < _)%nat) as [Hlt|]; [|done].
    injection Hr as <-. split; [done|].
    apply (marked_meta_tags _ _ (input_axis_tag inherit_axes axis) Hlt).
  - intros ary axis s e r Hr. rewrite _get_slice_spec in Hr.
    destruct (decide (axis < _)%nat) as [Hlt|]; [|done].
    injection Hr as <-. split; [done|].
    apply (marked_meta_tags _ _ (output_axis_tag inherit_axes axis) Hlt).
  - intros a2c call_sites template d param_name Hd Hin.
    destruct (new_call_bindings_Ok _ _ _ _ _ Hd _ Hin) as (b & Hget & Hb).
    unfold new_call_binding in Hb.
    apply bind_Ok_inv in Hb as (pl & Hpl & Hb).
    apply bind_Ok_inv in Hb as (concat & Hconcat & Hb).
    exists pl, b. split; [done|]. split; [done|].
    unfold kitem in Hconcat. destruct (kget ([], pl) a2c) as [c|]; [|done].
    injection Hconcat as ->. destruct concat as [axis|]; [|done].
    apply bind_Ok_inv in Hb as (bs & Hbs & Hb). eauto.
  - intros expr others. split; [done|]. split; done.
  - intros a2c template others new_call result name ary cs call_sites
      Hcs Hnames Hres Hout Hin.
    unfold replace_outputs in Hres. cbn [call_sites] in Hres.
    destruct (replace_outputs_fold _ _ _ _ _ _ _ Hcs Hnames Hres) as [_ Hall].
    specialize (Hall _ _ Hout). unfold output_replaced in Hall.
    destruct (kget ([], ary) a2c) as [[axis|]|]; [| |done].
    + apply list_elem_of_lookup_1 in Hin as [i Hi].
      destruct (Hall i cs Hi) as [Hlt Hget].
      eexists _, _, _. split; [exact Hget|].
      rewrite _get_slice_spec. by rewrite decide_True.
    + by apply Hall.
Qed.

End TaggingClaims.

(** *** Call inlining *)

Section InliningFacts.
Import Arrays Inlining.

Lemma run_bind_Returns_inv {A B} (c : run A) (k : A -> run B) b :
  (c ≫= k) = Returns b -> exists a, c = Returns a /\ k a = Returns b.
Proof. destruct c as [a|e|]; cbn; [eauto | discriminate | discriminate]. Qed.

Lemma run_bind_stable {A B} (cn cm : run A) (kn km : A -> run B) :
  (cn <> OutOfFuel -> cm = cn) ->
  (forall x, cn = Returns x -> kn x <> OutOfFuel -> km x = kn x) ->
  (cn ≫= kn) <> OutOfFuel -> (cm ≫= km) = (cn ≫= kn).
Proof.
  intros Hc Hk Hne. destruct cn as [x|e|] eqn:E.
  - rewrite Hc by done. cbn. apply Hk; [done|]. exact Hne.
  - rewrite Hc by done. done.
  - by destruct Hne.
Qed.

(** More fuel does not change the outcome of a run that was not out of
    fuel. *)
Lemma inline_fuel_mono n :
  (forall a m, (n <= m)%nat -> inline_array n a <> OutOfFuel ->
               inline_array m a = inline_array n a) /\
  (forall l m, (n <= m)%nat -> inline_arrays n l <> OutOfFuel ->
               inline_arrays m l = inline_arrays n l) /\
  (forall bs m, (n <= m)%nat -> inline_bindings n bs <> OutOfFuel ->
                inline_bindings m bs = inline_bindings n bs) /\
  (forall c m, (n <= m)%nat -> inline_call n c <> OutOfFuel ->
               inline_call m c = inline_call n c) /\
  (forall s rets m, (n <= m)%nat -> inline_returns n s rets <> OutOfFuel ->
                    inline_returns m s rets = inline_returns n s rets) /\
  (forall f m, (n <= m)%nat -> inline_function n f <> OutOfFuel ->
               inline_function m f = inline_function n f).
Proof.
  induction n as [|n (IHa & IHl & IHb & IHc & IHr & IHf)].
  { repeat split; intros; cbn in *; congruence. }
  repeat split.
  - intros a [|m] Hle Hne; [lia|]. cbn [inline_array] in *.
    destruct a as [| | |e s d bs mt|l ax mt|a' idx mt|c name]; try done.
    + apply run_bind_stable; [intros; apply IHb; [lia|done] | done | done].
    + apply run_bind_stable; [intros; apply IHl; [lia|done] | done | done].
    + apply run_bind_stable; [intros; apply IHa; [lia|done] | done | done].
    + apply run_bind_stable; [intros; apply IHc; [lia|done] | done | done].
  - intros l [|m] Hle Hne; [lia|]. cbn [inline_arrays] in *.
    destruct l as [|a rest]; [done|].
    apply run_bind_stable; [intros; apply IHa; [lia|done] | | done].
    intros x _ Hx.
    apply run_bind_stable; [intros; apply IHl; [lia|done] | done | done].
  - intros bs [|m] Hle Hne; [lia|]. cbn [inline_bindings] in *.
    destruct bs as [|name a rest]; [done|].
    apply run_bind_stable; [intros; apply IHa; [lia|done] | | done].
    intros x _ Hx.
    apply run_bind_stable; [intros; apply IHb; [lia|done] | done | done].
  - intros c [|m] Hle Hne; [lia|]. cbn [inline_call] in *.
    destruct c as [f bs t]. destruct (has_InlineCallTag (MkCall f bs t)).
    + apply run_bind_stable; [intros; apply IHr; [lia|done] | done | done].
    + apply run_bind_stable; [intros; apply IHf; [lia|done] | | done].
      intros x _ Hx.
      apply run_bind_stable; [intros; apply IHb; [lia|done] | done | done].
  - intros s rets [|m] Hle Hne; [lia|]. cbn [inline_returns] in *.
    destruct rets as [|name ret rest]; [done|].
    apply run_bind_stable; [done | | done]. intros x _ Hx.
    apply run_bind_stable; [intros; apply IHa; [lia|done] | | done].
    intros y _ Hy.
    apply run_bind_stable; [intros; apply IHr; [lia|done] | done | done].
  - intros f [|m] Hle Hne; [lia|]. cbn [inline_function] in *.
    destruct f as [ps rets t].
    apply run_bind_stable; [intros; apply IHb; [lia|done] | done | done].
Qed.

Lemma weight_bindings_pos bs : (1 <= weight_bindings bs)%nat.
Proof. destruct bs; cbn; lia. Qed.

Lemma binding_weight name bs b :
  binding name bs = Ok b -> (weight b < weight_bindings bs)%nat.
Proof.
  unfold binding, Dict.item. induction bs as [|name' a rest IH] using Bindings_ind.
  - discriminate.
  - cbn. destruct (String.eqb name name').
    + intros [= ->]. lia.
    + intros H. apply IH in H. lia.
Qed.

(** Substituting bindings into a node multiplies its weight by at most the
    weight of the bindings. *)
Lemma subst_weight substitutions :
  let K := weight_bindings substitutions in
  (forall a a', subst_array substitutions a = Ok a' ->
                (weight a' <= weight a * K)%nat) /\
  (forall l l', subst_arrays substitutions l = Ok l' ->
                (weight_arrays l' <= weight_arrays l * K)%nat) /\
  (forall bs bs', subst_bindings substitutions bs = Ok bs' ->
                  (weight_bindings bs' <= weight_bindings bs * K)%nat) /\
  (forall c c', subst_call substitutions c = Ok c' ->
                (weight_call c' <= weight_call c * K)%nat) /\
  (forall f : FunctionDefinition, True).
Proof.
  intros K. pose proof (weight_bindings_pos substitutions) as HK. fold K in HK.
  apply Array_mutind.
  - intros name s d m a' H. cbn in H. apply binding_weight in H. cbn. fold K in H. lia.
  - intros name x s d m a' [= <-]. cbn. lia.
  - intros name m a' [= <-]. cbn. lia.
  - intros e s d bs IH m a' H. cbn in H.
    apply bind_Ok_inv in H as (bs' & Hbs & [= <-]). apply IH in Hbs. cbn. nia.
  - intros l IH ax m a' H. cbn in H.
    apply bind_Ok_inv in H as (l' & Hl & [= <-]). apply IH in Hl. cbn. nia.
  - intros a IH idx m a' H. cbn in H.
    apply bind_Ok_inv in H as (a'' & Ha & [= <-]). apply IH in Ha. cbn. nia.
  - intros c IH name a' H. cbn in H.
    apply bind_Ok_inv in H as (c' & Hc & [= <-]). apply IH in Hc. cbn. nia.
  - intros l' [= <-]. cbn. lia.
  - intros a IHa rest IHr l' H. cbn in H.
    apply bind_Ok_inv in H as (a' & Ha & H).
    apply bind_Ok_inv in H as (rest' & Hr & [= <-]).
    apply IHa in Ha. apply IHr in Hr. cbn. nia.
  - intros bs' [= <-]. cbn. lia.
  - intros name a IHa rest IHr bs' H. cbn in H.
    apply bind_Ok_inv in H as (a' & Ha & H).
    apply bind_Ok_inv in H as (rest' & Hr & [= <-]).
    apply IHa in Ha. apply IHr in Hr. cbn. nia.
  - intros f _ bs IH t c' H. cbn in H.
    apply bind_Ok_inv in H as (bs' & Hbs & [= <-]). apply IH in Hbs. cbn. nia.
  - done.
Qed.

Lemma run_bind_not_OutOfFuel {A B} (c : run A) (k : A -> run B) :
  c <> OutOfFuel ->
  (forall x, c = Returns x -> k x <> OutOfFuel) ->
  (c ≫= k) <> OutOfFuel.
Proof. intros Hc Hk. destruct c as [x|e|]; cbn; [by apply Hk | done | done]. Qed.

Lemma lift_not_OutOfFuel {A} (r : res A) : lift r <> OutOfFuel.
Proof. by destruct r. Qed.

Lemma lift_Returns_inv {A} (r : res A) x : lift r = Returns x -> r = Ok x.
Proof. destruct r; cbn; congruence. Qed.

(** Fuel equal to the weight is enough. *)
Lemma inline_terminates n :
  (forall a, (weight a <= n)%nat -> inline_array n a <> OutOfFuel) /\
  (forall l, (weight_arrays l <= n)%nat -> inline_arrays n l <> OutOfFuel) /\
  (forall bs, (weight_bindings bs <= n)%nat -> inline_bindings n bs <> OutOfFuel) /\
  (forall c, (weight_call c <= n)%nat -> inline_call n c <> OutOfFuel) /\
  (forall s rets, (weight_bindings rets * weight_bindings s <= n)%nat ->
                  inline_returns n s rets <> OutOfFuel) /\
  (forall f, (weight_function f <= n)%nat -> inline_function n f <> OutOfFuel).
Proof.
  induction n as [|n (IHa & IHl & IHb & IHc & IHr & IHf)].
  { repeat split.
    - intros a H. destruct a; cbn in H; lia.
    - intros l H. destruct l; cbn in H; lia.
    - intros bs H. pose proof (weight_bindings_pos bs). lia.
    - intros c H. destruct c; cbn in H; lia.
    - intros s rets H. pose proof (weight_bindings_pos rets).
      pose proof (weight_bindings_pos s). nia.
    - intros f H. destruct f; cbn in H; lia. }
  repeat split.
  - intros a H. cbn [inline_array].
    destruct a as [| | |e s d bs mt|l ax mt|a' idx mt|c name]; try done; cbn in H.
    + apply run_bind_not_OutOfFuel; [apply IHb; lia | done].
    + apply run_bind_not_OutOfFuel; [apply IHl; lia | done].
    + apply run_bind_not_OutOfFuel; [apply IHa; lia | done].
    + apply run_bind_not_OutOfFuel; [apply IHc; lia |].
      intros [a|c'|data t] _; [done | done | apply lift_not_OutOfFuel].
  - intros l H. cbn [inline_arrays]. destruct l as [|a rest]; [done|]. cbn in H.
    apply run_bind_not_OutOfFuel; [apply IHa; lia | intros x _].
    apply run_bind_not_OutOfFuel; [apply IHl; lia | done].
  - intros bs H. cbn [inline_bindings]. destruct bs as [|name a rest]; [done|].
    cbn in H.
    apply run_bind_not_OutOfFuel; [apply IHa; lia | intros x _].
    apply run_bind_not_OutOfFuel; [apply IHb; lia | done].
  - intros c H. cbn [inline_call]. destruct c as [f bs t]. cbn in H.
    pose proof (weight_bindings_pos bs).
    destruct (has_InlineCallTag (MkCall f bs t)).
    + apply run_bind_not_OutOfFuel; [|done]. apply IHr.
      destruct f as [ps rets tf]. cbn in *. nia.
    + apply run_bind_not_OutOfFuel; [apply IHf; nia | intros x _].
      assert (1 <= weight_function f)%nat by (destruct f; cbn; lia).
      apply run_bind_not_OutOfFuel; [apply IHb; nia | done].
  - intros s rets H. cbn [inline_returns].
    destruct rets as [|name ret rest]; [done|]. cbn in H.
    pose proof (weight_bindings_pos s).
    apply run_bind_not_OutOfFuel; [apply lift_not_OutOfFuel | intros x Hx].
    apply lift_Returns_inv in Hx.
    destruct (subst_weight s) as (Hw & _). apply Hw in Hx.
    apply run_bind_not_OutOfFuel; [apply IHa; nia | intros y _].
    apply run_bind_not_OutOfFuel; [apply IHr; nia | done].
  - intros f H. cbn [inline_function]. destruct f as [ps rets t]. cbn in H.
    apply run_bind_not_OutOfFuel; [apply IHb; lia | done].
Qed.

(** [inline_calls] returns or raises when it is given as much fuel as the
    expression weighs, and then more fuel does not change the outcome. *)
Lemma inline_calls_terminates expr fuel :
  (weight_of expr <= fuel)%nat ->
  inline_calls fuel expr <> OutOfFuel /\
  inline_calls fuel expr = inline_calls (weight_of expr) expr.
Proof.
  intros Hle.
  destruct (inline_terminates (weight_of expr)) as (Ta & _ & Tb & Tc & _).
  destruct (inline_fuel_mono (weight_of expr)) as (Ma & _ & Mb & Mc & _).
  destruct expr as [a|c|data t]; cbn [inline_calls weight_of] in *.
  - specialize (Ta a (le_n _)). rewrite (Ma a fuel Hle Ta). split; [|done].
    by apply run_bind_not_OutOfFuel.
  - specialize (Tc c (le_n _)). rewrite (Mc c fuel Hle Tc). done.
  - specialize (Tb data (le_n _)). rewrite (Mb data fuel Hle Tb). split; [|done].
    by apply run_bind_not_OutOfFuel.
Qed.

Lemma binding_elem_of name bs b :
  binding name bs = Ok b -> (name, b) ∈ items bs.
Proof.
  unfold binding, Dict.item. destruct (Dict.get name (items bs)) eqn:E; [|done].
  intros [= ->]. by apply Dict_get_elem_of.
Qed.

(** After the substitution every placeholder of the frame comes out of a
    binding that was substituted for a placeholder of the node. *)
Lemma subst_placeholders substitutions :
  let from (before : list string) (p : string) :=
    exists name b, name ∈ before /\ binding name substitutions = Ok b
                   /\ p ∈ placeholders b in
  (forall a a', subst_array substitutions a = Ok a' ->
                forall p, p ∈ placeholders a' -> from (placeholders a) p) /\
  (forall l l', subst_arrays substitutions l = Ok l' ->
                forall p, p ∈ placeholders_arrays l' -> from (placeholders_arrays l) p) /\
  (forall bs bs', subst_bindings substitutions bs = Ok bs' ->
                  forall p, p ∈ placeholders_bindings bs' ->
                            from (placeholders_bindings bs) p) /\
  (forall c c', subst_call substitutions c = Ok c' ->
                forall p, p ∈ placeholders_call c' -> from (placeholders_call c) p) /\
  (forall f : FunctionDefinition, True).
Proof.
  intros from. apply Array_mutind.
  - intros name s d m a' H p Hp. exists name, a'. cbn in *. split; [by left|done].
  - intros name x s d m a' [= <-] p Hp. by apply elem_of_nil in Hp.
  - intros name m a' [= <-] p Hp. by apply elem_of_nil in Hp.
  - intros e s d bs IH m a' H p Hp. cbn in H.
    apply bind_Ok_inv in H as (bs' & Hbs & [= <-]). by apply (IH _ Hbs).
  - intros l IH ax m a' H p Hp. cbn in H.
    apply bind_Ok_inv in H as (l' & Hl & [= <-]). by apply (IH _ Hl).
  - intros a IH idx m a' H p Hp. cbn in H.
    apply bind_Ok_inv in H as (a'' & Ha & [= <-]). by apply (IH _ Ha).
  - intros c IH name a' H p Hp. cbn in H.
    apply bind_Ok_inv in H as (c' & Hc & [= <-]). by apply (IH _ Hc).
  - intros l' [= <-] p Hp. by apply elem_of_nil in Hp.
  - intros a IHa rest IHr l' H p Hp. cbn in H.
    apply bind_Ok_inv in H as (a' & Ha & H).
    apply bind_Ok_inv in H as (rest' & Hr & [= <-]).
    cbn in Hp. apply elem_of_app in Hp as [Hp|Hp].
    + destruct (IHa _ Ha _ Hp) as (name & b & Hn & Hb & Hpb).
      exists name, b. cbn. rewrite elem_of_app. auto.
    + destruct (IHr _ Hr _ Hp) as (name & b & Hn & Hb & Hpb).
      exists name, b. cbn. rewrite elem_of_app. auto.
  - intros bs' [= <-] p Hp. by apply elem_of_nil in Hp.
  - intros name0 a IHa rest IHr bs' H p Hp. cbn in H.
    apply bind_Ok_inv in H as (a' & Ha & H).
    apply bind_Ok_inv in H as (rest' & Hr & [= <-]).
    cbn in Hp. apply elem_of_app in Hp as [Hp|Hp].
    + destruct (IHa _ Ha _ Hp) as (name & b & Hn & Hb & Hpb).
      exists name, b. cbn. rewrite elem_of_app. auto.
    + destruct (IHr _ Hr _ Hp) as (name & b & Hn & Hb & Hpb).
      exists name, b. cbn. rewrite elem_of_app. auto.
  - intros f _ bs IH t c' H p Hp. cbn in H.
    apply bind_Ok_inv in H as (bs' & Hbs & [= <-]). by apply (IH _ Hbs).
  - done.
Qed.

End InliningFacts.

Section InliningExamples.
Import Arrays Inlining Scenario.

Example inline_tagged_call :
  inline_calls 20 (ACall site1_inline)
  = Returns (DictOfNamedArrays (BCons "out" body_inlined BNil) [InlineCallTag]).
Proof. reflexivity. Qed.

Example inline_result_of_tagged_call :
  inline_calls 20 (AnArray (call_result site1_inline "out"))
  = Returns (AnArray body_inlined).
Proof. reflexivity. Qed.

Example inline_result_of_untagged_call :
  inline_calls 20 (AnArray (call_result site1 "out"))
  = Returns (AnArray (call_result site1 "out")).
Proof. reflexivity. Qed.

(** A result of a tagged call in the binding of a call without the tag:
    that call stays, on the binding inlined. *)
Example inline_tagged_call_in_binding :
  inline_calls 40
    (AnArray (call_result
                (MkCall (f x1) (BCons "x" (call_result site1_inline "out") BNil) [])
                "out"))
  = Returns
      (AnArray (call_result
                  (MkCall (f x1) (BCons "x" body_inlined BNil) []) "out")).
Proof. reflexivity. Qed.

Example scenario_is_well_formed :
  well_formed_expr (ACall site1_inline) = true
  /\ well_formed_expr
       (AnArray (call_result
                   (MkCall (f x1)
                      (BCons "x" (call_result site1_inline "out") BNil) [])
                   "out")) = true.
Proof. split; reflexivity. Qed.

End InliningExamples.


(** *** Zeroing unused call bindings *)

Section ZeroUnusedFacts.
Import Arrays Calls ZeroUnused.
Context `{PytatoInterface}.

Lemma add_used_spec call inputs acc c p :
  p ∈ used_inputs_of (add_used call inputs acc) c
  <-> p ∈ used_inputs_of acc c \/ (c = call /\ p ∈ inputs).
Proof.
  unfold add_used, used_inputs_of. destruct (decide (c = call)) as [->|Hne].
  - rewrite kget_kset_eq. cbn. rewrite elem_of_app. tauto.
  - rewrite kget_kset_ne by done. split; [auto|]. intros [?|[? _]]; done.
Qed.

Lemma gathered_nil c p : ~ gathered [] c p.
Proof. intros (name & ret & Hin & _). by apply elem_of_nil in Hin. Qed.

Lemma gathered_app rs1 rs2 c p :
  gathered (rs1 ++ rs2) c p <-> gathered rs1 c p \/ gathered rs2 c p.
Proof.
  unfold gathered. split.
  - intros (name & ret & Hin & Hb & Hp). apply elem_of_app in Hin as [Hin|Hin];
      [left|right]; eauto.
  - intros [(name & ret & Hin & Hb & Hp)|(name & ret & Hin & Hb & Hp)];
      exists name, ret; rewrite elem_of_app; auto.
Qed.

Lemma gathered_cons call name rs c p :
  gathered ((call, name) :: rs) c p
  <-> (c = call /\ exists ret, binding name (returns (function call)) = Ok ret
                               /\ p ∈ InputGatherer ret)
      \/ gathered rs c p.
Proof.
  unfold gathered. split.
  - intros (name' & ret & Hin & Hb & Hp).
    apply elem_of_cons in Hin as [[= -> ->]|Hin]; [left|right]; eauto.
  - intros [[-> (ret & Hb & Hp)]|(name' & ret & Hin & Hb & Hp)].
    + exists name, ret. split; [by left | done].
    + exists name', ret. split; [by right | done].
Qed.

(** What the collector adds to [call_to_used_inputs]: for every call, the
    input arguments gathered from its returns that the results in the frame
    name. *)
Lemma collect_spec :
  (forall a acc acc', collect_array acc a = Ok acc' ->
     forall c p, p ∈ used_inputs_of acc' c
                 <-> p ∈ used_inputs_of acc c \/ gathered (results a) c p) /\
  (forall l acc acc', collect_arrays acc l = Ok acc' ->
     forall c p, p ∈ used_inputs_of acc' c
                 <-> p ∈ used_inputs_of acc c \/ gathered (results_arrays l) c p) /\
  (forall bs acc acc', collect_bindings acc bs = Ok acc' ->
     forall c p, p ∈ used_inputs_of acc' c
                 <-> p ∈ used_inputs_of acc c \/ gathered (results_bindings bs) c p) /\
  (forall call acc acc', collect_call acc call = Ok acc' ->
     forall c p, p ∈ used_inputs_of acc' c
                 <-> p ∈ used_inputs_of acc c \/ gathered (results_call call) c p) /\
  (forall f : FunctionDefinition, True).
Proof.
  apply Array_mutind.
  - intros name s d m acc acc' [= <-] c p. pose proof (gathered_nil c p). cbn. tauto.
  - intros name x s d m acc acc' [= <-] c p. pose proof (gathered_nil c p). cbn. tauto.
  - intros name m acc acc' [= <-] c p. pose proof (gathered_nil c p). cbn. tauto.
  - intros e s d bs IH m acc acc' Hc. by apply IH.
  - intros l IH ax m acc acc' Hc. by apply IH.
  - intros a IH idx m acc acc' Hc. by apply IH.
  - intros call IH name acc acc' Hc c p. cbn [collect_array] in Hc.
    apply bind_Ok_inv in Hc as (ret & Hret & Hc).
    rewrite (IH _ _ Hc), add_used_spec. cbn [results]. rewrite gathered_cons.
    split.
    + intros [[?|[-> Hp]]|?]; [auto| |auto]. right. left. eauto.
    + intros [?|[[-> (ret' & Hret' & Hp)]|?]]; [auto| |auto].
      left. right. split; [done|]. congruence.
  - intros acc acc' [= <-] c p. pose proof (gathered_nil c p). cbn. tauto.
  - intros a IHa rest IHr acc acc' Hc c p. cbn [collect_arrays] in Hc.
    apply bind_Ok_inv in Hc as (acc1 & H1 & Hc).
    rewrite (IHr _ _ Hc), (IHa _ _ H1). cbn [results_arrays].
    rewrite gathered_app. tauto.
  - intros acc acc' [= <-] c p. pose proof (gathered_nil c p). cbn. tauto.
  - intros name a IHa rest IHr acc acc' Hc c p. cbn [collect_bindings] in Hc.
    apply bind_Ok_inv in Hc as (acc1 & H1 & Hc).
    rewrite (IHr _ _ Hc), (IHa _ _ H1). cbn [results_bindings].
    rewrite gathered_app. tauto.
  - intros f _ bs IH t acc acc' Hc c p. cbn [collect_call] in Hc.
    apply bind_Ok_inv in Hc as (u & _ & Hc). by apply IH.
  - done.
Qed.

Lemma _collect_used_call_inputs_spec expr used :
  _collect_used_call_inputs expr = Ok used ->
  forall c p, p ∈ used_inputs_of used c <-> gathered (results_of expr) c p.
Proof.
  destruct collect_spec as (Ha & _ & Hb & Hc & _).
  assert (forall c p, p ∈ used_inputs_of [] c <-> False) as Hnil.
  { intros c p. unfold used_inputs_of. cbn. split; [|done]. apply not_elem_of_nil. }
  destruct expr as [a|call|data t]; cbn; intros Hu c p.
  - rewrite (Ha _ _ _ Hu), Hnil. tauto.
  - rewrite (Hc _ _ _ Hu), Hnil. tauto.
  - rewrite (Hb _ _ _ Hu), Hnil. tauto.
Qed.

Lemma zero_call_bindings_spec used expr bs bs' :
  zero_call_bindings used expr bs = Ok bs' ->
  Forall2 (binding_rewritten used expr) (items bs) (items bs').
Proof.
  revert bs'. induction bs as [|name bnd rest IH] using Bindings_ind; intros bs' Hz.
  - injection Hz as <-. constructor.
  - cbn [zero_call_bindings] in Hz.
    apply bind_Ok_inv in Hz as (param & Hparam & Hz).
    apply bind_Ok_inv in Hz as (used_inputs & Hused & Hz).
    apply bind_Ok_inv in Hz as (new_bnd & Hnew & Hz).
    apply bind_Ok_inv in Hz as (rest' & Hrest & [= <-]).
    cbn. constructor; [|by apply IH]. split; [done|].
    exists param, used_inputs. cbn. split; [done|].
    unfold kitem in Hused. destruct (kget expr used) as [u|]; [|done].
    injection Hused as ->. split; [done|].
    destruct (bool_decide (param ∈ used_inputs)); [done|]. by injection Hnew.
Qed.

End ZeroUnusedFacts.

Section ZeroerFacts.
Import Arrays Calls ZeroUnused.
Context `{PytatoInterface}.
Variable used : list (Call * list Array).
Variable used_by : Call -> Array -> Prop.
Hypothesis used_by_spec :
  forall c p, p ∈ used_inputs_of used c <-> used_by c p.

(** The zeroer refines the specification of the rewrite, with the inputs in
    use read off the collector's dictionary. *)
Lemma zero_spec :
  (forall a a', zero_array used a = Ok a' -> zeroed used_by a a') /\
  (forall l l', zero_arrays used l = Ok l' -> zeroed_arrays used_by l l') /\
  (forall bs,
     (forall bs', zero_bindings used bs = Ok bs' -> zeroed_bindings used_by bs bs') /\
     (forall call bs', zero_call_bindings used call bs = Ok bs' ->
                       zeroed_call_bindings used_by call bs bs')) /\
  (forall c c', zero_call used c = Ok c' -> zeroed_call used_by c c') /\
  (forall f f', zero_function used f = Ok f' -> zeroed_function used_by f f').
Proof.
  apply Array_mutind.
  - intros name s d m a' [= <-]. constructor.
  - intros name x s d m a' [= <-]. constructor.
  - intros name m a' [= <-]. constructor.
  - intros e s d bs [IH _] m a' Hz. cbn [zero_array] in Hz.
    apply bind_Ok_inv in Hz as (bs' & Hbs & [= <-]). constructor. by apply IH.
  - intros l IH ax m a' Hz. cbn [zero_array] in Hz.
    apply bind_Ok_inv in Hz as (l' & Hl & [= <-]). constructor. by apply IH.
  - intros a IH idx m a' Hz. cbn [zero_array] in Hz.
    apply bind_Ok_inv in Hz as (a'' & Ha & [= <-]). constructor. by apply IH.
  - intros c IH name a' Hz. cbn [zero_array] in Hz.
    apply bind_Ok_inv in Hz as (c' & Hc & [= <-]). constructor. by apply IH.
  - intros l' [= <-]. constructor.
  - intros a IHa rest IHr l' Hz. cbn [zero_arrays] in Hz.
    apply bind_Ok_inv in Hz as (a' & Ha & Hz).
    apply bind_Ok_inv in Hz as (rest' & Hrest & [= <-]).
    constructor; [by apply IHa | by apply IHr].
  - split; [intros bs' [= <-] | intros call bs' [= <-]]; constructor.
  - intros name a IHa rest [IHr IHc]. split.
    + intros bs' Hz. cbn [zero_bindings] in Hz.
      apply bind_Ok_inv in Hz as (a' & Ha & Hz).
      apply bind_Ok_inv in Hz as (rest' & Hrest & [= <-]).
      constructor; [by apply IHa | by apply IHr].
    + intros call bs' Hz. cbn [zero_call_bindings] in Hz.
      apply bind_Ok_inv in Hz as (param & Hparam & Hz).
      apply bind_Ok_inv in Hz as (used_inputs & Hused & Hz).
      apply bind_Ok_inv in Hz as (new_bnd & Hnew & Hz).
      apply bind_Ok_inv in Hz as (rest' & Hrest & [= <-]).
      assert (used_inputs = used_inputs_of used call) as ->.
      { unfold kitem in Hused. unfold used_inputs_of.
        destruct (kget call used) as [u|]; [|done]. by injection Hused. }
      destruct (bool_decide_reflect (param ∈ used_inputs_of used call)) as [Hin|Hin].
      * eapply zeroed_call_kept; [done | by apply used_by_spec | by apply IHa
                                  | by apply IHc].
      * injection Hnew as <-.
        eapply zeroed_call_zero; [done | by rewrite <- used_by_spec | by apply IHc].
  - intros f IHf bs [_ IHb] t c' Hz. cbn [zero_call] in Hz.
    apply bind_Ok_inv in Hz as (f' & Hf & Hz).
    apply bind_Ok_inv in Hz as (bs' & Hbs & [= <-]).
    constructor; [by apply IHf | by apply IHb].
  - intros ps rets [IH _] t f' Hz. cbn [zero_function] in Hz.
    apply bind_Ok_inv in Hz as (rets' & Hr & [= <-]). constructor. by apply IH.
Qed.

Lemma zero_expr_spec expr expr' :
  zero_expr used expr = Ok expr' -> zeroed_expr used_by expr expr'.
Proof.
  destruct zero_spec as (Ha & _ & Hb & Hc & _).
  destruct expr as [a|c|data t]; cbn [zero_expr]; intros Hz.
  - apply bind_Ok_inv in Hz as (a' & Hz & [= <-]). constructor. by apply Ha.
  - apply bind_Ok_inv in Hz as (c' & Hz & [= <-]). constructor. by apply Hc.
  - apply bind_Ok_inv in Hz as (d' & Hz & [= <-]). constructor. by apply Hb.
Qed.

End ZeroerFacts.

Section ZeroUnusedClaims.
Import Arrays Calls ZeroUnused Scenario.

Lemma zeros_shape s d : shape (zeros s d) = s.
Proof. reflexivity. Qed.

Lemma zeros_dtype s d : dtype (zeros s d) = d.
Proof. reflexivity. Qed.

(** In the scenario only the return [u] of [g(a, b)] is in use: the binding
    of [b] is replaced by zeros, that of [a] is kept. *)
Example zero_unused_scenario :
  zero_unused_call_bindings (H := scenario_interface)
    (AnArray (call_result site_g "u"))
  = Ok (AnArray (call_result site_g_zeroed "u")).
Proof. vm_compute. reflexivity. Qed.

(** With both returns in use, in a dictionary of named arrays, no binding is
    replaced. *)
Example zero_unused_all_used :
  let expr := DictOfNamedArrays
                (BCons "u" (call_result site_g "u")
                   (BCons "v" (call_result site_g "v") BNil)) [] in
  zero_unused_call_bindings (H := scenario_interface) expr = Ok expr.
Proof. vm_compute. reflexivity. Qed.

(** C5. When [zero_unused_call_bindings] returns, its result is the
    expression in which, at every call the rewrite maps, each binding whose
    parameter (the placeholder [get_placeholder] gives for the binding's
    name) is not gathered from any return of that call named by a result in
    the expression is replaced by [zeros (shape bnd) (dtype bnd)], an array of
    the binding's shape and dtype, and each binding whose parameter is
    gathered from such a return is kept and rewritten in turn. *)
Theorem unused_call_bindings_are_zeroed `{PytatoInterface}
    (expr expr' : ArrayOrNames) :
  zero_unused_call_bindings expr = Ok expr' ->
  zeroed_expr (gathered (results_of expr)) expr expr'
  /\ (forall bnd, shape (zeros (shape bnd) (dtype bnd)) = shape bnd
                  /\ dtype (zeros (shape bnd) (dtype bnd)) = dtype bnd).
Proof.
  intros Hz. unfold zero_unused_call_bindings in Hz.
  apply bind_Ok_inv in Hz as (used & Hused & Hz). split.
  - eapply zero_expr_spec; [|exact Hz].
    by apply _collect_used_call_inputs_spec.
  - intros bnd. by rewrite zeros_shape, zeros_dtype.
Qed.

Lemma unused_call_bindings_are_zeroed_witness :
  zeroed_expr (H := scenario_interface)
    (gathered (H := scenario_interface)
       (results_of (AnArray (call_result site_g "u"))))
    (AnArray (call_result site_g "u"))
    (AnArray (call_result site_g_zeroed "u"))
  /\ (forall bnd, shape (zeros (shape bnd) (dtype bnd)) = shape bnd
                  /\ dtype (zeros (shape bnd) (dtype bnd)) = dtype bnd).
Proof.
  apply (unused_call_bindings_are_zeroed (H := scenario_interface)).
  vm_compute. reflexivity.
Defined.

End ZeroUnusedClaims.

(** *** Lowering to loopy *)

Section AddStoreFacts.
Import Arrays Calls Loopy.

Lemma gen_inames_length name ds existing :
  length (gen_inames name ds existing).1 = length ds.
Proof.
  revert existing. induction ds as [|d ds IH]; intros existing; [done|].
  cbn [gen_inames]. destruct (unique_name _ existing) as [iname existing1].
  specialize (IH existing1). destruct (gen_inames name ds existing1). cbn in *.
  by rewrite IH.
Qed.

Lemma zip_strict_Ok {A B} (xs : list A) (ys : list B) :
  length xs = length ys -> exists l, zip_strict xs ys = Ok l.
Proof.
  revert ys. induction xs as [|x xs IH]; intros [|y ys] Hlen; try done.
  - by exists [].
  - injection Hlen as Hlen. destruct (IH ys Hlen) as (l & Hl).
    exists ((x, y) :: l). cbn [zip_strict]. by rewrite Hl.
Qed.

Lemma zip_strict_Ok_length {A B} (xs : list A) (ys : list B) l :
  zip_strict xs ys = Ok l -> length xs = length ys.
Proof.
  revert ys l. induction xs as [|x xs IH]; intros [|y ys] l Hz; try done.
  cbn [zip_strict] in Hz. apply bind_Ok_inv in Hz as (rest & Hrest & _).
  cbn. f_equal. by eapply IH.
Qed.

Lemma to_loopy_expression_Ok result indices ctx :
  length indices = result_num_indices result ->
  exists e d, to_loopy_expression result indices ctx = Ok (e, d).
Proof.
  intros Hlen. destruct result as [name n deps|e n deps|name n deps];
    cbn in *; subst n; rewrite Nat.eqb_refl; cbn; eauto.
Qed.

Lemma to_loopy_expression_Ok_length result indices ctx r :
  to_loopy_expression result indices ctx = Ok r ->
  length indices = result_num_indices result.
Proof.
  destruct result as [name n deps|e n deps|name n deps]; cbn;
    destruct (Nat.eqb_spec (length indices) n); cbn; done.
Qed.

Lemma tag_axis_preserves m k p :
  args (tag_axis m k p) = args k
  /\ temporary_variables (tag_axis m k p) = temporary_variables k
  /\ domains (tag_axis m k p) = domains k
  /\ instructions (tag_axis m k p) = instructions k.
Proof.
  unfold tag_axis. generalize (axis_tags p.1) as ts. intros ts. revert k.
  induction ts as [|t ts IH]; intros k; [done|]. cbn [foldl].
  destruct (negb _); [|apply IH].
  destruct (IH (tag_inames k p.2 t)) as (-> & -> & -> & ->). done.
Qed.

Lemma foldl_tag_axis_preserves m pairs k :
  args (foldl (tag_axis m) k pairs) = args k
  /\ temporary_variables (foldl (tag_axis m) k pairs) = temporary_variables k
  /\ domains (foldl (tag_axis m) k pairs) = domains k
  /\ instructions (foldl (tag_axis m) k pairs) = instructions k.
Proof.
  revert k. induction pairs as [|p pairs IH]; intros k; [done|]. cbn [foldl].
  destruct (IH (tag_axis m k p)) as (-> & -> & -> & ->). apply tag_axis_preserves.
Qed.

Lemma result_is_empty_spec expr :
  result_is_empty expr = true <-> 0 ∈ shape expr.
Proof.
  unfold result_is_empty, are_shape_components_equal.
  rewrite existsb_exists. split.
  - intros (s_i & Hin & Heq). apply Z.eqb_eq in Heq as ->.
    by apply list_elem_of_In.
  - intros Hin. exists 0. split; [by apply list_elem_of_In | done].
Qed.

End AddStoreFacts.

Section AddStoreClaims.
Import Arrays Calls Loopy Scenario.
Import ScalarExprs(Constant, Var, Subscript).

(** What [add_store] makes of the kernel, whenever it returns. *)
Lemma add_store_Ok_inv name expr result state m output_to_temporary insn_id state' :
  add_store name expr result state m output_to_temporary = Ok (insn_id, state') ->
  exists domain insn,
    id insn = insn_id
    /\ domains (kernel state')
       = domains (kernel state) ++ (if result_is_empty expr then [] else [domain])
    /\ instructions (kernel state')
       = instructions (kernel state) ++ (if result_is_empty expr then [] else [insn])
    /\ (if output_to_temporary
        then args (kernel state') = args (kernel state)
             /\ temporary_variables (kernel state')
                = Dict.set name (get_loopy_temporary name expr m)
                    (temporary_variables (kernel state))
        else args (kernel state')
             = args (kernel state)
               ++ [GlobalArg name (shape expr) (dtype expr) false true
                     (_filter_tags_not_of_type expr (array_tag_t_to_not_propagate m))]
             /\ temporary_variables (kernel state')
                = temporary_variables (kernel state)).
Proof.
  unfold add_store.
  destruct (gen_inames name (seq 0 (ndim expr)) (var_name_gen state))
    as [inames var_names].
  intros Hadd. apply bind_Ok_inv in Hadd as ([loopy_expr depends_on] & _ & Hadd).
  destruct (unique_name _ (insn_id_gen state)) as [insn_id' insn_ids].
  apply bind_Ok_inv in Hadd as (domain & _ & Hadd).
  apply bind_Ok_inv in Hadd as (k & Hk & [= <- <-]).
  exists domain,
    (MkAssignment
       match map Var inames with
       | [] => Var name
       | _ :: _ => Subscript name (map Var inames)
       end loopy_expr insn_id' inames depends_on).
  split; [done|]. cbn [kernel].
  destruct (result_is_empty expr); cbn [negb] in Hk.
  - injection Hk as <-. by destruct output_to_temporary.
  - apply bind_Ok_inv in Hk as (pairs & _ & [= <-]).
    match goal with
    | |- context [foldl (tag_axis m) ?k0 pairs] =>
        destruct (foldl_tag_axis_preserves m pairs k0) as (-> & -> & -> & ->)
    end.
    by destruct output_to_temporary.
Qed.

(** [add_store] returns when the result takes as many indices as the array
    has axes and, for a non-empty array, the array has as many [axes] as its
    shape has components. *)
Lemma add_store_returns name expr result state m output_to_temporary :
  result_num_indices result = ndim expr ->
  (result_is_empty expr = false -> length (axes (meta_of expr)) = ndim expr) ->
  exists insn_id state',
    add_store name expr result state m output_to_temporary = Ok (insn_id, state').
Proof.
  intros Hnum Haxes. unfold add_store.
  pose proof (gen_inames_length name (seq 0 (ndim expr)) (var_name_gen state))
    as Hlen. rewrite length_seq in Hlen.
  destruct (gen_inames name (seq 0 (ndim expr)) (var_name_gen state))
    as [inames var_names]. cbn [fst] in Hlen.
  destruct (to_loopy_expression_Ok result (map Var inames) [])
    as (e & d & ->); [by rewrite length_map, Hlen|].
  cbn [mbind res_bind bind].
  destruct (unique_name _ (insn_id_gen state)) as [insn_id insn_ids].
  unfold domain_for_shape, shape_to_scalar_expression.
  replace (length inames =? length (shape expr))%nat with true
    by (symmetry; by apply Nat.eqb_eq).
  cbn [negb].
  destruct (zip_strict_Ok inames (shape expr) Hlen) as (cs & ->).
  cbn [mbind res_bind bind].
  destruct (result_is_empty expr) eqn:Hempty; cbn [negb].
  - cbn [mbind res_bind bind]. eauto.
  - destruct (zip_strict_Ok (axes (meta_of expr)) inames) as (pairs & ->);
      [by rewrite Haxes, Hlen|].
    cbn [mbind res_bind bind]. eauto.
Qed.

(** An empty array [0 x 3] stored as an output: the argument is declared,
    and the kernel keeps its one initial domain and no instruction. *)
Example add_store_empty :
  exists state',
    add_store "out" (zeros [0; 3] "float64") (InlinedResult (Constant 0) 2 [])
      get_initial_codegen_state (MkCodeGenMapper (fun _ => false) (fun _ => false))
      false = Ok ("out_store", state')
    /\ domains (kernel state') = [MkBasicSet [] []]
    /\ instructions (kernel state') = []
    /\ args (kernel state') = [GlobalArg "out" [0; 3] "float64" false true []].
Proof. eexists. vm_compute. done. Qed.

(** The same for a [4 x 3] array: one domain and one instruction more. *)
Example add_store_nonempty :
  exists state',
    add_store "out" (zeros [4; 3] "float64") (InlinedResult (Constant 0) 2 [])
      get_initial_codegen_state (MkCodeGenMapper (fun _ => false) (fun _ => false))
      false = Ok ("out_store", state')
    /\ domains (kernel state')
       = [MkBasicSet [] [];
          MkBasicSet ["out_dim0"; "out_dim1"] [("out_dim0", 4); ("out_dim1", 3)]]
    /\ instructions (kernel state')
       = [MkAssignment (Subscript "out" [Var "out_dim0"; Var "out_dim1"])
            (Constant 0) "out_store" ["out_dim0"; "out_dim1"] []].
Proof. eexists. vm_compute. done. Qed.

(** C6. For an array stored by [add_store] (the result takes as many
    indices as the array has axes, and a non-empty array has one [Axis] per
    shape component) the call returns, and: if a component of the array's
    shape equals zero, the kernel's domains and instructions are unchanged,
    only the output argument, or the temporary variable, being declared;
    otherwise exactly one domain and one assignment, with the returned id,
    are appended. *)
Theorem add_store_skips_empty_arrays name expr result state m output_to_temporary :
  result_num_indices result = ndim expr ->
  (0 ∉ shape expr -> length (axes (meta_of expr)) = ndim expr) ->
  exists insn_id state',
    add_store name expr result state m output_to_temporary = Ok (insn_id, state')
    /\ (0 ∈ shape expr ->
        domains (kernel state') = domains (kernel state)
        /\ instructions (kernel state') = instructions (kernel state))
    /\ (0 ∉ shape expr ->
        exists domain insn,
          domains (kernel state') = domains (kernel state) ++ [domain]
          /\ instructions (kernel state') = instructions (kernel state) ++ [insn]
          /\ id insn = insn_id)
    /\ (if output_to_temporary
        then args (kernel state') = args (kernel state)
             /\ temporary_variables (kernel state')
                = Dict.set name (get_loopy_temporary name expr m)
                    (temporary_variables (kernel state))
        else args (kernel state')
             = args (kernel state)
               ++ [GlobalArg name (shape expr) (dtype expr) false true
                     (_filter_tags_not_of_type expr (array_tag_t_to_not_propagate m))]
             /\ temporary_variables (kernel state')
                = temporary_variables (kernel state)).
Proof.
  intros Hnum Haxes.
  destruct (add_store_returns name expr result state m output_to_temporary Hnum)
    as (insn_id & state' & Hadd).
  { intros Hempty. apply Haxes. rewrite <- result_is_empty_spec. by rewrite Hempty. }
  exists insn_id, state'. split; [done|].
  destruct (add_store_Ok_inv _ _ _ _ _ _ _ _ Hadd)
    as (domain & insn & Hid & Hdom & Hinsn & Hdecl).
  split; [|split; [|done]].
  - intros Hzero. apply result_is_empty_spec in Hzero.
    rewrite Hzero in Hdom, Hinsn. by rewrite !app_nil_r in *.
  - intros Hzero. exists domain, insn.
    destruct (result_is_empty expr) eqn:Hempty; [|done].
    by apply result_is_empty_spec in Hempty.
Qed.

Lemma add_store_skips_empty_arrays_witness :
  exists insn_id state',
    add_store "tmp" (zeros [0; 3] "float64") (InlinedResult (Constant 0) 2 [])
      get_initial_codegen_state (MkCodeGenMapper (fun _ => false) (fun _ => false))
      true = Ok (insn_id, state')
    /\ domains (kernel state') = [MkBasicSet [] []]
    /\ instructions (kernel state') = []
    /\ Dict.get "tmp" (temporary_variables (kernel state'))
       = Some (MkTemporaryVariable "tmp" [0; 3] "float64" []).
Proof.
  destruct (add_store_skips_empty_arrays "tmp" (zeros [0; 3] "float64")
              (InlinedResult (Constant 0) 2 []) get_initial_codegen_state
              (MkCodeGenMapper (fun _ => false) (fun _ => false)) true)
    as (insn_id & state' & Hadd & Hempty & _ & Hargs & Htemps).
  - reflexivity.
  - intros _. reflexivity.
  - exists insn_id, state'. split; [exact Hadd|].
    destruct Hempty as [Hdom Hinsn]; [by left|].
    split; [exact Hdom|]. split; [exact Hinsn|]. rewrite Htemps. reflexivity.
Defined.

End AddStoreClaims.

Section LoweringErrorFacts.
Import Arrays Calls Loopy.
Variable cgen_mapper : CodeGenMapper.
Variable exprgen_mapper :
  ScalarExprs.ScalarExpr -> nat -> Dict.t ImplementedResult -> CodeGenState ->
  res (ScalarExprs.ScalarExpr * list string * CodeGenState).

(** With an implementation strategy among the tags that is none of the
    three the mapper knows, the implementation tag is refused. *)
Lemma implement_unsupported expr result depends_on state :
  existsb is_ImplementationStrategy (tags (meta_of expr)) = true ->
  ImplStored ∉ tags (meta_of expr) ->
  ImplInlined ∉ tags (meta_of expr) ->
  ImplSubstitution ∉ tags (meta_of expr) ->
  implement cgen_mapper expr result depends_on state = Raise NotImplementedError.
Proof.
  intros Hany Hstored Hinlined Hsubst. unfold implement.
  rewrite !bool_decide_eq_false_2 by done. by rewrite Hany.
Qed.

Lemma map_index_lambda_unsupported expr e bindings state :
  kget expr (results state) = None ->
  existsb is_ImplementationStrategy (tags (meta_of expr)) = true ->
  ImplStored ∉ tags (meta_of expr) ->
  ImplInlined ∉ tags (meta_of expr) ->
  ImplSubstitution ∉ tags (meta_of expr) ->
  (exists err,
     map_index_lambda cgen_mapper exprgen_mapper expr e bindings state = Raise err)
  /\ (forall local_namespace state1 loopy_expr depends_on state2,
        lower_bindings (sorted_names (Dict.keys bindings)) bindings state
        = Ok (local_namespace, state1) ->
        exprgen_mapper e (ndim expr) local_namespace state1
        = Ok (loopy_expr, depends_on, state2) ->
        map_index_lambda cgen_mapper exprgen_mapper expr e bindings state
        = Raise NotImplementedError).
Proof.
  intros Hnew Hany Hstored Hinlined Hsubst. unfold map_index_lambda.
  rewrite Hnew. split.
  - destruct (lower_bindings _ bindings state) as [[ns state1]|err]; [|by eexists].
    cbn [mbind res_bind bind].
    destruct (exprgen_mapper e (ndim expr) ns state1)
      as [[[loopy_expr depends_on] state2]|err]; [|by eexists].
    cbn [mbind res_bind bind]. rewrite implement_unsupported by done.
    by eexists.
  - intros ns state1 loopy_expr depends_on state2 -> . cbn [mbind res_bind bind].
    intros ->. cbn [mbind res_bind bind]. by rewrite implement_unsupported.
Qed.

(** One unsupported strategy, and no other strategy tag beside it *)
Lemma unsupported_strategy_only (ts : list Tag) name :
  OtherImplementationStrategy name ∈ ts ->
  (forall t, t ∈ ts -> is_ImplementationStrategy t = true ->
             t = OtherImplementationStrategy name) ->
  existsb is_ImplementationStrategy ts = true
  /\ (ImplStored ∉ ts) /\ (ImplInlined ∉ ts) /\ (ImplSubstitution ∉ ts).
Proof.
  intros Hin Honly. split.
  - apply existsb_exists. eexists. split; [by apply list_elem_of_In|done].
  - repeat split; intros Ht; by specialize (Honly _ Ht eq_refl).
Qed.

End LoweringErrorFacts.

Section LoweringErrorClaims.
Import Arrays Calls Loopy Scenario.
Import ScalarExprs(Constant, Var, Subscript).

(** An index lambda tagged with a strategy of its own is refused: here the
    expression generator is the one that returns the expression as it is. *)
Example unsupported_strategy_scenario :
  rec (MkCodeGenMapper (fun _ => false) (fun _ => false))
    (fun e _ _ state => Ok (e, [], state))
    (IndexLambda (Constant 0) [4; 3] "float64" BNil
       (MkMeta [MkAxis []; MkAxis []] [OtherImplementationStrategy "ImplTiled"] []))
    get_initial_codegen_state
  = Raise NotImplementedError.
Proof. reflexivity. Qed.

(** The same node tagged [ImplStored] is lowered to a temporary. *)
Example stored_strategy_scenario :
  exists state',
    rec (MkCodeGenMapper (fun _ => false) (fun _ => false))
      (fun e _ _ state => Ok (e, [], state))
      (IndexLambda (Constant 0) [4; 3] "float64" BNil
         (MkMeta [MkAxis []; MkAxis []] [ImplStored] []))
      get_initial_codegen_state
    = Ok (StoredResult "_pt_temp" 2 ["_pt_temp_store"], state').
Proof. eexists. vm_compute. reflexivity. Qed.

(** Options that ask for a tuple while the result is a dictionary *)
Example options_mismatch_scenario :
  generate_loopy (BoundProgram := unit)
    (fun outs _ => Ok (MkPreprocessResult outs ["out"]))
    (fun _ _ _ _ => Ok tt)
    (OfDict (BCons "out" (zeros [4; 3] "float64") BNil)) None
    (Some (MkOptions false))
  = Raise ValueError.
Proof. reflexivity. Qed.

(** C8. Each of these raises during lowering:
    (1) a [Call] or a [NamedCallResult] reached by the code-generation
        mapper: [NotImplementedError], whatever the state;
    (2) a [LoopyCall] preprocessed for a target that is not a loopy target:
        [ValueError];
    (3) [generate_loopy] with options whose [return_dict] differs from
        whether the result is a dictionary: an exception in every case, and
        [ValueError] once the outputs are normalized and preprocessed;
    (4) an [IndexLambda], not lowered before, that carries an
        implementation strategy tag other than [ImplStored], [ImplInlined]
        and [ImplSubstitution] (and, strategy tags being unique, none of
        these): an exception in every case, and [NotImplementedError] once
        its bindings and its expression are lowered. *)
Theorem lowering_errors_are_raised :
  (forall cgen_mapper exprgen_mapper call name state,
     map_call call state = Raise NotImplementedError
     /\ rec cgen_mapper exprgen_mapper (NamedCallResult call name) state
        = Raise NotImplementedError)
  /\ (forall target rename_and_copy expr,
        is_LoopyTarget target = false ->
        CodeGenPreprocessor_map_loopy_call target rename_and_copy expr
        = Raise ValueError)
  /\ (forall (BoundProgram : Type) preprocess
             (generate_outputs : _ -> _ -> _ -> _ -> res BoundProgram)
             result target options,
        return_dict options <> result_is_dict result ->
        (exists err,
           generate_loopy preprocess generate_outputs result target (Some options)
           = Raise err)
        /\ (forall data ts preproc_result data' ts',
              normalize_outputs result = DictOfNamedArrays data ts ->
              is_LoopyTarget (default LoopyPyOpenCLTarget target) = true ->
              preprocess (DictOfNamedArrays data ts)
                         (default LoopyPyOpenCLTarget target)
              = Ok preproc_result ->
              outputs preproc_result = DictOfNamedArrays data' ts' ->
              generate_loopy preprocess generate_outputs result target
                             (Some options)
              = Raise ValueError))
  /\ (forall cgen_mapper exprgen_mapper e s d bs m state strategy,
        let expr := IndexLambda e s d bs m in
        kget expr (results state) = None ->
        OtherImplementationStrategy strategy ∈ tags m ->
        (forall t, t ∈ tags m -> is_ImplementationStrategy t = true ->
                   t = OtherImplementationStrategy strategy) ->
        (exists err, rec cgen_mapper exprgen_mapper expr state = Raise err)
        /\ (forall local_namespace state1 loopy_expr depends_on state2,
              lower_bindings
                (sorted_names (Dict.keys (rec_bindings cgen_mapper exprgen_mapper bs)))
                (rec_bindings cgen_mapper exprgen_mapper bs) state
              = Ok (local_namespace, state1) ->
              exprgen_mapper e (ndim expr) local_namespace state1
              = Ok (loopy_expr, depends_on, state2) ->
              rec cgen_mapper exprgen_mapper expr state
              = Raise NotImplementedError)).
Proof.
  split; [|split; [|split]].
  - done.
  - intros target rename_and_copy expr Htarget.
    unfold CodeGenPreprocessor_map_loopy_call. by rewrite Htarget.
  - intros BoundProgram preprocess generate_outputs result target options Hne.
    assert (eqb (return_dict options) (result_is_dict result) = false) as Heqb.
    { by apply eqb_false_iff. }
    unfold generate_loopy. split.
    + destruct (normalize_outputs result) as [a|c|data ts]; [by eexists..|].
      destruct (is_LoopyTarget _); cbn [negb]; [|by eexists].
      destruct (preprocess _ _) as [p|err]; [|by eexists].
      cbn [mbind res_bind bind].
      destruct (outputs p) as [a|c|data' ts']; [by eexists..|].
      change (default _ (Some options)) with options. rewrite Heqb. by eexists.
    + intros data ts p data' ts' -> -> Hp Hout. cbn [negb]. rewrite Hp.
      cbn [mbind res_bind bind]. rewrite Hout.
      change (default _ (Some options)) with options. by rewrite Heqb.
  - intros cgen_mapper exprgen_mapper e s d bs m state strategy expr
      Hnew Hin Honly.
    destruct (unsupported_strategy_only _ _ Hin Honly)
      as (Hany & Hstored & Hinlined & Hsubst).
    apply (map_index_lambda_unsupported cgen_mapper exprgen_mapper expr e
             (rec_bindings cgen_mapper exprgen_mapper bs) state); done.
Qed.

End LoweringErrorClaims.

(** *** The order of the call sites in a batch *)

Section BatchingFacts.
Import Arrays Calls Batching.
Context {A : Type}.

Lemma insert_by_key_Permutation k (x : A) l :
  insert_by_key k x l ≡ₚ (k, x) :: l.
Proof.
  induction l as [|[k' x'] l IH]; [done|]. cbn [insert_by_key].
  destruct (k <=? k'); [done|]. by rewrite IH, Permutation_swap.
Qed.

Lemma sort_by_key_Permutation (l : list (Z * A)) : sort_by_key l ≡ₚ l.
Proof.
  induction l as [|[k x] l IH]; [done|]. cbn.
  by rewrite insert_by_key_Permutation, IH.
Qed.

Lemma insert_by_key_Sorted k (x : A) l :
  Sorted key_le l -> Sorted key_le (insert_by_key k x l).
Proof.
  induction 1 as [|[k' x'] l Hl IH Hhd]; cbn [insert_by_key].
  - by repeat constructor.
  - destruct (Z.leb_spec k k') as [Hle|Hlt].
    + constructor; [by constructor|]. by constructor.
    + constructor; [done|].
      destruct Hhd as [|[k'' x''] l' Hle']; cbn [insert_by_key].
      * constructor. unfold key_le. cbn. lia.
      * destruct (k <=? k''); constructor; unfold key_le in *; cbn in *; lia.
Qed.

Lemma sort_by_key_Sorted (l : list (Z * A)) : Sorted key_le (sort_by_key l).
Proof.
  induction l as [|[k x] l IH]; [constructor|]. cbn.
  by apply insert_by_key_Sorted.
Qed.

#[local] Instance key_le_Transitive : Transitive (@key_le A).
Proof. intros p q r. unfold key_le. lia. Qed.

(** The keys that [sorted] computes *)
Lemma decorate_Ok (key : A -> res Z) l decorated :
  mapM (fun x => k ← key x; Ok (k, x)) l = Ok decorated ->
  Forall2 (fun x kx => key x = Ok kx.1 /\ kx.2 = x) l decorated.
Proof.
  intros Hd. apply mapM_Ok_inv in Hd.
  eapply Forall2_impl; [exact Hd|]. intros x [k x'] Hx. cbn in *.
  apply bind_Ok_inv in Hx as (k' & Hk & [= <- <-]). done.
Qed.

Lemma decorate_total (key : A -> res Z) l :
  (forall x, x ∈ l -> exists k, key x = Ok k) ->
  exists decorated, mapM (fun x => k ← key x; Ok (k, x)) l = Ok decorated.
Proof.
  induction l as [|x l IH]; intros Hkey; [by exists []|].
  destruct (Hkey x) as (k & Hk); [by left|].
  destruct IH as (d & Hd); [intros y Hy; apply Hkey; by right|].
  exists ((k, x) :: d). rewrite mapM_cons, Hk. cbn. by rewrite Hd.
Qed.

Lemma decorate_elem_of (key : A -> res Z) l decorated kx :
  Forall2 (fun x kx => key x = Ok kx.1 /\ kx.2 = x) l decorated ->
  kx ∈ decorated -> kx.2 ∈ l /\ key kx.2 = Ok kx.1.
Proof.
  induction 1 as [|x kx' l d [Hk Hx] _ IH]; intros Hin.
  - by apply elem_of_nil in Hin.
  - apply elem_of_cons in Hin as [->|Hin].
    + subst x. split; [by left | done].
    + destruct (IH Hin). split; [by right | done].
Qed.

Lemma decorate_Permutation (key : A -> res Z) l1 l2 d1 d2 :
  l1 ≡ₚ l2 ->
  Forall2 (fun x kx => key x = Ok kx.1 /\ kx.2 = x) l1 d1 ->
  Forall2 (fun x kx => key x = Ok kx.1 /\ kx.2 = x) l2 d2 ->
  d1 ≡ₚ d2.
Proof.
  set (g := fun x => (match key x with Ok k => k | Raise _ => 0 end, x)).
  assert (forall l d,
            Forall2 (fun x kx => key x = Ok kx.1 /\ kx.2 = x) l d -> d = map g l)
    as Hmap.
  { induction 1 as [|x [k x'] l d [Hk Hx] _ IH]; [done|]. cbn in *. subst x'.
    unfold g at 1. rewrite Hk. by f_equal. }
  intros Hperm H1 H2. rewrite (Hmap _ _ H1), (Hmap _ _ H2).
  by apply Permutation_map.
Qed.

(** [sorted] returns a permutation of the list in ascending order of the
    keys. *)
Lemma sorted_Ok (key : A -> res Z) l r :
  sorted key l = Ok r ->
  r ≡ₚ l
  /\ exists keys, Forall2 (fun x k => key x = Ok k) r keys /\ Sorted Z.le keys.
Proof.
  unfold sorted. intros Hs. apply bind_Ok_inv in Hs as (d & Hd & [= <-]).
  apply decorate_Ok in Hd.
  assert (map snd d = l) as Hsnd.
  { clear -Hd. induction Hd as [|x kx l d [_ Hx] _ IH]; [done|]. cbn.
    by rewrite Hx, IH. }
  split.
  - by rewrite sort_by_key_Permutation, Hsnd.
  - exists (map fst (sort_by_key d)). split.
    + apply Forall2_fmap, Forall_Forall2_diag, Forall_forall.
      intros kx Hin. rewrite sort_by_key_Permutation in Hin.
      by apply (decorate_elem_of key l d kx Hd).
    + pose proof (sort_by_key_Sorted d) as Hsorted.
      induction Hsorted as [|kx s Hs IH Hhd]; [constructor|].
      cbn. constructor; [done|]. destruct Hhd; constructor. done.
Qed.

(** Where the keys of different elements differ, [sorted] gives the same
    list for every order of the elements. *)
Lemma sorted_Permutation (key : A -> res Z) l1 l2 r :
  l1 ≡ₚ l2 ->
  (forall x y k, x ∈ l1 -> y ∈ l1 -> key x = Ok k -> key y = Ok k -> x = y) ->
  sorted key l1 = Ok r -> sorted key l2 = Ok r.
Proof.
  intros Hperm Hinj Hs. unfold sorted in *.
  apply bind_Ok_inv in Hs as (d1 & Hd1 & [= <-]).
  pose proof (decorate_Ok _ _ _ Hd1) as H1.
  destruct (decorate_total key l2) as (d2 & Hd2).
  { intros x Hx. rewrite <- Hperm in Hx.
    destruct (proj1 (list_elem_of_lookup _ _) Hx) as (i & Hi).
    destruct (Forall2_lookup_l _ _ _ _ _ H1 Hi) as (kx & _ & Hk & _). eauto. }
  pose proof (decorate_Ok _ _ _ Hd2) as H2.
  rewrite Hd2. cbn. do 2 f_equal.
  apply (Sorted_unique_strong key_le);
    [|apply sort_by_key_Sorted..|].
  - intros p q Hp Hq Hpq Hqp. rewrite sort_by_key_Permutation in Hp, Hq.
    destruct (decorate_elem_of _ _ _ _ H2 Hp) as [Hp1 Hp2].
    destruct (decorate_elem_of _ _ _ _ H1 Hq) as [Hq1 Hq2].
    rewrite <- Hperm in Hp1. unfold key_le in *.
    assert (p.1 = q.1) as Hk by lia.
    destruct p as [k x], q as [k' y]. cbn in *. subst k'.
    f_equal. by eapply Hinj.
  - rewrite !sort_by_key_Permutation. symmetry.
    by eapply decorate_Permutation.
Qed.

End BatchingFacts.

Section BatchingClaims.
Import Arrays Calls Batching Dependencies Scenario.

(** The two call sites of the scenario, of lengths 4 and 7: one batch, in
    this order whichever way the set is iterated. *)
Example batches_scenario :
  call_site_batches id [(cs1, []); (cs2, [])] (fun _ _ => true) 2 [cs1; cs2]
  = Inlining.Returns [[cs1; cs2]]
  /\ call_site_batches reverse [(cs1, []); (cs2, [])] (fun _ _ => true) 2 [cs1; cs2]
     = Inlining.Returns [[cs1; cs2]].
Proof. split; vm_compute; reflexivity. Qed.

(** A call site that depends on another comes in a later batch. *)
Example batches_follow_dependencies :
  call_site_batches id [(cs1, [cs2]); (cs2, [])] (fun _ _ => true) 2 [cs1; cs2]
  = Inlining.Returns [[cs2]; [cs1]].
Proof. vm_compute. reflexivity. Qed.

(** C7.  The batches depend on the order in which the sets are iterated,
    which the code does not fix: the template is [next(iter(ready_call_sites))]
    and the batch is [sorted(similar_call_sites, key=get_axis0_len)], both
    of a set.  Two orders of iteration, the order of the list and its
    reverse, on one expression:
    (1) two call sites of [f] on arrays of the same length 4 make the batch
        in two orders, and with it the binding of the concatenated call:
        [a1] before [b1], or [b1] before [a1];
    (2) of three call sites of lengths 4, 5 and 7, where the binding of the
        third is made of the result of the second and the second is not
        similar to the others, no two share a batch when the first is taken
        as the template, so that nothing is concatenated, and the first
        and the third share one when the second is, so that their bindings
        are concatenated. *)
Theorem batches_depend_on_set_iteration :
  (forall l : list CallSiteLocation, id l ≡ₚ l /\ reverse l ≡ₚ l)
  /\ (get_axis0_len cs1 = Ok 4 /\ get_axis0_len cs1b = Ok 4
      /\ call_site_batches id [(cs1, []); (cs1b, [])] (fun _ _ => true) 2
           [cs1; cs1b]
         = Inlining.Returns [[cs1; cs1b]]
      /\ call_site_batches reverse [(cs1, []); (cs1b, [])] (fun _ _ => true) 2
           [cs1; cs1b]
         = Inlining.Returns [[cs1b; cs1]]
      /\ new_call_bindings (H := scenario_interface) false plan
           [site1; site1b] site1
         = Ok [("x", Concatenate (ACons a1 (ACons b1 ANil)) 0
                       (marked_meta 2 0 ConcatenatedCallInputConcatAxisTag))]
      /\ new_call_bindings (H := scenario_interface) false plan
           [site1b; site1] site1b
         = Ok [("x", Concatenate (ACons b1 (ACons a1 ANil)) 0
                       (marked_meta 2 0 ConcatenatedCallInputConcatAxisTag))])
  /\ (let call_site_to_dep_call_sites :=
        (CallSiteDependencyCollector three_sites).2 in
      let unbatched_call_sites := call_site_to_dep_call_sites.*1 in
      call_site_to_dep_call_sites = [(cs1, []); (cs_h, []); (cs3, [cs_h])]
      /\ get_axis0_len cs1 = Ok 4 /\ get_axis0_len cs_h = Ok 5
      /\ get_axis0_len cs3 = Ok 7
      /\ (exists batches,
            call_site_batches id call_site_to_dep_call_sites (fun _ _ => true) 3
              unbatched_call_sites
            = Inlining.Returns batches
            /\ batches = [[cs1]; [cs_h]; [cs3]]
            /\ Forall (fun batch => (length batch <= 1)%nat) batches)
      /\ call_site_batches reverse call_site_to_dep_call_sites (fun _ _ => true)
           3 unbatched_call_sites
         = Inlining.Returns [[cs_h]; [cs1; cs3]]
      /\ new_call_bindings (H := scenario_interface) false plan
           [site1; site3] site1
         = Ok [("x", Concatenate (ACons a1 (ACons h_and_c2 ANil)) 0
                       (marked_meta 2 0 ConcatenatedCallInputConcatAxisTag))]).
Proof.
  split; [|split].
  - intros l. split; [done | apply reverse_Permutation].
  - repeat split; vm_compute; reflexivity.
  - cbv zeta. split; [vm_compute; reflexivity|].
    do 3 (split; [reflexivity|]). split; [|split].
    + eexists. split; [vm_compute; reflexivity|]. split; [reflexivity|].
      repeat constructor.
    + vm_compute. reflexivity.
    + vm_compute. reflexivity.
Qed.

End BatchingClaims.

(** *** Equality of array objects *)

Section ArrayObjectClaims.
Import ArrayObjects.

(** Equal objects have equal hashes, both being read from the identity. *)
Lemma eq_hash a b : eq a b = true -> hash a = hash b.
Proof. unfold eq, hash. by intros ?%bool_decide_eq_true. Qed.

(** C9, at [ns = Namespace(); a = Array(ns); b = Array(ns)]: the two arrays
    have the same namespace, tags and dtype, and [a == b] is [False]; their
    hashes differ. *)
Lemma arrays_compare_by_identity :
  let ns := 0%nat in
  let '(a, next) := Array_init 1 ns None in
  let '(b, _) := Array_init next ns None in
  same_fields a b /\ eq a b = false /\ hash a <> hash b.
Proof. cbn. repeat split. discriminate. Qed.

End ArrayObjectClaims.

(** *** Tagging calls and inlining them *)

Section MarkingFacts.
Import Arrays Inlining Marking.

Lemma mark_tags_all :
  (forall a, tagged_calls true (mark_array a) = true) /\
  (forall l, tagged_calls_arrays true (mark_arrays l) = true) /\
  (forall bs, tagged_calls_bindings true (mark_bindings bs) = true) /\
  (forall c, tagged_calls_call true (mark_call c) = true) /\
  (forall f, tagged_calls_function true (mark_function f) = true).
Proof.
  apply Array_mutind; cbn; try done.
  - intros a -> rest ->. done.
  - intros name a -> rest ->. done.
  - intros f -> bs -> t. rewrite !andb_true_r.
    destruct (bool_decide_reflect (InlineCallTag ∈ t)) as [Hin|Hin].
    + by rewrite bool_decide_eq_true_2.
    + unfold add_tag. rewrite (bool_decide_eq_false_2 _ Hin).
      rewrite bool_decide_eq_true_2; [done|]. apply elem_of_app. right. by left.
Qed.

Lemma mark_tagged_id :
  (forall a, tagged_calls true a = true -> mark_array a = a) /\
  (forall l, tagged_calls_arrays true l = true -> mark_arrays l = l) /\
  (forall bs, tagged_calls_bindings true bs = true -> mark_bindings bs = bs) /\
  (forall c, tagged_calls_call true c = true -> mark_call c = c) /\
  (forall f, tagged_calls_function true f = true -> mark_function f = f).
Proof.
  apply Array_mutind; cbn; try done.
  - intros e s d bs IH m H. by rewrite IH.
  - intros l IH ax m H. by rewrite IH.
  - intros a IH idx m H. by rewrite IH.
  - intros c IH name H. by rewrite IH.
  - intros a IHa rest IHr [Ha Hr]%andb_true_iff. by rewrite IHa, IHr.
  - intros name a IHa rest IHr [Ha Hr]%andb_true_iff. by rewrite IHa, IHr.
  - intros f IHf bs IHb t [[Ht Hf]%andb_true_iff Hb]%andb_true_iff.
    rewrite IHf, IHb by done. apply Bool.eqb_prop in Ht. by rewrite Ht.
  - intros ps rets IH t H. by rewrite IH.
Qed.

Lemma binding_tagged_calls w name bs b :
  tagged_calls_bindings w bs = true -> binding name bs = Ok b ->
  tagged_calls w b = true.
Proof.
  unfold binding, Dict.item.
  induction bs as [|name' a rest IH] using Bindings_ind; [done|].
  cbn. intros [Ha Hr]%andb_true_iff. destruct (String.eqb name name').
  - by intros [= <-].
  - by apply IH.
Qed.

Lemma subst_tagged_calls w substitutions :
  tagged_calls_bindings w substitutions = true ->
  (forall a a', tagged_calls w a = true -> subst_array substitutions a = Ok a' ->
                tagged_calls w a' = true) /\
  (forall l l', tagged_calls_arrays w l = true ->
                subst_arrays substitutions l = Ok l' ->
                tagged_calls_arrays w l' = true) /\
  (forall bs bs', tagged_calls_bindings w bs = true ->
                  subst_bindings substitutions bs = Ok bs' ->
                  tagged_calls_bindings w bs' = true) /\
  (forall c c', tagged_calls_call w c = true -> subst_call substitutions c = Ok c' ->
                tagged_calls_call w c' = true) /\
  (forall f : FunctionDefinition, True).
Proof.
  intros Hs. apply Array_mutind.
  - intros name s d m a' _ H. cbn in H. by eapply binding_tagged_calls.
  - by intros name x s d m a' _ [= <-].
  - by intros name m a' _ [= <-].
  - intros e s d bs IH m a' Ht H. cbn in H.
    apply bind_Ok_inv in H as (bs' & Hbs & [= <-]). cbn. by eapply IH.
  - intros l IH ax m a' Ht H. cbn in H.
    apply bind_Ok_inv in H as (l' & Hl & [= <-]). cbn. by eapply IH.
  - intros a IH idx m a' Ht H. cbn in H.
    apply bind_Ok_inv in H as (a'' & Ha & [= <-]). cbn. by eapply IH.
  - intros c IH name a' Ht H. cbn in H.
    apply bind_Ok_inv in H as (c' & Hc & [= <-]). cbn. by eapply IH.
  - by intros l' _ [= <-].
  - intros a IHa rest IHr l' [Ha Hr]%andb_true_iff H. cbn in H.
    apply bind_Ok_inv in H as (a' & Ha' & H).
    apply bind_Ok_inv in H as (rest' & Hr' & [= <-]). cbn.
    by rewrite (IHa _ Ha Ha'), (IHr _ Hr Hr').
  - by intros bs' _ [= <-].
  - intros name a IHa rest IHr bs' [Ha Hr]%andb_true_iff H. cbn in H.
    apply bind_Ok_inv in H as (a' & Ha' & H).
    apply bind_Ok_inv in H as (rest' & Hr' & [= <-]). cbn.
    by rewrite (IHa _ Ha Ha'), (IHr _ Hr Hr').
  - intros f _ bs IH t c' Ht H. cbn in H.
    apply bind_Ok_inv in H as (bs' & Hbs & [= <-]). cbn in *.
    apply andb_true_iff in Ht as [Ht Hb]. by rewrite Ht, (IH _ Hb Hbs).
  - done.
Qed.

Lemma binding_call_free name data v :
  call_free_bindings data = true -> binding name data = Ok v -> call_free v = true.
Proof.
  unfold binding, Dict.item.
  induction data as [|name' a rest IH] using Bindings_ind; [done|].
  cbn. intros [Ha Hr]%andb_true_iff. destruct (String.eqb name name').
  - by intros [= <-].
  - by apply IH.
Qed.

(** Inlining an expression whose calls are all tagged leaves no call. *)
Lemma inline_tagged_call_free n :
  (forall a a', tagged_calls true a = true -> inline_array n a = Returns a' ->
                call_free a' = true) /\
  (forall l l', tagged_calls_arrays true l = true -> inline_arrays n l = Returns l' ->
                call_free_arrays l' = true) /\
  (forall bs bs', tagged_calls_bindings true bs = true ->
                  inline_bindings n bs = Returns bs' ->
                  call_free_bindings bs' = true) /\
  (forall c r, tagged_calls_call true c = true -> inline_call n c = Returns r ->
               exists data t, r = DictOfNamedArrays data t
                              /\ call_free_bindings data = true) /\
  (forall s rets data,
      tagged_calls_bindings true s = true ->
      tagged_calls_bindings true rets = true ->
      inline_returns n s rets = Returns data ->
      call_free_bindings data = true).
Proof.
  induction n as [|n (IHa & IHl & IHb & IHc & IHr)]; [by repeat split|].
  repeat split.
  - intros a a' Ht H. cbn [inline_array] in H.
    destruct a as [| | |e s d bs m|l ax m|a0 idx m|c name]; cbn in Ht.
    + by injection H as <-.
    + by injection H as <-.
    + by injection H as <-.
    + apply run_bind_Returns_inv in H as (bs' & Hbs & [= <-]). cbn. by eapply IHb.
    + apply run_bind_Returns_inv in H as (l' & Hl & [= <-]). cbn. by eapply IHl.
    + apply run_bind_Returns_inv in H as (a1 & Ha & [= <-]). cbn. by eapply IHa.
    + apply run_bind_Returns_inv in H as (r & Hr & H).
      destruct (IHc _ _ Ht Hr) as (data & t & -> & Hfree).
      apply lift_Returns_inv in H. by eapply binding_call_free.
  - intros l l' Ht H. cbn [inline_arrays] in H. destruct l as [|a rest].
    + by injection H as <-.
    + cbn in Ht. apply andb_true_iff in Ht as [Ha Hr].
      apply run_bind_Returns_inv in H as (a' & Ha' & H).
      apply run_bind_Returns_inv in H as (rest' & Hr' & [= <-]). cbn.
      by rewrite (IHa _ _ Ha Ha'), (IHl _ _ Hr Hr').
  - intros bs bs' Ht H. cbn [inline_bindings] in H. destruct bs as [|name a rest].
    + by injection H as <-.
    + cbn in Ht. apply andb_true_iff in Ht as [Ha Hr].
      apply run_bind_Returns_inv in H as (a' & Ha' & H).
      apply run_bind_Returns_inv in H as (rest' & Hr' & [= <-]). cbn.
      by rewrite (IHa _ _ Ha Ha'), (IHb _ _ Hr Hr').
  - intros c r Ht H. cbn [inline_call] in H. destruct c as [f bs t].
    cbn in Ht. apply andb_true_iff in Ht as [[Htag Hf]%andb_true_iff Hbs].
    apply Bool.eqb_prop in Htag. unfold has_InlineCallTag in H. cbn in H.
    rewrite Htag in H.
    apply run_bind_Returns_inv in H as (data & Hdata & [= <-]).
    exists data, t. split; [done|]. destruct f as [ps rets tf]. cbn in *.
    exact (IHr _ _ _ Hbs Hf Hdata).
  - intros s rets data Hs Ht H. cbn [inline_returns] in H.
    destruct rets as [|name ret rest].
    + by injection H as <-.
    + cbn in Ht. apply andb_true_iff in Ht as [Hret Hrest].
      apply run_bind_Returns_inv in H as (substituted & Hsub & H).
      apply run_bind_Returns_inv in H as (inlined & Hin & H).
      apply run_bind_Returns_inv in H as (rest' & Hrest' & [= <-]). cbn.
      apply lift_Returns_inv in Hsub.
      destruct (subst_tagged_calls true s Hs) as (Sa & _).
      rewrite (IHa _ _ (Sa _ _ Hret Hsub) Hin). exact (IHr _ _ _ Hs Hrest Hrest').
Qed.

(** Inlining an expression none of whose calls is tagged returns it as it
    is, or runs out of fuel. *)
Lemma inline_untagged n :
  (forall a, tagged_calls false a = true ->
             inline_array n a = Returns a \/ inline_array n a = OutOfFuel) /\
  (forall l, tagged_calls_arrays false l = true ->
             inline_arrays n l = Returns l \/ inline_arrays n l = OutOfFuel) /\
  (forall bs, tagged_calls_bindings false bs = true ->
              inline_bindings n bs = Returns bs \/ inline_bindings n bs = OutOfFuel) /\
  (forall c, tagged_calls_call false c = true ->
             inline_call n c = Returns (ACall c) \/ inline_call n c = OutOfFuel) /\
  (forall f, tagged_calls_function false f = true ->
             inline_function n f = Returns f \/ inline_function n f = OutOfFuel).
Proof.
  induction n as [|n (IHa & IHl & IHb & IHc & IHf)]; [repeat split; by right|].
  repeat split.
  - intros a Ht. cbn [inline_array].
    destruct a as [| | |e s d bs m|l ax m|a0 idx m|c name]; cbn in Ht; auto.
    + destruct (IHb _ Ht) as [->| ->]; auto.
    + destruct (IHl _ Ht) as [->| ->]; auto.
    + destruct (IHa _ Ht) as [->| ->]; auto.
    + destruct (IHc _ Ht) as [->| ->]; auto.
  - intros l Ht. cbn [inline_arrays]. destruct l as [|a rest]; [auto|].
    cbn in Ht. apply andb_true_iff in Ht as [Ha Hr].
    destruct (IHa _ Ha) as [->| ->]; [|auto]. cbn.
    destruct (IHl _ Hr) as [->| ->]; auto.
  - intros bs Ht. cbn [inline_bindings]. destruct bs as [|name a rest]; [auto|].
    cbn in Ht. apply andb_true_iff in Ht as [Ha Hr].
    destruct (IHa _ Ha) as [->| ->]; [|auto]. cbn.
    destruct (IHb _ Hr) as [->| ->]; auto.
  - intros c Ht. cbn [inline_call]. destruct c as [f bs t].
    cbn in Ht. apply andb_true_iff in Ht as [[Htag Hf]%andb_true_iff Hbs].
    apply Bool.eqb_prop in Htag. unfold has_InlineCallTag. cbn. rewrite Htag.
    destruct (IHf _ Hf) as [->| ->]; [|auto]. cbn.
    destruct (IHb _ Hbs) as [->| ->]; auto.
  - intros f Ht. cbn [inline_function]. destruct f as [ps rets t]. cbn in Ht.
    destruct (IHb _ Ht) as [->| ->]; auto.
Qed.

End MarkingFacts.

Section SubstitutorFacts.
Import Arrays Inlining.
Variable substitutions : Bindings.

Lemma binding_Raise name bs e :
  binding name bs = Raise e -> e = KeyError /\ Dict.get name (items bs) = None.
Proof.
  unfold binding, Dict.item. destruct (Dict.get name (items bs)); [done|].
  by intros [= <-].
Qed.

Lemma binding_mem name bs :
  Dict.mem name (items bs) = true -> exists b, binding name bs = Ok b.
Proof.
  unfold binding, Dict.item, Dict.mem.
  destruct (Dict.get name (items bs)); [eauto | done].
Qed.

Lemma subst_Raise :
  (forall a e, subst_array substitutions a = Raise e ->
     e = KeyError /\ exists name, name ∈ placeholders a
                                  /\ Dict.get name (items substitutions) = None) /\
  (forall l e, subst_arrays substitutions l = Raise e ->
     e = KeyError /\ exists name, name ∈ placeholders_arrays l
                                  /\ Dict.get name (items substitutions) = None) /\
  (forall bs e, subst_bindings substitutions bs = Raise e ->
     e = KeyError /\ exists name, name ∈ placeholders_bindings bs
                                  /\ Dict.get name (items substitutions) = None) /\
  (forall c e, subst_call substitutions c = Raise e ->
     e = KeyError /\ exists name, name ∈ placeholders_call c
                                  /\ Dict.get name (items substitutions) = None) /\
  (forall f : FunctionDefinition, True).
Proof.
  apply Array_mutind; try done.
  - intros name s d m e H. cbn in H. apply binding_Raise in H as [-> H].
    split; [done|]. exists name. split; [by left | done].
  - intros e s d bs IH m err H. cbn in H.
    apply bind_Raise_inv in H as [H|(x & _ & H)]; [by apply IH | done].
  - intros l IH ax m err H. cbn in H.
    apply bind_Raise_inv in H as [H|(x & _ & H)]; [by apply IH | done].
  - intros a IH idx m err H. cbn in H.
    apply bind_Raise_inv in H as [H|(x & _ & H)]; [by apply IH | done].
  - intros c IH name err H. cbn in H.
    apply bind_Raise_inv in H as [H|(x & _ & H)]; [by apply IH | done].
  - intros a IHa rest IHr err H. cbn in H.
    apply bind_Raise_inv in H as [H|(x & _ & H)].
    + destruct (IHa _ H) as (-> & name & Hin & Hget). split; [done|].
      exists name. cbn. rewrite elem_of_app. auto.
    + apply bind_Raise_inv in H as [H|(y & _ & H)]; [|done].
      destruct (IHr _ H) as (-> & name & Hin & Hget). split; [done|].
      exists name. cbn. rewrite elem_of_app. auto.
  - intros name a IHa rest IHr err H. cbn in H.
    apply bind_Raise_inv in H as [H|(x & _ & H)].
    + destruct (IHa _ H) as (-> & name' & Hin & Hget). split; [done|].
      exists name'. cbn. rewrite elem_of_app. auto.
    + apply bind_Raise_inv in H as [H|(y & _ & H)]; [|done].
      destruct (IHr _ H) as (-> & name' & Hin & Hget). split; [done|].
      exists name'. cbn. rewrite elem_of_app. auto.
  - intros f _ bs IH t err H. cbn in H.
    apply bind_Raise_inv in H as [H|(x & _ & H)]; [by apply IH | done].
Qed.

End SubstitutorFacts.

Section MarkingProperties.
Import Arrays Inlining Marking Scenario.

(** X1 ([tag_all_calls_to_be_inlined], [inline_calls]).  After every call
    has been tagged, inlining with fuel for the weight of the tagged
    expression does not run out of fuel, and what it returns has no call
    and no result of a call left in it. *)
Theorem inlining_after_tagging_leaves_no_call :
  (forall expr fuel,
     (weight_of (tag_all_calls_to_be_inlined expr) <= fuel)%nat ->
     inline_calls fuel (tag_all_calls_to_be_inlined expr) <> OutOfFuel)
  /\ (forall expr fuel r,
        inline_calls fuel (tag_all_calls_to_be_inlined expr) = Returns r ->
        call_free_of r = true).
Proof.
  split.
  - intros expr fuel Hle. by apply inline_calls_terminates.
  - intros expr fuel r H.
    destruct (inline_tagged_call_free fuel) as (Ia & _ & Ib & Ic & _).
    destruct mark_tags_all as (Ma & _ & Mb & Mc & _).
    destruct expr as [a|c|data t]; cbn [tag_all_calls_to_be_inlined inline_calls] in H.
    + apply run_bind_Returns_inv in H as (a' & Ha & [= <-]). cbn.
      exact (Ia _ _ (Ma a) Ha).
    + destruct (Ic _ _ (Mc c) H) as (data & t & -> & Hfree). done.
    + apply run_bind_Returns_inv in H as (data' & Hd & [= <-]). cbn.
      exact (Ib _ _ (Mb data) Hd).
Qed.

(** In the scenario: the result of the first call site, once tagged, is
    inlined to the body on the binding. *)
Example tag_and_inline_scenario :
  inline_calls 20 (tag_all_calls_to_be_inlined (AnArray (call_result site1 "out")))
  = Returns (AnArray body_inlined).
Proof. reflexivity. Qed.

(** X2 ([Inliner]).  An expression none of whose calls is tagged
    [InlineCallTag], in its bindings and function bodies included, is
    returned as it is: nothing is inlined and nothing is raised. *)
Theorem inline_calls_keeps_untagged_calls (expr : ArrayOrNames) (fuel : nat) :
  tagged_calls_of false expr = true ->
  (weight_of expr <= fuel)%nat ->
  inline_calls fuel expr = Returns expr.
Proof.
  intros Ht Hle.
  destruct (inline_calls_terminates expr fuel Hle) as [Hfuel _].
  destruct (inline_untagged fuel) as (Ia & _ & Ib & Ic & _).
  destruct expr as [a|c|data t]; cbn [inline_calls tagged_calls_of] in *.
  - destruct (Ia _ Ht) as [H|H]; rewrite H in *; [done | by destruct Hfuel].
  - destruct (Ic _ Ht) as [H|H]; rewrite H in *; [done | by destruct Hfuel].
  - destruct (Ib _ Ht) as [H|H]; rewrite H in *; [done | by destruct Hfuel].
Qed.

Lemma inline_calls_keeps_untagged_calls_witness :
  inline_calls 40 (AnArray (call_result site1 "out"))
  = Returns (AnArray (call_result site1 "out")).
Proof.
  apply (inline_calls_keeps_untagged_calls (AnArray (call_result site1 "out")) 40).
  - reflexivity.
  - vm_compute. lia.
Defined.

(** X3 ([InlineMarker], [tag_all_calls_to_be_inlined]).  In the result
    every call is tagged [InlineCallTag], those in the bindings and in the
    function bodies included; an expression whose calls are all tagged
    already is returned as it is, so that tagging twice is tagging once. *)
Theorem tag_all_calls_tags_every_call :
  (forall expr, tagged_calls_of true (tag_all_calls_to_be_inlined expr) = true)
  /\ (forall expr, tagged_calls_of true expr = true ->
                   tag_all_calls_to_be_inlined expr = expr)
  /\ (forall expr,
        tag_all_calls_to_be_inlined (tag_all_calls_to_be_inlined expr)
        = tag_all_calls_to_be_inlined expr).
Proof.
  destruct mark_tags_all as (Ma & _ & Mb & Mc & _).
  destruct mark_tagged_id as (Ia & _ & Ib & Ic & _).
  assert (forall expr, tagged_calls_of true expr = true ->
                       tag_all_calls_to_be_inlined expr = expr) as Hid.
  { intros [a|c|data t] H; cbn in *; f_equal; auto. }
  assert (forall expr, tagged_calls_of true (tag_all_calls_to_be_inlined expr) = true)
    as Hall.
  { intros [a|c|data t]; cbn; auto. }
  split; [done|]. split; [done|]. intros expr. by apply Hid.
Qed.

(** X4 ([PlaceholderSubstitutor]).  The substitution returns when every
    placeholder of the frame (those of the expression and of the bindings of
    its calls, not those inside function definitions) has a binding; when
    it raises, it raises [KeyError], and a placeholder of the frame has no
    binding. *)
Theorem placeholder_substitution_needs_every_binding
    (substitutions : Bindings) (a : Array) :
  ((forall name, name ∈ placeholders a ->
                 Dict.mem name (items substitutions) = true) ->
   exists a', subst_array substitutions a = Ok a')
  /\ (forall e, subst_array substitutions a = Raise e ->
                e = KeyError
                /\ exists name, name ∈ placeholders a
                                /\ Dict.get name (items substitutions) = None).
Proof.
  destruct (subst_Raise substitutions) as (Ra & _).
  split; [|apply Ra].
  intros Hall. destruct (subst_array substitutions a) as [a'|e] eqn:E; [eauto|].
  destruct (Ra _ _ E) as (_ & name & Hin & Hget).
  specialize (Hall _ Hin). unfold Dict.mem in Hall. by rewrite Hget in Hall.
Qed.

End MarkingProperties.

(** *** Inlining, node by node *)

Section InlinedFacts.
Import Arrays Inlining.

Lemma run_bind_Raises_inv {A B} (c : run A) (k : A -> run B) e :
  (c ≫= k) = Raises e ->
  c = Raises e \/ exists a, c = Returns a /\ k a = Raises e.
Proof. destruct c as [a|e'|]; cbn; [eauto | intros [= ->]; auto | done]. Qed.

Lemma lift_Raises_inv {A} (r : res A) e : lift r = Raises e -> r = Raise e.
Proof. destruct r; cbn; congruence. Qed.

Lemma subst_substituted substitutions :
  (forall a a', subst_array substitutions a = Ok a' ->
                substituted substitutions a a') /\
  (forall l l', subst_arrays substitutions l = Ok l' ->
                substituted_arrays substitutions l l') /\
  (forall bs bs', subst_bindings substitutions bs = Ok bs' ->
                  substituted_bindings substitutions bs bs') /\
  (forall c c', subst_call substitutions c = Ok c' ->
                exists bs', c' = MkCall (function c) bs' (call_tags c)
                            /\ substituted_bindings substitutions (bindings c) bs') /\
  (forall f : FunctionDefinition, True).
Proof.
  apply Array_mutind; try done.
  - intros name s d m a' H. cbn in H. unfold binding, Dict.item in H.
    destruct (Dict.get name (items substitutions)) as [b|] eqn:E; [|done].
    injection H as <-. by constructor.
  - intros name data s d m a' [= <-]. constructor.
  - intros name m a' [= <-]. constructor.
  - intros e s d bs IH m a' H. cbn in H.
    apply bind_Ok_inv in H as (bs' & Hbs & [= <-]). constructor. by apply IH.
  - intros l IH ax m a' H. cbn in H.
    apply bind_Ok_inv in H as (l' & Hl & [= <-]). constructor. by apply IH.
  - intros a IH idx m a' H. cbn in H.
    apply bind_Ok_inv in H as (a1 & Ha & [= <-]). constructor. by apply IH.
  - intros c IH name a' H. cbn in H.
    apply bind_Ok_inv in H as (c' & Hc & [= <-]).
    destruct (IH _ Hc) as (bs' & -> & Hbs). destruct c as [f bs t].
    by constructor.
  - intros l' [= <-]. constructor.
  - intros a IHa rest IHr l' H. cbn in H.
    apply bind_Ok_inv in H as (a' & Ha & H).
    apply bind_Ok_inv in H as (rest' & Hr & [= <-]).
    constructor; [by apply IHa | by apply IHr].
  - intros bs' [= <-]. constructor.
  - intros name a IHa rest IHr bs' H. cbn in H.
    apply bind_Ok_inv in H as (a' & Ha & H).
    apply bind_Ok_inv in H as (rest' & Hr & [= <-]).
    constructor; [by apply IHa | by apply IHr].
  - intros f _ bs IH t c' H. cbn in H.
    apply bind_Ok_inv in H as (bs' & Hbs & [= <-]).
    exists bs'. split; [done|]. by apply IH.
Qed.

Lemma inlined_returns_get substitutions rets data name v :
  inlined_returns substitutions rets data ->
  Dict.get name (items data) = Some v ->
  exists ret ret_substituted,
    Dict.get name (items rets) = Some ret
    /\ substituted substitutions ret ret_substituted
    /\ inlined ret_substituted v.
Proof.
  induction 1 as [|name0 ret s v0 rest rest' Hs Hv _ IH]; [done|].
  cbn. destruct (String.eqb name name0).
  - intros [= ->]. by exists ret, s.
  - exact IH.
Qed.

Lemma inlined_returns_mem substitutions rets data name :
  inlined_returns substitutions rets data ->
  Dict.mem name (items data) = Dict.mem name (items rets).
Proof.
  unfold Dict.mem.
  induction 1 as [|name0 ret s v0 rest rest' Hs Hv _ IH]; [done|].
  cbn. by destruct (String.eqb name name0).
Qed.

(** Both relations name one result. *)
Lemma substituted_functional substitutions :
  (forall a a1 a2, substituted substitutions a a1 ->
                   substituted substitutions a a2 -> a1 = a2) /\
  (forall l l1 l2, substituted_arrays substitutions l l1 ->
                   substituted_arrays substitutions l l2 -> l1 = l2) /\
  (forall bs bs1 bs2, substituted_bindings substitutions bs bs1 ->
                      substituted_bindings substitutions bs bs2 -> bs1 = bs2) /\
  (forall c bs1 bs2, substituted_bindings substitutions (bindings c) bs1 ->
                     substituted_bindings substitutions (bindings c) bs2 ->
                     bs1 = bs2) /\
  (forall f : FunctionDefinition, True).
Proof.
  apply Array_mutind; try done.
  - intros name s d m a1 a2 H1 H2. inversion H1; inversion H2; congruence.
  - intros name data s d m a1 a2 H1 H2. inversion H1; inversion H2; congruence.
  - intros name m a1 a2 H1 H2. inversion H1; inversion H2; congruence.
  - intros e s d bs IH m a1 a2 H1 H2. inversion H1; inversion H2; subst.
    f_equal. by apply IH.
  - intros l IH ax m a1 a2 H1 H2. inversion H1; inversion H2; subst.
    f_equal. by apply IH.
  - intros a IH idx m a1 a2 H1 H2. inversion H1; inversion H2; subst.
    f_equal. by apply IH.
  - intros c IH name a1 a2 H1 H2. inversion H1; inversion H2; subst.
    match goal with H : MkCall _ _ _ = MkCall _ _ _ |- _ =>
      injection H as <- <- <- end.
    do 2 f_equal. by apply (IH _ _).
  - intros l1 l2 H1 H2. inversion H1; inversion H2; congruence.
  - intros a IHa rest IHr l1 l2 H1 H2. inversion H1; inversion H2; subst.
    f_equal; [by apply IHa | by apply IHr].
  - intros bs1 bs2 H1 H2. inversion H1; inversion H2; congruence.
  - intros name a IHa rest IHr bs1 bs2 H1 H2. inversion H1; inversion H2; subst.
    f_equal; [by apply IHa | by apply IHr].
Qed.

Lemma inlined_functional :
  (forall a a1, inlined a a1 -> forall a2, inlined a a2 -> a1 = a2) /\
  (forall l l1, inlined_arrays l l1 ->
                forall l2, inlined_arrays l l2 -> l1 = l2) /\
  (forall bs bs1, inlined_bindings bs bs1 ->
                  forall bs2, inlined_bindings bs bs2 -> bs1 = bs2) /\
  (forall f f1, inlined_function f f1 ->
                forall f2, inlined_function f f2 -> f1 = f2).
Proof.
  apply inlined_mutind.
  - intros name s d m a2 H. by inversion H.
  - intros name data s d m a2 H. by inversion H.
  - intros name m a2 H. by inversion H.
  - intros e s d bs bs' m _ IH a2 H. inversion H; subst. f_equal. by apply IH.
  - intros l l' ax m _ IH a2 H. inversion H; subst. f_equal. by apply IH.
  - intros a a' idx m _ IH a2 H. inversion H; subst. f_equal. by apply IH.
  - intros f bs t name ret s v Ht Hret Hs _ IH a2 H. inversion H; subst; [|done].
    apply IH.
    match goal with
    | Hret' : Dict.get name (items (returns f)) = Some ?ret',
      Hs' : substituted bs ?ret' ?s' |- inlined s _ =>
        rewrite Hret in Hret'; injection Hret' as <-;
        destruct (substituted_functional bs) as (Sa & _);
        by rewrite (Sa _ _ _ Hs Hs')
    end.
  - intros f f' bs bs' t name Ht _ IHf _ IHb a2 H. inversion H; subst; [done|].
    do 2 f_equal; [by apply IHf | by apply IHb].
  - intros l2 H. by inversion H.
  - intros a a' rest rest' _ IHa _ IHr l2 H. inversion H; subst.
    f_equal; [by apply IHa | by apply IHr].
  - intros bs2 H. by inversion H.
  - intros name a a' rest rest' _ IHa _ IHr bs2 H. inversion H; subst.
    f_equal; [by apply IHa | by apply IHr].
  - intros ps rets rets' t _ IH f2 H. inversion H; subst. f_equal. by apply IH.
Qed.

Lemma inlined_returns_functional substitutions rets data1 :
  inlined_returns substitutions rets data1 ->
  forall data2, inlined_returns substitutions rets data2 -> data1 = data2.
Proof.
  induction 1 as [|name ret s v rest rest' Hs Hv _ IH]; intros data2 H;
    inversion H; subst; [done|].
  destruct (substituted_functional substitutions) as (Sa & _).
  destruct inlined_functional as (Ia & _).
  match goal with
  | Hs' : substituted substitutions ret ?s', Hv' : inlined ?s' ?v' |- _ =>
      rewrite <- (Sa _ _ _ Hs Hs') in Hv'; rewrite (Ia _ _ Hv _ Hv')
  end.
  f_equal. by apply IH.
Qed.

Lemma inlined_expr_functional expr r1 r2 :
  inlined_expr expr r1 -> inlined_expr expr r2 -> r1 = r2.
Proof.
  destruct inlined_functional as (Ia & _ & Ib & If).
  intros H1 H2. inversion H1; subst; inversion H2; subst; try done.
  - f_equal. by eapply Ia.
  - f_equal. by eapply Ib.
  - f_equal. by eapply inlined_returns_functional.
  - do 2 f_equal; [by eapply If | by eapply Ib].
Qed.

(** What the mappers return is what inlining is to give. *)
Lemma inline_inlined n :
  (forall a a', inline_array n a = Returns a' -> inlined a a') /\
  (forall l l', inline_arrays n l = Returns l' -> inlined_arrays l l') /\
  (forall bs bs', inline_bindings n bs = Returns bs' -> inlined_bindings bs bs') /\
  (forall c r, inline_call n c = Returns r -> inlined_expr (ACall c) r) /\
  (forall s rets data, inline_returns n s rets = Returns data ->
                       inlined_returns s rets data) /\
  (forall f f', inline_function n f = Returns f' -> inlined_function f f').
Proof.
  induction n as [|n (IHa & IHl & IHb & IHc & IHr & IHf)]; [by repeat split|].
  repeat split.
  - intros a a' H. cbn [inline_array] in H.
    destruct a as [| | |e s d bs m|l ax m|a0 idx m|c name].
    + injection H as <-. constructor.
    + injection H as <-. constructor.
    + injection H as <-. constructor.
    + apply run_bind_Returns_inv in H as (bs' & Hbs & [= <-]).
      constructor. by apply IHb.
    + apply run_bind_Returns_inv in H as (l' & Hl & [= <-]).
      constructor. by apply IHl.
    + apply run_bind_Returns_inv in H as (a1 & Ha & [= <-]).
      constructor. by apply IHa.
    + apply run_bind_Returns_inv in H as (r & Hr & H).
      apply IHc in Hr. inversion Hr as [| |f bs t data Ht Hdata|f f' bs bs' t Ht Hf Hbs];
        subst.
      * apply lift_Returns_inv in H. unfold binding, Dict.item in H.
        destruct (Dict.get name (items data)) as [v|] eqn:Hget; [|done].
        injection H as ->.
        destruct (inlined_returns_get _ _ _ _ _ Hdata Hget)
          as (ret & s & Hret & Hs & Hv).
        by eapply inlined_result_of_tagged_call.
      * injection H as <-. by constructor.
  - intros l l' H. cbn [inline_arrays] in H. destruct l as [|a rest].
    + injection H as <-. constructor.
    + apply run_bind_Returns_inv in H as (a' & Ha & H).
      apply run_bind_Returns_inv in H as (rest' & Hr & [= <-]).
      constructor; [by apply IHa | by apply IHl].
  - intros bs bs' H. cbn [inline_bindings] in H. destruct bs as [|name a rest].
    + injection H as <-. constructor.
    + apply run_bind_Returns_inv in H as (a' & Ha & H).
      apply run_bind_Returns_inv in H as (rest' & Hr & [= <-]).
      constructor; [by apply IHa | by apply IHb].
  - intros c r H. cbn [inline_call] in H. destruct c as [f bs t].
    unfold has_InlineCallTag in H. cbn [call_tags] in H.
    case_bool_decide as Ht.
    + apply run_bind_Returns_inv in H as (data & Hdata & [= <-]).
      constructor; [done | by apply IHr].
    + apply run_bind_Returns_inv in H as (f' & Hf & H).
      apply run_bind_Returns_inv in H as (bs' & Hbs & [= <-]).
      constructor; [done | by apply IHf | by apply IHb].
  - intros s rets data H. cbn [inline_returns] in H.
    destruct rets as [|name ret rest].
    + injection H as <-. constructor.
    + apply run_bind_Returns_inv in H as (ret' & Hsub & H).
      apply run_bind_Returns_inv in H as (v & Hv & H).
      apply run_bind_Returns_inv in H as (rest' & Hrest & [= <-]).
      apply lift_Returns_inv in Hsub.
      destruct (subst_substituted s) as (Sa & _).
      econstructor; [by apply Sa | by apply IHa | by apply IHr].
  - intros f f' H. cbn [inline_function] in H. destruct f as [ps rets t].
    apply run_bind_Returns_inv in H as (rets' & Hrets & [= <-]).
    constructor. by apply IHb.
Qed.

Lemma well_formed_binding name bs b :
  well_formed_bindings bs = true ->
  Dict.get name (items bs) = Some b -> well_formed b = true.
Proof.
  induction bs as [|name0 a rest IH]; [done|]. cbn.
  intros [Ha Hrest]%andb_true_iff. destruct (String.eqb name name0).
  - by intros [= <-].
  - by apply IH.
Qed.

Lemma subst_bindings_mem substitutions bs bs' name :
  subst_bindings substitutions bs = Ok bs' ->
  Dict.mem name (items bs') = Dict.mem name (items bs).
Proof.
  unfold Dict.mem. revert bs'.
  induction bs as [|name0 a rest IH]; intros bs' H; cbn in H.
  - by injection H as <-.
  - apply bind_Ok_inv in H as (a' & Ha & H).
    apply bind_Ok_inv in H as (rest' & Hr & [= <-]). cbn.
    destruct (String.eqb name name0); [done | by apply IH].
Qed.

Lemma subst_well_formed substitutions :
  well_formed_bindings substitutions = true ->
  (forall a a', well_formed a = true -> subst_array substitutions a = Ok a' ->
                well_formed a' = true) /\
  (forall l l', well_formed_arrays l = true ->
                subst_arrays substitutions l = Ok l' ->
                well_formed_arrays l' = true) /\
  (forall bs bs', well_formed_bindings bs = true ->
                  subst_bindings substitutions bs = Ok bs' ->
                  well_formed_bindings bs' = true) /\
  (forall c c', well_formed_call c = true -> subst_call substitutions c = Ok c' ->
                well_formed_call c' = true /\ function c' = function c) /\
  (forall f : FunctionDefinition, True).
Proof.
  intros Hsubst. apply Array_mutind; try done.
  - intros name s d m a' _ H. cbn in H. unfold binding, Dict.item in H.
    destruct (Dict.get name (items substitutions)) as [b|] eqn:E; [|done].
    injection H as <-. by eapply well_formed_binding.
  - by intros name data s d m a' _ [= <-].
  - by intros name m a' _ [= <-].
  - intros e s d bs IH m a' Hwf H. cbn in H, Hwf.
    apply bind_Ok_inv in H as (bs' & Hbs & [= <-]). cbn. by eapply IH.
  - intros l IH ax m a' Hwf H. cbn in H, Hwf.
    apply bind_Ok_inv in H as (l' & Hl & [= <-]). cbn. by eapply IH.
  - intros a IH idx m a' Hwf H. cbn in H, Hwf.
    apply bind_Ok_inv in H as (a1 & Ha & [= <-]). cbn. by eapply IH.
  - intros c IH name a' Hwf H. cbn in H, Hwf.
    apply andb_true_iff in Hwf as [Hc Hname].
    apply bind_Ok_inv in H as (c' & Hc' & [= <-]). cbn.
    destruct (IH _ Hc Hc') as [-> ->]. done.
  - by intros l' _ [= <-].
  - intros a IHa rest IHr l' Hwf H. cbn in H, Hwf.
    apply andb_true_iff in Hwf as [Ha Hr].
    apply bind_Ok_inv in H as (a' & Ha' & H).
    apply bind_Ok_inv in H as (rest' & Hr' & [= <-]). cbn.
    by rewrite (IHa _ Ha Ha'), (IHr _ Hr Hr').
  - by intros bs' _ [= <-].
  - intros name a IHa rest IHr bs' Hwf H. cbn in H, Hwf.
    apply andb_true_iff in Hwf as [Ha Hr].
    apply bind_Ok_inv in H as (a' & Ha' & H).
    apply bind_Ok_inv in H as (rest' & Hr' & [= <-]). cbn.
    by rewrite (IHa _ Ha Ha'), (IHr _ Hr Hr').
  - intros f _ bs IH t c' Hwf H. cbn in H, Hwf.
    apply andb_true_iff in Hwf as [[Hf Hbs]%andb_true_iff Hcover].
    apply bind_Ok_inv in H as (bs' & Hbs' & [= <-]). cbn. split; [|done].
    rewrite Hf, (IH _ Hbs Hbs'). cbn.
    apply forallb_forall. intros name Hname.
    rewrite (subst_bindings_mem _ _ _ _ Hbs').
    by eapply forallb_forall in Hcover.
Qed.

(** On a well-formed expression the mappers raise nothing. *)
Lemma inline_well_formed n :
  (forall a e, well_formed a = true -> inline_array n a <> Raises e) /\
  (forall l e, well_formed_arrays l = true -> inline_arrays n l <> Raises e) /\
  (forall bs e, well_formed_bindings bs = true ->
                inline_bindings n bs <> Raises e) /\
  (forall c e, well_formed_call c = true -> inline_call n c <> Raises e) /\
  (forall s rets e,
      well_formed_bindings s = true -> well_formed_bindings rets = true ->
      forallb (fun name => Dict.mem name (items s)) (placeholders_bindings rets)
      = true ->
      inline_returns n s rets <> Raises e) /\
  (forall f e, well_formed_function f = true -> inline_function n f <> Raises e).
Proof.
  induction n as [|n (IHa & IHl & IHb & IHc & IHr & IHf)]; [by repeat split|].
  repeat split.
  - intros a e Hwf H. cbn [inline_array] in H.
    destruct a as [| | |ex s d bs m|l ax m|a0 idx m|c name]; cbn in Hwf;
      try done.
    + apply run_bind_Raises_inv in H as [H|(x & _ & H)]; [by eapply IHb | done].
    + apply run_bind_Raises_inv in H as [H|(x & _ & H)]; [by eapply IHl | done].
    + apply run_bind_Raises_inv in H as [H|(x & _ & H)]; [by eapply IHa | done].
    + apply andb_true_iff in Hwf as [Hc Hname].
      apply run_bind_Raises_inv in H as [H|(r & Hr & H)]; [by eapply IHc|].
      destruct (inline_inlined n) as (_ & _ & _ & Ic & _).
      apply Ic in Hr.
      inversion Hr as [| |f bs t data Ht Hdata|f f' bs bs' t Ht Hf Hbs]; subst.
      * apply lift_Raises_inv in H. unfold binding, Dict.item in H.
        pose proof (inlined_returns_mem _ _ _ name Hdata) as Hmem.
        cbn in Hname. rewrite Hname in Hmem. unfold Dict.mem in Hmem.
        by destruct (Dict.get name (items data)).
      * done.
  - intros l e Hwf H. cbn [inline_arrays] in H. destruct l as [|a rest]; [done|].
    cbn in Hwf. apply andb_true_iff in Hwf as [Ha Hrest].
    apply run_bind_Raises_inv in H as [H|(a' & _ & H)]; [by eapply IHa|].
    apply run_bind_Raises_inv in H as [H|(x & _ & H)]; [by eapply IHl | done].
  - intros bs e Hwf H. cbn [inline_bindings] in H.
    destruct bs as [|name a rest]; [done|].
    cbn in Hwf. apply andb_true_iff in Hwf as [Ha Hrest].
    apply run_bind_Raises_inv in H as [H|(a' & _ & H)]; [by eapply IHa|].
    apply run_bind_Raises_inv in H as [H|(x & _ & H)]; [by eapply IHb | done].
  - intros c e Hwf H. cbn [inline_call] in H. destruct c as [f bs t].
    cbn in Hwf. apply andb_true_iff in Hwf as [[Hf Hbs]%andb_true_iff Hcover].
    destruct (has_InlineCallTag (MkCall f bs t)).
    + apply run_bind_Raises_inv in H as [H|(x & _ & H)]; [|done].
      destruct f as [ps rets tf]. cbn in Hf, Hcover, H.
      exact (IHr _ _ _ Hbs Hf Hcover H).
    + apply run_bind_Raises_inv in H as [H|(f' & _ & H)]; [by eapply IHf|].
      apply run_bind_Raises_inv in H as [H|(x & _ & H)]; [by eapply IHb | done].
  - intros s rets e Hs Hwf Hcover H. cbn [inline_returns] in H.
    destruct rets as [|name ret rest]; [done|].
    cbn in Hwf, Hcover. apply andb_true_iff in Hwf as [Hret Hrest].
    rewrite forallb_app in Hcover. apply andb_true_iff in Hcover as [Hc1 Hc2].
    apply run_bind_Raises_inv in H as [H|(ret' & Hsub & H)].
    { apply lift_Raises_inv in H.
      destruct (subst_Raise s) as (Sa & _).
      destruct (Sa _ _ H) as (_ & p & Hp & Hget).
      apply list_elem_of_In in Hp. eapply forallb_forall in Hc1; [|exact Hp].
      unfold Dict.mem in Hc1. by rewrite Hget in Hc1. }
    apply lift_Returns_inv in Hsub.
    destruct (subst_well_formed s Hs) as (Wa & _).
    apply run_bind_Raises_inv in H as [H|(v & _ & H)].
    { eapply IHa; [|exact H]. by eapply Wa. }
    apply run_bind_Raises_inv in H as [H|(x & _ & H)]; [|done].
    exact (IHr _ _ _ Hs Hrest Hc2 H).
  - intros f e Hwf H. cbn [inline_function] in H. destruct f as [ps rets t].
    cbn in Hwf.
    apply run_bind_Raises_inv in H as [H|(x & _ & H)]; [by eapply IHb | done].
Qed.

End InlinedFacts.

Section InliningClaims.
Import Arrays Inlining.

(** C4. [inline_calls], given as much fuel as the expression weighs,
    returns or raises, and its outcome does not depend on the fuel beyond
    that.  What it returns is the expression inlined ([inlined_expr]), of
    which there is one:
    wherever it is in the expression, in a binding or in the body of a
    function as well, a result of a call tagged [InlineCallTag] is replaced
    by the return it names with every placeholder of the frame replaced by
    the binding of its name, inlined in turn; such a call is replaced by
    the [DictOfNamedArrays] of these arrays under the names of the returns,
    with the tags of the call; a call without the tag stays a call, of the
    function inlined, on the bindings inlined.  On a well-formed expression,
    where every call binds the placeholders of the returns of its function
    and every result of a call names a return, it does return. *)
Theorem inline_calls_replaces_tagged_calls :
  (forall expr fuel,
      (weight_of expr <= fuel)%nat ->
      inline_calls fuel expr <> OutOfFuel /\
      inline_calls fuel expr = inline_calls (weight_of expr) expr)
  /\ (forall expr fuel r,
      inline_calls fuel expr = Returns r -> inlined_expr expr r)
  /\ (forall expr r r',
      inlined_expr expr r -> inlined_expr expr r' -> r = r')
  /\ (forall expr fuel,
      well_formed_expr expr = true ->
      (weight_of expr <= fuel)%nat ->
      exists r, inline_calls fuel expr = Returns r /\ inlined_expr expr r).
Proof.
  assert (forall expr fuel r,
            inline_calls fuel expr = Returns r -> inlined_expr expr r) as Hspec.
  { intros expr fuel r H.
    destruct (inline_inlined fuel) as (Ia & _ & Ib & Ic & _).
    destruct expr as [a|c|data t]; cbn [inline_calls] in H.
    - apply run_bind_Returns_inv in H as (a' & Ha & [= <-]).
      constructor. by apply Ia.
    - by apply Ic.
    - apply run_bind_Returns_inv in H as (data' & Hd & [= <-]).
      constructor. by apply Ib. }
  split; [|split; [|split]].
  - apply inline_calls_terminates.
  - exact Hspec.
  - apply inlined_expr_functional.
  - intros expr fuel Hwf Hfuel.
    destruct (inline_calls_terminates expr fuel Hfuel) as [Hfueled _].
    destruct (inline_calls fuel expr) as [r|e|] eqn:E; [|exfalso|done].
    { exists r. split; [done|]. by eapply Hspec. }
    destruct (inline_well_formed fuel) as (Wa & _ & Wb & Wc & _).
    destruct expr as [a|c|data t]; cbn [inline_calls well_formed_expr] in E, Hwf.
    + apply run_bind_Raises_inv in E as [E|(x & _ & E)]; [by eapply Wa | done].
    + by eapply Wc.
    + apply run_bind_Raises_inv in E as [E|(x & _ & E)]; [by eapply Wb | done].
Qed.

End InliningClaims.

(** *** The batches of call sites *)

Section BatchLoopFacts.
Import Arrays Calls Batching.
Variable set_iter : list CallSiteLocation -> list CallSiteLocation.
Variable call_site_to_dep_call_sites :
  list (CallSiteLocation * list CallSiteLocation).
Variable similarity_comparer : Array -> Array -> bool.
Hypothesis set_iter_Permutation : forall l, set_iter l ≡ₚ l.

Abbreviation deps_of cs := (default [] (kget cs call_site_to_dep_call_sites)).
Abbreviation batches_of :=
  (call_site_batches set_iter call_site_to_dep_call_sites similarity_comparer).

Lemma is_ready_spec unbatched cs :
  is_ready call_site_to_dep_call_sites unbatched cs = true
  <-> forall dep, dep ∈ deps_of cs -> dep ∉ unbatched.
Proof.
  unfold is_ready. rewrite forallb_forall. split.
  - intros H dep Hdep. apply list_elem_of_In, H in Hdep.
    apply negb_true_iff, bool_decide_eq_false in Hdep. done.
  - intros H dep Hdep. apply list_elem_of_In, H in Hdep.
    apply negb_true_iff. by apply bool_decide_eq_false.
Qed.

(** A batch is a part of the call sites not yet in a batch, not empty, and
    made of call sites that are ready. *)
Lemma next_batch_Ok unbatched batch :
  next_batch set_iter call_site_to_dep_call_sites similarity_comparer unbatched
  = Ok batch ->
  batch <> []
  /\ (NoDup unbatched -> NoDup batch)
  /\ (forall cs, cs ∈ batch ->
        cs ∈ unbatched /\ forall dep, dep ∈ deps_of cs -> dep ∉ unbatched)
  /\ exists lens,
       Forall2 (fun cs n => get_axis0_len cs = Ok n) batch lens
       /\ Sorted Z.le lens.
Proof.
  unfold next_batch. set (ready := filter _ unbatched).
  destruct (set_iter ready) as [|template rest]; [done|].
  set (similar := filter _ ready).
  destruct similar as [|cs0 similar'] eqn:Hsim; [done|].
  unfold batch_call_sites. intros Hs. apply sorted_Ok in Hs as [Hperm Hlens].
  rewrite set_iter_Permutation in Hperm. rewrite <- Hsim in Hperm.
  split; [|split; [|split]]; [| | |done].
  - intros ->. apply Permutation_nil_l in Hperm. by rewrite Hsim in Hperm.
  - intros Hnd. rewrite Hperm. unfold similar, ready.
    by do 2 apply NoDup_filter.
  - intros cs Hcs. rewrite Hperm in Hcs. unfold similar, ready in Hcs.
    apply list_elem_of_filter in Hcs as [_ Hcs].
    apply list_elem_of_filter in Hcs as [Hready Hcs].
    split; [done|]. by apply is_ready_spec.
Qed.

Lemma list_difference_Permutation (l k : list CallSiteLocation) :
  NoDup l -> NoDup k -> (forall x, x ∈ k -> x ∈ l) ->
  l ≡ₚ k ++ list_difference l k.
Proof.
  intros Hl Hk Hsub. apply NoDup_Permutation; [done| |].
  - apply NoDup_app. split; [done|]. split.
    + intros x Hx Hx'. by apply list_elem_of_difference in Hx' as [_ ?].
    + by apply NoDup_list_difference.
  - intros x. rewrite elem_of_app, list_elem_of_difference. split.
    + intros Hx. destruct (decide (x ∈ k)); auto.
    + intros [Hx|[Hx _]]; auto.
Qed.

(** The loop returns or raises when it is given as much fuel as there are
    call sites. *)
Lemma call_site_batches_fuel fuel unbatched :
  NoDup unbatched -> (length unbatched <= fuel)%nat ->
  batches_of fuel unbatched <> Inlining.OutOfFuel.
Proof.
  revert unbatched. induction fuel as [|fuel IH]; intros unbatched Hnd Hlen.
  - destruct unbatched; [done | cbn in Hlen; lia].
  - cbn [call_site_batches]. destruct unbatched as [|cs0 rest] eqn:HU; [done|].
    rewrite <- HU in *.
    destruct (next_batch _ _ _ unbatched) as [batch|e] eqn:Hb; [|done].
    destruct (next_batch_Ok _ _ Hb) as (Hne & Hndb & Hin & _).
    pose proof (list_difference_Permutation unbatched batch Hnd (Hndb Hnd)
                  (fun x Hx => proj1 (Hin x Hx))) as Hperm.
    assert (batches_of fuel (list_difference unbatched batch) <> Inlining.OutOfFuel)
      as Hrec.
    { apply IH; [by apply NoDup_list_difference|].
      apply Permutation_length in Hperm. rewrite length_app in Hperm.
      destruct batch; [done|]. cbn in Hperm. lia. }
    by destruct (batches_of fuel (list_difference unbatched batch)).
Qed.

(** The batches partition the call sites, and a call site comes in a later
    batch than the call sites it depends on. *)
Lemma call_site_batches_Returns fuel unbatched batches :
  NoDup unbatched ->
  batches_of fuel unbatched = Inlining.Returns batches ->
  concat batches ≡ₚ unbatched
  /\ Forall (fun batch => batch <> []) batches
  /\ Forall (fun batch =>
               exists lens,
                 Forall2 (fun cs n => get_axis0_len cs = Ok n) batch lens
                 /\ Sorted Z.le lens) batches
  /\ forall i batch cs dep,
       batches !! i = Some batch -> cs ∈ batch ->
       dep ∈ deps_of cs -> dep ∈ unbatched ->
       exists j batch', (j < i)%nat /\ batches !! j = Some batch' /\ dep ∈ batch'.
Proof.
  revert unbatched batches.
  induction fuel as [|fuel IH]; intros unbatched batches Hnd H.
  - destruct unbatched; [|done]. injection H as <-.
    repeat split; [done | constructor | constructor |].
    intros i batch cs dep Hi. by rewrite lookup_nil in Hi.
  - cbn [call_site_batches] in H. destruct unbatched as [|cs0 rest] eqn:HU.
    { injection H as <-. repeat split; [done | constructor | constructor |].
      intros i batch cs dep Hi. by rewrite lookup_nil in Hi. }
    rewrite <- HU in *.
    destruct (next_batch _ _ _ unbatched) as [batch|e] eqn:Hb; [|done].
    destruct (next_batch_Ok _ _ Hb) as (Hne & Hndb & Hin & Hsorted).
    pose proof (list_difference_Permutation unbatched batch Hnd (Hndb Hnd)
                  (fun x Hx => proj1 (Hin x Hx))) as Hperm.
    destruct (batches_of fuel (list_difference unbatched batch))
      as [rest_batches| |] eqn:Hrec; [|done..].
    injection H as <-.
    destruct (IH _ _ (NoDup_list_difference _ _ Hnd) Hrec)
      as (Hcat & Hnes & Hsorts & Hdeps).
    split; [|split; [|split]].
    + cbn. by rewrite Hcat, <- Hperm.
    + by constructor.
    + by constructor.
    + intros [|i] b cs dep Hi Hcs Hdep Hdep_in; cbn in Hi.
      * injection Hi as <-. by destruct (proj2 (Hin cs Hcs) dep Hdep).
      * destruct (decide (dep ∈ batch)) as [Hb'|Hb'].
        -- exists 0%nat, batch. split; [lia|]. done.
        -- destruct (Hdeps i b cs dep Hi Hcs Hdep) as (j & b' & Hj & Hb'' & Hd).
           { by apply list_elem_of_difference. }
           exists (S j), b'. split; [lia|]. done.
Qed.

End BatchLoopFacts.

Section BatchLoopProperties.
Import Arrays Calls Batching Scenario.

(** X5 ([concatenate_calls], the loop that makes the batches).  Whatever
    the order in which the sets are iterated, with as much fuel as there are
    call sites the loop returns or raises; when it returns, every call site
    is in exactly one batch, no batch is empty, the call sites of a batch
    are in ascending order of [get_axis0_len], and a call site that another
    depends on is in an earlier batch than that one. *)
Theorem call_site_batches_partition_by_dependency
    (set_iter : list CallSiteLocation -> list CallSiteLocation)
    (call_site_to_dep_call_sites : list (CallSiteLocation * list CallSiteLocation))
    (similarity_comparer : Array -> Array -> bool)
    (unbatched_call_sites : list CallSiteLocation) (fuel : nat) :
  (forall l, set_iter l ≡ₚ l) ->
  NoDup unbatched_call_sites ->
  (length unbatched_call_sites <= fuel)%nat ->
  call_site_batches set_iter call_site_to_dep_call_sites similarity_comparer
    fuel unbatched_call_sites <> Inlining.OutOfFuel
  /\ forall batches,
       call_site_batches set_iter call_site_to_dep_call_sites similarity_comparer
         fuel unbatched_call_sites = Inlining.Returns batches ->
       concat batches ≡ₚ unbatched_call_sites
       /\ Forall (fun batch => batch <> []) batches
       /\ Forall (fun batch =>
                    exists lens,
                      Forall2 (fun cs n => get_axis0_len cs = Ok n) batch lens
                      /\ Sorted Z.le lens) batches
       /\ forall i batch cs dep,
            batches !! i = Some batch -> cs ∈ batch ->
            dep ∈ default [] (kget cs call_site_to_dep_call_sites) ->
            dep ∈ unbatched_call_sites ->
            exists j batch',
              (j < i)%nat /\ batches !! j = Some batch' /\ dep ∈ batch'.
Proof.
  intros Hiter Hnd Hfuel. split.
  - by apply call_site_batches_fuel.
  - intros batches H. by eapply call_site_batches_Returns.
Qed.

Lemma call_site_batches_partition_by_dependency_witness :
  call_site_batches reverse [(cs1, [cs2]); (cs2, [])] (fun _ _ => true) 2 [cs1; cs2]
  <> Inlining.OutOfFuel
  /\ forall batches,
       call_site_batches reverse [(cs1, [cs2]); (cs2, [])] (fun _ _ => true) 2
         [cs1; cs2] = Inlining.Returns batches ->
       concat batches ≡ₚ [cs1; cs2]
       /\ Forall (fun batch => batch <> []) batches
       /\ Forall (fun batch =>
                    exists lens,
                      Forall2 (fun cs n => get_axis0_len cs = Ok n) batch lens
                      /\ Sorted Z.le lens) batches
       /\ forall i batch cs dep,
            batches !! i = Some batch -> cs ∈ batch ->
            dep ∈ default [] (kget cs [(cs1, [cs2]); (cs2, [])]) ->
            dep ∈ [cs1; cs2] ->
            exists j batch',
              (j < i)%nat /\ batches !! j = Some batch' /\ dep ∈ batch'.
Proof.
  apply (call_site_batches_partition_by_dependency reverse
           [(cs1, [cs2]); (cs2, [])] (fun _ _ => true) [cs1; cs2] 2).
  - intros l. apply reverse_Permutation.
  - apply (bool_decide_unpack _). vm_compute. exact I.
  - cbn. lia.
Defined.

End BatchLoopProperties.

(** *** The dependencies between call sites *)

Section DependencyFacts.
Import Arrays Calls Batching Dependencies.

Lemma kget_Some_elem_of {K V} `{EqDecision K} (k : K) (v : V) d :
  kget k d = Some v -> (k, v) ∈ d.
Proof.
  induction d as [|[k' v'] d IH]; [done|]. cbn.
  destruct (decide (k = k')) as [->|Hne].
  - intros [= ->]. by left.
  - intros Hk. right. by apply IH.
Qed.

Lemma elem_of_keys_kget {K V} `{EqDecision K} (k : K) (d : list (K * V)) :
  k ∈ d.*1 -> is_Some (kget k d).
Proof.
  induction d as [|[k' v'] d IH]; cbn.
  - by intros ?%elem_of_nil.
  - intros Hk. destruct (decide (k = k')) as [->|Hne]; [done|].
    apply elem_of_cons in Hk as [|Hk]; [done|]. by apply IH.
Qed.

Lemma elem_of_kset {K V} `{EqDecision K} (k : K) (v : V) d e :
  e ∈ kset k v d -> e = (k, v) \/ e ∈ d.
Proof.
  induction d as [|[k' v'] d IH]; cbn.
  - intros ?%list_elem_of_singleton. by left.
  - destruct (decide (k = k')) as [->|Hne].
    + intros [->|He]%elem_of_cons; [by left | right; by right].
    + intros [->|He]%elem_of_cons; [right; by left|].
      destruct (IH He) as [->|?]; [by left | right; by right].
Qed.

Lemma keys_kset {K V} `{EqDecision K} (k : K) (v : V) d x :
  x ∈ (kset k v d).*1 <-> x = k \/ x ∈ d.*1.
Proof.
  induction d as [|[k' v'] d IH]; cbn.
  - rewrite list_elem_of_singleton, elem_of_nil. tauto.
  - destruct (decide (k = k')) as [->|Hne]; cbn.
    + rewrite !elem_of_cons. tauto.
    + rewrite !elem_of_cons, IH. tauto.
Qed.

Lemma elem_of_update d other e :
  e ∈ update d other -> e ∈ d \/ e ∈ other.
Proof.
  unfold update. revert d. induction other as [|[k v] other IH]; intros d; cbn.
  - by left.
  - intros He. destruct (IH _ He) as [He'|He'].
    + apply elem_of_kset in He' as [He'|?]; [|by left].
      right. rewrite He'. by left.
    + right. by right.
Qed.

Lemma keys_update d other x :
  x ∈ (update d other).*1 <-> x ∈ d.*1 \/ x ∈ other.*1.
Proof.
  unfold update. revert d. induction other as [|kv other IH]; intros d; cbn.
  - rewrite elem_of_nil. tauto.
  - rewrite IH, keys_kset, elem_of_cons. tauto.
Qed.

Lemma entries_closed_nil : entries_closed [].
Proof. by intros e ?%elem_of_nil. Qed.

(** What the collector adds to the dictionary is well formed, and the call
    sites it returns are keys and weigh less than the node. *)
Lemma call_sites_spec :
  (forall a stack acc s acc',
     call_sites stack a acc = (s, acc') -> entries_closed acc ->
     entries_closed acc' /\ (forall k, k ∈ acc.*1 -> k ∈ acc'.*1)
     /\ forall d, d ∈ s -> d ∈ acc'.*1 /\ (site_weight d < Inlining.weight a)%nat) /\
  (forall l stack acc s acc',
     call_sites_arrays stack l acc = (s, acc') -> entries_closed acc ->
     entries_closed acc' /\ (forall k, k ∈ acc.*1 -> k ∈ acc'.*1)
     /\ forall d, d ∈ s ->
          d ∈ acc'.*1 /\ (site_weight d < Inlining.weight_arrays l)%nat) /\
  (forall bs stack acc s acc',
     call_sites_bindings stack bs acc = (s, acc') -> entries_closed acc ->
     entries_closed acc' /\ (forall k, k ∈ acc.*1 -> k ∈ acc'.*1)
     /\ forall d, d ∈ s ->
          d ∈ acc'.*1 /\ (site_weight d < Inlining.weight_bindings bs)%nat) /\
  (forall c stack acc s acc',
     call_sites_call stack c acc = (s, acc') -> entries_closed acc ->
     entries_closed acc' /\ (forall k, k ∈ acc.*1 -> k ∈ acc'.*1)
     /\ forall d, d ∈ s ->
          d ∈ acc'.*1 /\ (site_weight d <= Inlining.weight_call c)%nat) /\
  (forall f stack s acc',
     call_sites_function stack f = (s, acc') ->
     entries_closed acc'
     /\ forall d, d ∈ s ->
          d ∈ acc'.*1 /\ (site_weight d < Inlining.weight_function f)%nat).
Proof.
  apply Array_mutind.
  - intros name sh d m stack acc s acc' [= <- <-] Hacc.
    split; [done|]. split; [done|]. by intros d' ?%elem_of_nil.
  - intros name x sh d m stack acc s acc' [= <- <-] Hacc.
    split; [done|]. split; [done|]. by intros d' ?%elem_of_nil.
  - intros name m stack acc s acc' [= <- <-] Hacc.
    split; [done|]. split; [done|]. by intros d' ?%elem_of_nil.
  - intros e sh d bs IH m stack acc s acc' H Hacc. cbn in H.
    destruct (IH _ _ _ _ H Hacc) as (Hc & Hm & Hs). split; [done|]. split; [done|].
    intros d' Hd'. destruct (Hs _ Hd'). cbn. split; [done | lia].
  - intros l IH ax m stack acc s acc' H Hacc. cbn in H.
    destruct (IH _ _ _ _ H Hacc) as (Hc & Hm & Hs). split; [done|]. split; [done|].
    intros d' Hd'. destruct (Hs _ Hd'). cbn. split; [done | lia].
  - intros a IH idx m stack acc s acc' H Hacc. cbn in H.
    destruct (IH _ _ _ _ H Hacc) as (Hc & Hm & Hs). split; [done|]. split; [done|].
    intros d' Hd'. destruct (Hs _ Hd'). cbn. split; [done | lia].
  - intros c IH name stack acc s acc' H Hacc. cbn in H.
    destruct (IH _ _ _ _ H Hacc) as (Hc & Hm & Hs). split; [done|]. split; [done|].
    intros d' Hd'. destruct (Hs _ Hd'). cbn. split; [done | lia].
  - intros stack acc s acc' [= <- <-] Hacc.
    split; [done|]. split; [done|]. by intros d' ?%elem_of_nil.
  - intros a IHa rest IHr stack acc s acc' H Hacc. cbn in H.
    destruct (call_sites stack a acc) as [s1 acc1] eqn:E1.
    destruct (call_sites_arrays stack rest acc1) as [s2 acc2] eqn:E2.
    injection H as <- <-.
    destruct (IHa _ _ _ _ E1 Hacc) as (Hc1 & Hm1 & Hs1).
    destruct (IHr _ _ _ _ E2 Hc1) as (Hc2 & Hm2 & Hs2).
    split; [done|]. split; [by auto|].
    intros d' [Hd'|Hd']%list_elem_of_union; cbn.
    + destruct (Hs1 _ Hd'). split; [by auto | lia].
    + destruct (Hs2 _ Hd'). split; [done | lia].
  - intros stack acc s acc' [= <- <-] Hacc.
    split; [done|]. split; [done|]. by intros d' ?%elem_of_nil.
  - intros name a IHa rest IHr stack acc s acc' H Hacc. cbn in H.
    destruct (call_sites stack a acc) as [s1 acc1] eqn:E1.
    destruct (call_sites_bindings stack rest acc1) as [s2 acc2] eqn:E2.
    injection H as <- <-.
    destruct (IHa _ _ _ _ E1 Hacc) as (Hc1 & Hm1 & Hs1).
    destruct (IHr _ _ _ _ E2 Hc1) as (Hc2 & Hm2 & Hs2).
    split; [done|]. split; [by auto|].
    intros d' [Hd'|Hd']%list_elem_of_union; cbn.
    + destruct (Hs1 _ Hd'). split; [by auto | lia].
    + destruct (Hs2 _ Hd'). split; [done | lia].
  - intros f IHf bs IHb t stack acc s acc' H Hacc. cbn [call_sites_call] in H.
    destruct (call_sites_bindings stack bs acc) as [sb acc1] eqn:Eb.
    destruct (call_sites_function (stack ++ [MkCall f bs t]) f) as [sf accf] eqn:Ef.
    injection H as <- <-.
    destruct (IHb _ _ _ _ Eb Hacc) as (Hc1 & Hm1 & Hs1).
    destruct (IHf _ _ _ Ef) as (Hcf & Hsf).
    set (cs := MkCallSiteLocation (MkCall f bs t) stack).
    assert (1 <= Inlining.weight_function f)%nat as Hwf.
    { destruct f. cbn. lia. }
    assert (forall d, d ∈ list_union sb sf ->
              d ∈ (update (kset cs (list_union sb sf) acc1) accf).*1
              /\ (site_weight d < site_weight cs)%nat) as Hdeps.
    { intros d [Hd|Hd]%list_elem_of_union; rewrite keys_update, keys_kset.
      - destruct (Hs1 _ Hd). split; [by auto|]. unfold site_weight at 2. cbn. nia.
      - destruct (Hsf _ Hd). split; [by auto|]. unfold site_weight at 2. cbn. nia. }
    split; [|split].
    + intros e He dep Hdep. apply elem_of_update in He as [He|He].
      * apply elem_of_kset in He as [->|He]; [by apply Hdeps|].
        destruct (Hc1 _ He _ Hdep). split; [|done].
        rewrite keys_update, keys_kset. auto.
      * destruct (Hcf _ He _ Hdep). split; [|done]. rewrite keys_update. auto.
    + intros k Hk. rewrite keys_update, keys_kset. auto.
    + intros d [Hd|Hd]%list_elem_of_union.
      * apply list_elem_of_singleton in Hd as ->. split.
        -- rewrite keys_update, keys_kset. auto.
        -- unfold site_weight. cbn. lia.
      * destruct (Hdeps _ Hd) as [? Hlt]. split; [done|].
        unfold site_weight at 2 in Hlt. cbn in Hlt. cbn. lia.
  - intros ps rets IH t stack s acc' H. cbn in H.
    destruct (IH _ _ _ _ H entries_closed_nil) as (Hc & _ & Hs).
    split; [done|]. intros d Hd. destruct (Hs _ Hd). cbn. split; [done | lia].
Qed.

Lemma entries_closed_closed d : entries_closed d -> closed d.
Proof.
  intros Hd cs deps Hget dep Hdep.
  destruct (Hd _ (kget_Some_elem_of _ _ _ Hget) dep Hdep) as [Hk Hw].
  split; [by apply elem_of_keys_kget | done].
Qed.

(** Among call sites there is one of least weight. *)
Lemma site_of_least_weight (unbatched : list CallSiteLocation) :
  unbatched <> [] ->
  exists cs, cs ∈ unbatched
             /\ forall cs', cs' ∈ unbatched -> (site_weight cs <= site_weight cs')%nat.
Proof.
  induction unbatched as [|x l IH]; [done|]. intros _.
  destruct l as [|y l'].
  - exists x. split; [by left|]. by intros cs' ->%list_elem_of_singleton.
  - destruct IH as (m & Hm & Hmin); [done|].
    destruct (decide (site_weight x <= site_weight m)%nat) as [Hle|Hgt].
    + exists x. split; [by left|].
      intros cs' [->|Hcs']%elem_of_cons; [done|]. specialize (Hmin _ Hcs'). lia.
    + exists m. split; [by right|].
      intros cs' [->|Hcs']%elem_of_cons; [lia | by apply Hmin].
Qed.

Lemma closed_ready d unbatched :
  closed d -> unbatched <> [] ->
  filter (fun cs => is_ready d unbatched cs = true) unbatched <> [].
Proof.
  intros Hd Hne.
  destruct (site_of_least_weight unbatched Hne) as (cs & Hcs & Hmin).
  assert (cs ∈ filter (fun cs => is_ready d unbatched cs = true) unbatched) as Hin.
  { apply list_elem_of_filter. split; [|done].
    unfold is_ready. apply forallb_forall. intros dep Hdep%list_elem_of_In.
    apply negb_true_iff, bool_decide_eq_false. intros Hdep'.
    destruct (kget cs d) as [deps|] eqn:E; cbn in Hdep.
    - destruct (Hd _ _ E _ Hdep) as [_ Hlt]. specialize (Hmin _ Hdep'). lia.
    - by apply elem_of_nil in Hdep. }
  intros Hnil. rewrite Hnil in Hin. by apply elem_of_nil in Hin.
Qed.

End DependencyFacts.

Section DependencyProperties.
Import Arrays Calls Batching Dependencies Scenario.

(** A call whose binding is the result of another call depends on that
    call: the collector lists the two call sites and the dependency. *)
Example dependencies_scenario :
  let inner := site1 in
  let outer := MkCall (f x1) (BCons "x" (call_result inner "out") BNil) [] in
  CallSiteDependencyCollector (AnArray (call_result outer "out"))
  = ([MkCallSiteLocation outer []; MkCallSiteLocation inner []],
     [(MkCallSiteLocation inner [], []);
      (MkCallSiteLocation outer [], [MkCallSiteLocation inner []])]).
Proof. vm_compute. reflexivity. Qed.

(** X6 ([CallSiteDependencyCollector]).  In the dictionary the collector
    leaves, every call site it returns is a key, every call site a key
    depends on is a key too and its call weighs less than the key's: no call
    site depends on itself, directly or through others.  So among call
    sites not yet in a batch, however chosen, some are ready: the loop of
    [concatenate_calls] does not find a cycle. *)
Theorem call_site_dependencies_have_no_cycle (expr : ArrayOrNames) :
  let '(sites, call_site_to_dep_call_sites) := CallSiteDependencyCollector expr in
  (forall cs, cs ∈ sites -> is_Some (kget cs call_site_to_dep_call_sites))
  /\ closed call_site_to_dep_call_sites
  /\ forall unbatched_call_sites,
       unbatched_call_sites <> [] ->
       filter (fun cs => is_ready call_site_to_dep_call_sites
                           unbatched_call_sites cs = true)
              unbatched_call_sites <> [].
Proof.
  destruct call_sites_spec as (Ha & _ & Hb & Hc & _).
  destruct (CallSiteDependencyCollector expr) as [sites d] eqn:E.
  assert (entries_closed d /\ forall cs, cs ∈ sites -> cs ∈ d.*1) as [Hd Hs].
  { destruct expr as [a|c|data t]; cbn in E.
    - destruct (Ha _ _ _ _ _ E entries_closed_nil) as (? & _ & Hs).
      split; [done|]. intros cs Hcs. by destruct (Hs _ Hcs).
    - destruct (Hc _ _ _ _ _ E entries_closed_nil) as (? & _ & Hs).
      split; [done|]. intros cs Hcs. by destruct (Hs _ Hcs).
    - destruct (Hb _ _ _ _ _ E entries_closed_nil) as (? & _ & Hs).
      split; [done|]. intros cs Hcs. by destruct (Hs _ Hcs). }
  split; [|split].
  - intros cs Hcs. by apply elem_of_keys_kget, Hs.
  - by apply entries_closed_closed.
  - intros unbatched Hne. apply closed_ready; [|done].
    by apply entries_closed_closed.
Qed.

End DependencyProperties.

(** *** The names the code generator makes *)

Section NameFacts.
Import Arrays Calls Loopy.

Lemma append_inj_r (s a b : string) :
  String.append s a = String.append s b -> a = b.
Proof. induction s as [|c s IH]; cbn; [done|]. intros [= H]. by apply IH. Qed.

Lemma numbered_inj based_on : Inj (=) (=) (numbered based_on).
Proof.
  intros i j H. unfold numbered in H. do 2 apply append_inj_r in H.
  apply Unsigned.to_uint_inj.
  assert (Some (Nat.to_uint i) = Some (Nat.to_uint j)) as [= ->]; [|done].
  by rewrite <- !NilEmpty.usu, H.
Qed.

(** The name generator returns a name that was not taken, and takes it. *)
Lemma unique_name_fresh based_on existing_names :
  ((unique_name based_on existing_names).1 ∉ existing_names)
  /\ (unique_name based_on existing_names).2
     = (unique_name based_on existing_names).1 :: existing_names.
Proof.
  unfold unique_name. cbn [fst snd]. split; [|done].
  destruct (find _ _) as [c|] eqn:E; cbn.
  - apply find_some in E as [_ Hc]. apply negb_true_iff in Hc.
    by apply bool_decide_eq_false in Hc.
  - pose proof (find_none _ _ E) as Hall.
    assert (map (numbered based_on) (seq 0 (S (length existing_names)))
            ⊆+ existing_names) as Hsub.
    { apply NoDup_submseteq.
      - pose proof (numbered_inj based_on).
        apply (NoDup_fmap_2 (numbered based_on)), NoDup_seq.
      - intros x Hx. specialize (Hall x). cbn [In] in Hall.
        apply list_elem_of_In in Hx. specialize (Hall (or_intror Hx)).
        apply negb_false_iff in Hall. by apply bool_decide_eq_true in Hall. }
    apply submseteq_length in Hsub. rewrite length_map, length_seq in Hsub. lia.
Qed.

Lemma gen_inames_fresh name ds existing :
  NoDup (gen_inames name ds existing).1
  /\ (forall iname, iname ∈ (gen_inames name ds existing).1 -> iname ∉ existing)
  /\ (gen_inames name ds existing).2
     = reverse (gen_inames name ds existing).1 ++ existing.
Proof.
  revert existing. induction ds as [|d ds IH]; intros existing.
  - cbn. split; [constructor|]. split; [|done]. by intros i ?%elem_of_nil.
  - cbn [gen_inames].
    destruct (unique_name_fresh
                (String.append name
                   (String.append "_dim" (NilEmpty.string_of_uint (Nat.to_uint d))))
                existing) as [Hfresh Htaken].
    destruct (unique_name _ existing) as [iname existing1]. cbn in Hfresh, Htaken.
    subst existing1. specialize (IH (iname :: existing)).
    destruct (gen_inames name ds (iname :: existing)) as [inames existing2].
    cbn [fst snd] in *. destruct IH as (Hnd & Hnew & ->). split; [|split].
    + constructor; [|done]. intros Hin. apply (Hnew _ Hin). by left.
    + intros i [->|Hi]%elem_of_cons; [done|].
      intros Hex. apply (Hnew _ Hi). by right.
    + rewrite reverse_cons, <- app_assoc. done.
Qed.

End NameFacts.

Section NameProperties.
Import Arrays Calls Loopy.

(** X7 ([_generate_name_for_temp], [add_store]).  The name given to a
    temporary was not taken, and is taken afterwards: for a node tagged
    [Named] the name of the tag, refused with [ValueError] if it is taken.
    The id of the store instruction is new among the ids, and the loop
    variables of a store are as many as the array has axes, new among the
    variable names and different from each other. *)
Theorem generated_names_are_new :
  (forall expr existing_names default_prefix name existing_names',
     _generate_name_for_temp expr existing_names default_prefix
     = Ok (name, existing_names') ->
     (name ∉ existing_names) /\ existing_names' = name :: existing_names)
  /\ (forall name expr result state cgen_mapper output_to_temporary insn_id state',
        add_store name expr result state cgen_mapper output_to_temporary
        = Ok (insn_id, state') ->
        (insn_id ∉ insn_id_gen state)
        /\ insn_id_gen state' = insn_id :: insn_id_gen state
        /\ exists inames,
             length inames = ndim expr
             /\ NoDup inames
             /\ (forall iname, iname ∈ inames -> iname ∉ var_name_gen state)
             /\ var_name_gen state' = reverse inames ++ var_name_gen state
             /\ (result_is_empty expr = false ->
                 exists insn,
                   last (instructions (kernel state')) = Some insn
                   /\ within_inames insn = inames /\ id insn = insn_id)).
Proof.
  split.
  - intros expr ex default_prefix name ex' H. unfold _generate_name_for_temp in H.
    destruct (named_tags (tags (meta_of expr))) as [|n [|n' ns]];
      destruct (prefix_named_tags (tags (meta_of expr))) as [|p [|p' ps]];
      try done.
    + pose proof (unique_name_fresh default_prefix ex) as Hf.
      destruct (unique_name default_prefix ex) as [u1 u2].
      by injection H as <- <-.
    + pose proof (unique_name_fresh p ex) as Hf.
      destruct (unique_name p ex) as [u1 u2]. by injection H as <- <-.
    + unfold is_name_conflicting in H.
      destruct (bool_decide_reflect (n ∈ ex)); [done|]. by injection H as <- <-.
    + unfold is_name_conflicting in H.
      destruct (bool_decide_reflect (n ∈ ex)); [done|]. by injection H as <- <-.
    + unfold is_name_conflicting in H.
      destruct (bool_decide_reflect (n ∈ ex)); [done|]. by injection H as <- <-.
  - intros name expr result state m ott insn_id state' H. unfold add_store in H.
    pose proof (gen_inames_fresh name (seq 0 (ndim expr)) (var_name_gen state))
      as (Hnd & Hnew & Htaken).
    pose proof (gen_inames_length name (seq 0 (ndim expr)) (var_name_gen state))
      as Hlen. rewrite length_seq in Hlen.
    destruct (gen_inames name (seq 0 (ndim expr)) (var_name_gen state))
      as [inames var_names]. cbn [fst snd] in *.
    apply bind_Ok_inv in H as ([loopy_expr depends_on] & _ & H).
    pose proof (unique_name_fresh (String.append name "_store") (insn_id_gen state))
      as [Hid Hids].
    destruct (unique_name _ (insn_id_gen state)) as [insn_id' insn_ids].
    cbn [fst snd] in *.
    apply bind_Ok_inv in H as (domain & _ & H).
    apply bind_Ok_inv in H as (k & Hk & [= <- <-]). cbn [insn_id_gen var_name_gen].
    split; [done|]. split; [done|]. exists inames.
    split; [done|]. split; [done|]. split; [done|]. split; [done|].
    intros Hempty. rewrite Hempty in Hk. cbn [negb] in Hk.
    apply bind_Ok_inv in Hk as (pairs & _ & [= <-]). cbn [kernel].
    match goal with
    | |- context [foldl (tag_axis m) ?k0 pairs] =>
        destruct (foldl_tag_axis_preserves m pairs k0) as (_ & _ & _ & ->)
    end.
    eexists. destruct ott; cbn [instructions]; rewrite last_snoc; done.
Qed.

End NameProperties.

(** *** Lowering a node twice *)

Section MemoProperties.
Import Arrays Calls Loopy Scenario.
Import ScalarExprs(Constant, Var, Subscript).

(** X8 ([CodeGenMapper.map_size_param], [map_placeholder],
    [map_index_lambda]).  A node that has been lowered is in
    [state.results] with its result, and lowering it again returns this
    result and leaves the state, the kernel with it, as it is: an input is
    declared as an argument once, an index lambda is stored once. *)
Theorem lowering_is_memoised cgen_mapper exprgen_mapper
    (expr : Array) (state : CodeGenState) (result : ImplementedResult)
    (state' : CodeGenState) :
  rec cgen_mapper exprgen_mapper expr state = Ok (result, state') ->
  kget expr (results state') = Some result
  /\ rec cgen_mapper exprgen_mapper expr state' = Ok (result, state').
Proof.
  intros H.
  assert (kget expr (results state') = Some result) as Hget.
  { destruct expr as [name s d m|name x s d m|name m|e s d bs m|l ax m|a idx m|c name];
      cbn [rec] in H; try done.
    - unfold map_placeholder in H.
      destruct (kget _ (results state)) as [r|] eqn:E; [by injection H as <- <-|].
      apply bind_Ok_inv in H as (arg & _ & [= <- <-]). cbn. apply kget_kset_eq.
    - unfold map_size_param in H.
      destruct (kget _ (results state)) as [r|] eqn:E; [by injection H as <- <-|].
      injection H as <- <-. cbn. apply kget_kset_eq.
    - unfold map_index_lambda in H.
      destruct (kget _ (results state)) as [r|] eqn:E; [by injection H as <- <-|].
      apply bind_Ok_inv in H as ([ns st1] & _ & H).
      apply bind_Ok_inv in H as ([[le deps] st2] & _ & H).
      apply bind_Ok_inv in H as ([r st3] & _ & [= <- <-]). cbn. apply kget_kset_eq. }
  split; [done|].
  destruct expr as [name s d m|name x s d m|name m|e s d bs m|l ax m|a idx m|c name];
    cbn [rec] in *; try done.
  - unfold map_placeholder. by rewrite Hget.
  - unfold map_size_param. by rewrite Hget.
  - unfold map_index_lambda. by rewrite Hget.
Qed.

Lemma lowering_is_memoised_witness :
  let cgen_mapper := MkCodeGenMapper (fun _ => false) (fun _ => false) in
  let result := StoredResult "x" 2 [] in
  let state' :=
    store_result x1 result
      (add_arg (GlobalArg "x" [4; 3] "float64" true false [])
               get_initial_codegen_state) in
  kget x1 (results state') = Some result
  /\ rec cgen_mapper (fun e _ _ state => Ok (e, [], state)) x1 state'
     = Ok (result, state').
Proof.
  apply (lowering_is_memoised _ _ x1 get_initial_codegen_state).
  reflexivity.
Defined.

End MemoProperties.

(** *** Namespaces and placeholders *)

Section NamespaceFacts.
Import Namespaces.

Lemma normalize_shape_component_Ok {V} isidentifier s s' :
  normalize_shape_component (V := V) isidentifier s = Ok s' ->
  s' = s
  /\ match s with
     | IntComponent n => 0 <= n
     | ExprComponent e =>
         forall v, v ∈ variables e -> isidentifier v = true
     end.
Proof.
  destruct s as [n|e]; cbn.
  - destruct (Z.ltb_spec n 0); [done|]. by intros [= <-].
  - intros H. apply bind_Ok_inv in H as ([] & H & [= <-]). split; [done|].
    unfold _ShapeChecker in H. apply bind_Ok_inv in H as (l & H & _).
    apply mapM_Ok_inv in H. intros v Hv.
    destruct (proj1 (list_elem_of_lookup _ _) Hv) as (i & Hi).
    destruct (Forall2_lookup_l _ _ _ _ _ H Hi) as (b & _ & Hb).
    unfold _check_identifier in Hb. by destruct (isidentifier v).
Qed.

Lemma normalize_shape_Ok {V} isidentifier shape (ns : option (Namespace V)) r :
  normalize_shape isidentifier shape ns = Ok r ->
  r = match shape with OneComponent s => [s] | ComponentTuple l => l end
  /\ (forall n, IntComponent n ∈ r -> 0 <= n)
  /\ (forall e v, ExprComponent e ∈ r -> v ∈ variables e -> isidentifier v = true).
Proof.
  unfold normalize_shape.
  generalize (match shape with OneComponent s => [s] | ComponentTuple l => l end).
  intros l H. apply mapM_Ok_inv in H.
  assert (r = l) as ->.
  { induction H as [|x y l r Hxy _ IH]; [done|].
    apply normalize_shape_component_Ok in Hxy as [-> _]. by rewrite IH. }
  split; [done|]. split.
  - intros n Hn. destruct (proj1 (list_elem_of_lookup _ _) Hn) as (i & Hi).
    destruct (Forall2_lookup_l _ _ _ _ _ H Hi) as (y & _ & Hy).
    by apply normalize_shape_component_Ok in Hy as [_ ?].
  - intros e v He Hv. destruct (proj1 (list_elem_of_lookup _ _) He) as (i & Hi).
    destruct (Forall2_lookup_l _ _ _ _ _ H Hi) as (y & _ & Hy).
    apply normalize_shape_component_Ok in Hy as [_ Hy]. by apply Hy.
Qed.

Lemma normalize_shape_Raise {V} isidentifier shape (ns : option (Namespace V)) e :
  normalize_shape isidentifier shape ns = Raise e -> e = ValueError.
Proof.
  unfold normalize_shape. intros H.
  apply mapM_Raise_inv in H as (s & _ & H). destruct s as [n|ex]; cbn in H.
  - destruct (n <? 0); [by injection H | done].
  - apply bind_Raise_inv in H as [H|(x & _ & H)]; [|done].
    unfold _ShapeChecker in H.
    apply bind_Raise_inv in H as [H|(x & _ & H)]; [|done].
    apply mapM_Raise_inv in H as (v & _ & H). unfold _check_identifier in H.
    destruct (isidentifier v); cbn in H; [done | by injection H].
Qed.

End NamespaceFacts.

Section NamespaceProperties.
Import Namespaces.

(** X9 ([Namespace]).  A name is assigned once: assigning a name the
    namespace has raises [ValueError]; a name it has not is added, after
    which the namespace has it, looking it up gives the array assigned, or
    raises [ValueError] for a name that was only reserved, the other names
    are as before, and assigning it again raises [ValueError].  Looking up a
    name the namespace has not raises [KeyError]. *)
Theorem namespace_names_are_assigned_once {V : Type}
    (ns : Namespace V) (name : string) (value : option V) :
  (contains ns name = true -> assign ns name value = Raise ValueError)
  /\ (contains ns name = false ->
      getitem ns name = Raise KeyError
      /\ exists ns',
           assign ns name value = Ok (name, ns')
           /\ contains ns' name = true
           /\ getitem ns' name
              = match value with Some v => Ok v | None => Raise ValueError end
           /\ (forall other, other <> name ->
                 getitem ns' other = getitem ns other
                 /\ contains ns' other = contains ns other)
           /\ forall value', assign ns' name value' = Raise ValueError).
Proof.
  unfold contains, assign, getitem, Dict.item, Dict.mem. split.
  - intros H. by destruct (Dict.get name ns).
  - intros H. destruct (Dict.get name ns) eqn:E; [done|]. split; [done|].
    eexists. split; [done|]. rewrite !Dict_get_set_eq.
    split; [done|]. split; [by destruct value|]. split; [|done].
    intros other Hne. by rewrite !Dict_get_set_ne.
Qed.

(** X10 ([make_placeholder], [normalize_shape], [Placeholder]).  When
    [make_placeholder] returns, the name is an identifier that the
    namespace did not have, the placeholder has this name and the shape as
    it was given, in which no size is negative and every variable is an
    identifier, and the name is reserved in the namespace: looking it up
    raises [ValueError], and so does making another placeholder of this
    name. *)
Theorem make_placeholder_reserves_its_name {V : Type}
    (isidentifier : string -> bool) (namespace : Namespace V) (name : string)
    (shape : ConvertibleToShape) (tags : option (list string))
    (p : Placeholder) (namespace' : Namespace V) :
  make_placeholder isidentifier namespace name shape tags = Ok (p, namespace') ->
  isidentifier name = true
  /\ contains namespace name = false
  /\ Namespaces.name p = name
  /\ _shape p = match shape with OneComponent s => [s] | ComponentTuple l => l end
  /\ (forall n, IntComponent n ∈ _shape p -> 0 <= n)
  /\ (forall e v, ExprComponent e ∈ _shape p -> v ∈ variables e ->
                  isidentifier v = true)
  /\ namespace' = Dict.set name None namespace
  /\ getitem namespace' name = Raise ValueError
  /\ forall shape' tags',
       make_placeholder isidentifier namespace' name shape' tags'
       = Raise ValueError.
Proof.
  unfold make_placeholder. intros H.
  destruct (isidentifier name) eqn:Hid; [|done]. cbn [negb] in H.
  apply bind_Ok_inv in H as (s & Hs & H).
  apply normalize_shape_Ok in Hs as (-> & Hnonneg & Hvars).
  unfold Placeholder_init in H.
  apply bind_Ok_inv in H as ([n ns'] & Hassign & [= <- <-]).
  unfold assign in Hassign. destruct (Dict.mem name namespace) eqn:Hmem; [done|].
  injection Hassign as <- <-. cbn [Namespaces.name _shape].
  do 7 (split; [done|]). split.
  - unfold getitem, Dict.item. by rewrite Dict_get_set_eq.
  - intros shape' tags'. cbn [negb].
    destruct (normalize_shape _ _ _) as [s'|e] eqn:E.
    + cbn [mbind res_bind bind].
      unfold Placeholder_init, assign, Dict.mem. by rewrite Dict_get_set_eq.
    + by apply normalize_shape_Raise in E as ->.
Qed.

Lemma make_placeholder_reserves_its_name_witness :
  let isidentifier := fun s => negb (String.eqb s "") in
  let p := MkPlaceholder "x" [IntComponent 4; IntComponent 3] [] in
  let namespace' : Namespace unit := [("x", None)] in
  isidentifier "x" = true
  /\ contains (Namespace_init (V := unit)) "x" = false
  /\ Namespaces.name p = "x"
  /\ _shape p = [IntComponent 4; IntComponent 3]
  /\ (forall n, IntComponent n ∈ _shape p -> 0 <= n)
  /\ (forall e v, ExprComponent e ∈ _shape p -> v ∈ variables e ->
                  isidentifier v = true)
  /\ namespace' = Dict.set "x" None Namespace_init
  /\ getitem namespace' "x" = Raise ValueError
  /\ forall shape' tags',
       make_placeholder isidentifier namespace' "x" shape' tags'
       = Raise ValueError.
Proof.
  apply (make_placeholder_reserves_its_name (V := unit)
           (fun s => negb (String.eqb s "")) Namespace_init "x"
           (ComponentTuple [IntComponent 4; IntComponent 3]) None).
  reflexivity.
Defined.

End NamespaceProperties.

(** *** The constraints on the inputs of an expression *)

Section ConcatAccFacts.
Import ScalarExprs Arrays Calls ConcatAccs.

Lemma same_set_spec l k :
  same_set l k = true <-> forall x, x ∈ l <-> x ∈ k.
Proof.
  unfold same_set. rewrite andb_true_iff, !forallb_forall. split.
  - intros [H1 H2] x. split; intros Hx.
    + apply list_elem_of_In, H1, bool_decide_eq_true in Hx. done.
    + apply list_elem_of_In, H2, bool_decide_eq_true in Hx. done.
  - intros H. split; intros x Hx%list_elem_of_In; apply bool_decide_eq_true;
      by apply H.
Qed.

Lemma post_init_holds_spec seen ic :
  post_init_holds seen ic = true
  <-> forall k m, (k, m) ∈ ic -> forall x, x ∈ m.*1 <-> x ∈ seen.
Proof.
  unfold post_init_holds. rewrite forallb_forall. split.
  - intros H k m Hkm%list_elem_of_In. apply H in Hkm. by apply same_set_spec.
  - intros H [k m] Hkm%list_elem_of_In. apply same_set_spec. by eapply H.
Qed.

Lemma kget_Some_keys {K V} `{EqDecision K} (k : K) (v : V) d :
  kget k d = Some v -> k ∈ d.*1.
Proof.
  intros H%kget_Some_elem_of.
  apply list_elem_of_fmap. by exists (k, v).
Qed.

Lemma elem_of_union_all x sets :
  x ∈ union_all sets <-> exists s, s ∈ sets /\ x ∈ s.
Proof.
  unfold union_all.
  assert (forall acc, x ∈ foldl list_union acc sets
                      <-> x ∈ acc \/ exists s, s ∈ sets /\ x ∈ s) as H.
  { induction sets as [|s sets IH]; intros acc; cbn [foldl].
    - split; [by left|]. intros [?|(s & []%elem_of_nil & _)]. done.
    - rewrite IH, list_elem_of_union. split.
      + intros [[?|?]|(s' & ? & ?)]; [by left | |].
        * right. exists s. split; [by left | done].
        * right. exists s'. split; [by right | done].
      + intros [?|(s' & [->|?]%elem_of_cons & ?)].
        * left. by left.
        * left. by right.
        * right. by exists s'. }
  rewrite H, elem_of_nil. split; [by intros [[]|?] | by right].
Qed.

Lemma merge_input_concats_spec items ic ic' :
  merge_input_concats items ic = Some ic' ->
  (forall x c, kget x ic = Some c -> kget x ic' = Some c)
  /\ (forall x c, (x, c) ∈ items -> kget x ic' = Some c)
  /\ (forall x, x ∈ ic'.*1 <-> x ∈ ic.*1 \/ x ∈ items.*1).
Proof.
  revert ic. induction items as [|[a c0] rest IH]; intros ic; cbn.
  - intros [= <-]. split; [done|]. split.
    + by intros x c ?%elem_of_nil.
    + intros x. rewrite elem_of_nil. tauto.
  - destruct (kget a ic) as [c|] eqn:Ha.
    + destruct (decide (c = c0)) as [->|]; [|done].
      intros (Hext & Hrest & Hkeys)%IH. split; [done|]. split.
      * intros x c [[= -> ->]|Hx]%elem_of_cons; [by apply Hext | by apply Hrest].
      * intros x. rewrite Hkeys, elem_of_cons. split; [tauto|].
        intros [?|[->|?]]; [tauto | | tauto].
        left. by eapply kget_Some_keys.
    + intros (Hext & Hrest & Hkeys)%IH. split; [|split].
      * intros x c Hx. apply Hext. rewrite kget_kset_ne; [done|].
        intros ->. congruence.
      * intros x c [[= -> ->]|Hx]%elem_of_cons; [|by apply Hrest].
        apply Hext, kget_kset_eq.
      * intros x. rewrite Hkeys, keys_kset, elem_of_cons. tauto.
Qed.

Lemma combine_operands_spec ocs accs ic :
  length ocs = length accs ->
  Forall (fun a => post_init_holds (seen_inputs a) (input_concatability a) = true)
         accs ->
  exists r, combine_operands ocs accs ic = Ok r
    /\ forall m, r = Some m ->
         (forall x c, kget x ic = Some c -> kget x m = Some c)
         /\ agrees_with_operands m ocs accs
         /\ (forall x, x ∈ m.*1
                       <-> x ∈ ic.*1 \/ exists a, a ∈ accs /\ x ∈ seen_inputs a).
Proof.
  revert accs ic. induction ocs as [|oc ocs IH]; intros [|a accs] ic Hlen Hinv;
    try done; cbn [combine_operands].
  - eexists. split; [done|]. intros m [= <-]. split; [done|].
    split; [constructor|]. intros x. split; [by left|].
    intros [?|(a & []%elem_of_nil & _)]. done.
  - apply Forall_cons in Hinv as [Ha Hinv]. injection Hlen as Hlen.
    destruct (kget oc (input_concatability a)) as [items|] eqn:Hoc;
      [|by eexists].
    destruct (merge_input_concats items ic) as [ic1|] eqn:Hmerge;
      [|by eexists].
    apply merge_input_concats_spec in Hmerge as (Hext1 & Hitems & Hkeys1).
    destruct (IH accs ic1 Hlen Hinv) as (r & -> & Hr).
    eexists. split; [done|]. intros m ->.
    destruct (Hr m eq_refl) as (Hext & Hagree & Hkeys).
    assert (forall x, x ∈ items.*1 <-> x ∈ seen_inputs a) as Hseen.
    { eapply post_init_holds_spec; [exact Ha|].
      by eapply kget_Some_elem_of. }
    split; [|split].
    + intros x c Hx. by apply Hext, Hext1.
    + constructor; [|done]. exists items. split; [done|].
      intros x c Hx. by apply Hext, Hitems.
    + intros x. rewrite Hkeys, Hkeys1, Hseen. split.
      * intros [[?|?]|(a' & ? & ?)]; [by left | |].
        -- right. exists a. split; [by left | done].
        -- right. exists a'. split; [by right | done].
      * intros [?|(a' & [->|?]%elem_of_cons & ?)].
        -- left. by left.
        -- left. by right.
        -- right. by exists a'.
Qed.

Lemma axes_loop_lookup (expr : Array) c n s d0 :
  kget c (foldl (fun d idim =>
                   kset (ConcatableAlongAxis idim)
                        [(expr, ConcatableAlongAxis idim)] d)
                d0 (seq s n))
  = match c with
    | ConcatableAlongAxis i =>
        if bool_decide (s <= i < s + n)%nat then Some [(expr, c)]
        else kget c d0
    | ConcatableIfConstant => kget c d0
    end.
Proof.
  revert s d0. induction n as [|n IH]; intros s d0; cbn [seq foldl].
  - destruct c as [i|]; [|done]. rewrite bool_decide_eq_false_2; [done | lia].
  - rewrite IH. destruct c as [i|].
    + destruct (decide (i = s)) as [->|Hne].
      * rewrite kget_kset_eq.
        rewrite (bool_decide_eq_true_2 (s <= s < s + S n)%nat) by lia.
        by case_bool_decide.
      * rewrite kget_kset_ne by congruence.
        case_bool_decide.
        -- rewrite bool_decide_eq_true_2; [done | lia].
        -- rewrite bool_decide_eq_false_2; [done | lia].
    + by rewrite kget_kset_ne.
Qed.

End ConcatAccFacts.

Section ConcatAccProperties.
Import ScalarExprs Arrays Calls ConcatAccs.

(** X11 ([_combine_input_accs], [_InputConcatabilityGetterAcc]): when every
    operand's accumulator satisfies the assertion of its class and every
    tuple of operand concatenatabilities has one entry per operand, combining
    them returns an accumulator, and does not trip the assertion.  Its seen
    inputs are the union of the operands' seen inputs.  Every
    concatenatability it keeps is one of those asked about, its mapping has
    exactly the seen inputs as keys, and gives each input the constraint each
    operand gives it: where two operands disagree the concatenatability is
    dropped. *)
Theorem combined_input_constraints_agree_with_operands
    (operand_accs : list _InputConcatabilityGetterAcc)
    (concat_to_operand_concatabilities :
       list (Concatenatability * list Concatenatability)) :
  forallb (fun a => post_init_holds (seen_inputs a) (input_concatability a))
          operand_accs = true ->
  Forall (fun kv => length kv.2 = length operand_accs)
         concat_to_operand_concatabilities ->
  exists acc,
    _combine_input_accs operand_accs concat_to_operand_concatabilities = Ok acc
    /\ (forall x, x ∈ seen_inputs acc
                  <-> exists a, a ∈ operand_accs /\ x ∈ seen_inputs a)
    /\ forall out_concat m,
         kget out_concat (input_concatability acc) = Some m ->
         (exists ocs,
            (out_concat, ocs) ∈ concat_to_operand_concatabilities
            /\ agrees_with_operands m ocs operand_accs)
         /\ forall x, x ∈ m.*1 <-> x ∈ seen_inputs acc.
Proof.
  intros Hinv Hlen.
  assert (Forall (fun a => post_init_holds (seen_inputs a)
                             (input_concatability a) = true) operand_accs)
    as Hinv'.
  { apply Forall_forall. intros a Ha%list_elem_of_In.
    by eapply forallb_forall in Hinv. }
  set (seen := union_all (map seen_inputs operand_accs)).
  assert (forall x, x ∈ seen
                    <-> exists a, a ∈ operand_accs /\ x ∈ seen_inputs a)
    as Hseen.
  { intros x. unfold seen. rewrite elem_of_union_all. split.
    - intros (s & (a & -> & Ha)%list_elem_of_fmap & Hx). by exists a.
    - intros (a & Ha & Hx). exists (seen_inputs a). split; [|done].
      apply list_elem_of_fmap. by exists a. }
  set (good := fun (ics : list (Concatenatability
                                * list (Array * Concatenatability))) =>
         forall out m, (out, m) ∈ ics ->
           (exists ocs, (out, ocs) ∈ concat_to_operand_concatabilities
                        /\ agrees_with_operands m ocs operand_accs)
           /\ forall x, x ∈ m.*1 <-> x ∈ seen).
  assert (forall l ics,
            Forall (fun kv => kv ∈ concat_to_operand_concatabilities) l ->
            good ics ->
            exists ics',
              foldM (fun input_concatabilities kv =>
                       r ← combine_operands kv.2 operand_accs [];
                       match r with
                       | Some input_concatability =>
                           Ok (kset kv.1 input_concatability
                                    input_concatabilities)
                       | None => Ok input_concatabilities
                       end) ics l = Ok ics'
              /\ good ics') as Hloop.
  { induction l as [|[out ocs] l IH]; intros ics Hl Hgood.
    - exists ics. by rewrite foldM_nil.
    - apply Forall_cons in Hl as [Hin Hl]. rewrite foldM_cons.
      assert (length ocs = length operand_accs) as Hn.
      { eapply Forall_forall in Hlen; [|exact Hin]. done. }
      destruct (combine_operands_spec ocs operand_accs [] Hn Hinv')
        as (r & Hr & Hspec).
      cbn [fst snd]. rewrite Hr. cbn [mbind res_bind bind].
      destruct r as [m|]; cbn [mbind res_bind bind]; [|by apply IH].
      apply IH; [done|].
      destruct (Hspec m eq_refl) as (_ & Hagree & Hkeys).
      intros out' m' [[= -> ->]|Hold]%elem_of_kset; [|by apply Hgood].
      split; [by exists ocs|].
      intros x. rewrite Hkeys, Hseen, elem_of_nil. tauto. }
  destruct (Hloop concat_to_operand_concatabilities [])
    as (ics & Hics & Hgood).
  { by apply Forall_forall. }
  { by intros out m ?%elem_of_nil. }
  unfold _combine_input_accs. fold seen. rewrite Hics.
  cbn [mbind res_bind bind]. unfold new_acc.
  assert (post_init_holds seen ics = true) as ->.
  { apply post_init_holds_spec. intros k m Hkm. by destruct (Hgood _ _ Hkm). }
  eexists. split; [done|]. cbn [seen_inputs input_concatability].
  split; [done|].
  intros out m Hm%kget_Some_elem_of. by apply Hgood.
Qed.

Lemma combined_input_constraints_agree_with_operands_witness :
  let acc1 := Mk_InputConcatabilityGetterAcc [Scenario.x1]
                [(ConcatableAlongAxis 0,
                  [(Scenario.x1, ConcatableAlongAxis 0)]);
                 (ConcatableIfConstant,
                  [(Scenario.x1, ConcatableIfConstant)])] in
  let acc2 := Mk_InputConcatabilityGetterAcc [Scenario.x1]
                [(ConcatableAlongAxis 0,
                  [(Scenario.x1, ConcatableAlongAxis 1)]);
                 (ConcatableIfConstant,
                  [(Scenario.x1, ConcatableIfConstant)])] in
  let asked := [(ConcatableAlongAxis 0,
                 [ConcatableAlongAxis 0; ConcatableAlongAxis 0]);
                (ConcatableIfConstant,
                 [ConcatableIfConstant; ConcatableIfConstant])] in
  exists acc,
    _combine_input_accs [acc1; acc2] asked = Ok acc
    /\ (forall x, x ∈ seen_inputs acc
                  <-> exists a, a ∈ [acc1; acc2] /\ x ∈ seen_inputs a)
    /\ forall out_concat m,
         kget out_concat (input_concatability acc) = Some m ->
         (exists ocs,
            (out_concat, ocs) ∈ asked
            /\ agrees_with_operands m ocs [acc1; acc2])
         /\ forall x, x ∈ m.*1 <-> x ∈ seen_inputs acc.
Proof.
  apply combined_input_constraints_agree_with_operands.
  - reflexivity.
  - repeat constructor.
Defined.

(** X12 ([_InputConcatabilityGetter._map_input_arg_base]): the accumulator
    of a placeholder or data wrapper is built without tripping the assertion
    of its class.  It has seen that input only, and offers exactly the
    concatenation along each of the input's axes and the concatenation of a
    constant, each constraining the input to the same concatenatability. *)
Theorem input_argument_offers_each_of_its_axes (expr : Array) :
  exists acc,
    _InputConcatabilityGetter_map_input_arg_base expr = Ok acc
    /\ seen_inputs acc = [expr]
    /\ forall c,
         kget c (input_concatability acc)
         = match c with
           | ConcatableAlongAxis i =>
               if bool_decide (i < ndim expr)%nat then Some [(expr, c)]
               else None
           | ConcatableIfConstant => Some [(expr, c)]
           end.
Proof.
  unfold _InputConcatabilityGetter_map_input_arg_base.
  set (axes := foldl _ _ _).
  assert (forall c,
            kget c (kset ConcatableIfConstant
                         [(expr, ConcatableIfConstant)] axes)
            = match c with
              | ConcatableAlongAxis i =>
                  if bool_decide (i < ndim expr)%nat then Some [(expr, c)]
                  else None
              | ConcatableIfConstant => Some [(expr, c)]
              end) as Hget.
  { intros [i|]; [|apply kget_kset_eq].
    rewrite kget_kset_ne by done. unfold axes. rewrite axes_loop_lookup.
    cbn [kget]. by repeat case_bool_decide; try lia. }
  unfold new_acc.
  assert (post_init_holds [expr]
            (kset ConcatableIfConstant [(expr, ConcatableIfConstant)] axes)
          = true) as ->.
  { apply post_init_holds_spec. intros k m Hkm x.
    assert (m = [(expr, k)]) as ->; [|done].
    apply elem_of_kset in Hkm as [[= -> ->]|Hkm]; [done|].
    clear Hget. unfold axes in Hkm. clear axes. revert Hkm.
    generalize (ndim expr). intros n.
    assert (forall s d0,
              (forall k m, (k, m) ∈ d0 -> m = [(expr, k)]) ->
              (k, m) ∈ foldl (fun d idim =>
                       kset (ConcatableAlongAxis idim)
                            [(expr, ConcatableAlongAxis idim)] d)
                    d0 (seq s n) -> m = [(expr, k)]) as H.
    { induction n as [|n IH]; intros s d0 Hd0; cbn [seq foldl].
      - apply Hd0.
      - apply IH. intros k' m' [[= -> ->]|?]%elem_of_kset; [done|].
        by apply Hd0. }
    apply H. by intros k' m' ?%elem_of_nil. }
  eexists. split; [done|]. split; [done|]. exact Hget.
Qed.

End ConcatAccProperties.
